(** * OurNet::FuzzyIndex, parse.c: tokenizer, frequency table and emitters

    A shallow embedding of [src/parse.c] and the properties its
    specification states about it.

    Conventions of the embedding.
    - A byte is a [Z] in [0, 256).  A C string is the list of its bytes, the
      terminating NUL left out; the NUL sits at index [length s].
    - The file's own fixed arrays ([key], [val], [delim]) are total maps
      [Z -> Z] from offsets to bytes; their declared sizes [MAXKEY], [MAXVAL]
      bound the offsets that may be stored to.
    - [unsigned int] has 32 bits and wraps; [int] has 32 bits and must not
      overflow.
    - An execution on which the C standard puts no requirement (a read past a
      terminator, a store past an array or past a heap block, signed
      overflow) ends in [Undef].
      [Undef] is not something the program reports: no function of parse.c
      returns a status, and nothing in it tests for these conditions.
    - The consumer callback [cb] is an arbitrary C function; the embedding
      records the arguments of each invocation, in order. *)

From Stdlib Require Import ZArith Lia List.
From stdpp Require Import base tactics option list functions sorting.
Import ListNotations.
Local Open Scope Z_scope.

(** ** Outcomes *)

Inductive fault : Type :=
| ReadPastEnd    (* a read past the NUL of a string, or past the 4 seed bytes *)
| WritePastKey   (* a store to key[i] with i >= MAXKEY *)
| WritePastVal   (* a store to val[i] with i >= MAXVAL *)
| WritePastWord  (* a store past the block strdup allocated for en->word *)
| IntOverflow    (* ++xlen at INT_MAX *)
| OutOfFuel.     (* the embedding's loop bound was too small; never happens
                    for [extract_words], see [extract_words_fuel] *)

Inductive outcome (A : Type) : Type :=
| Ok (a : A)
| Undef (f : fault).
Arguments Ok {A} a.
Arguments Undef {A} f.

#[global] Instance outcome_ret : MRet outcome := fun A a => Ok a.
#[global] Instance outcome_bind : MBind outcome :=
  fun A B k m => match m with Ok a => k a | Undef f => Undef f end.

#[global] Instance outcome_fmap : FMap outcome :=
  fun A B f m => match m with Ok a => Ok (f a) | Undef e => Undef e end.

Definition is_ok {A} (m : outcome A) : bool :=
  match m with Ok _ => true | Undef _ => false end.

(** ** Implementation-defined and unspecified choices of the C platform

    [plain_char_signed]: whether plain [char] is signed.  The emitters apply
    [is_big5] to a [char *], so the byte is converted to [unsigned int]
    through [char].
    [args_right_to_left]: the order in which the arguments of a call are
    evaluated, which C leaves unspecified; [cb_word] passes two arguments
    one of which modifies the string the other measures. *)

Record platform : Type := {
  plain_char_signed : bool;
  args_right_to_left : bool
}.

(** ** Encoding classifier (lines 6-8) *)

(** [is_big5(p)]: [(unsigned int)c > 0xa0], with [c] the byte at [p], an
    [unsigned char *]. *)
Definition is_big5 (b : Z) : bool := 0xa0 <? b.

(** [is_big5word(p)]: [(unsigned int)c > 0xa3]. *)
Definition is_big5word (b : Z) : bool := 0xa3 <? b.

(** [is_alnum(p)], with [c] for the byte at [p]:
    [(c > 0x60 && c < 0x7b) || (c > 0x40 && c < 0x5b) || (c > 0x30 && c < 0x3b)]. *)
Definition is_alnum (b : Z) : bool :=
  ((0x60 <? b) && (b <? 0x7b)) || ((0x40 <? b) && (b <? 0x5b))
  || ((0x30 <? b) && (b <? 0x3b)).

(** The value of [(unsigned int)c] for a plain [char] holding the byte [b]. *)
Definition uint_of_char (P : platform) (b : Z) : Z :=
  if plain_char_signed P && (0x80 <=? b) then b - 0x100 + 0x100000000 else b.

(** [is_big5(en->word)], where [en->word] is a [char *]. *)
Definition is_big5_char (P : platform) (b : Z) : bool :=
  0xa0 <? uint_of_char P b.

Definition MAXKEY : Z := 32.
Definition MAXVAL : Z := 32768.
Definition INT_MAX : Z := 2147483647.
Definition UINT_MOD : Z := 4294967296.

(** ** Strings *)

(** The C string that starts at the head of [mem]: its bytes up to the first
    NUL. *)
Fixpoint c_str (mem : list Z) : list Z :=
  match mem with
  | [] => []
  | b :: mem' => if b =? 0 then [] else b :: c_str mem'
  end.

(** [s[p]] for a string [s]: the NUL at [length s], undefined beyond. *)
Definition peek (s : list Z) (p : nat) : outcome Z :=
  match s !! p with
  | Some b => Ok b
  | None => if decide (p = length s) then Ok 0 else Undef ReadPastEnd
  end.

(** The C string held by the array [a], read from offset [i]; [n] bytes of
    the array remain. *)
Fixpoint c_string (a : Z -> Z) (i : Z) (n : nat) : outcome (list Z) :=
  match n with
  | O => Undef ReadPastEnd
  | S n' => if a i =? 0 then Ok []
            else r ← c_string a (i + 1) n'; Ok (a i :: r)
  end.

(** The [n] bytes [strncpy(dst, src, n)] stores: the bytes of the string
    [src] until [n] are copied or its NUL is met, then NULs up to [n]. *)
Fixpoint strncpy_bytes (src : list Z) (n : nat) {struct n} : list Z :=
  match n with
  | O => []
  | S n' =>
      match src with
      | b :: src' => if b =? 0 then repeat 0 (S n')
                     else b :: strncpy_bytes src' n'
      | [] => repeat 0 (S n')
      end
  end.

(** The array [a] after [bs] is stored from offset [i] on. *)
Fixpoint write (a : Z -> Z) (i : Z) (bs : list Z) : Z -> Z :=
  match bs with
  | [] => a
  | b :: bs' => write (<[i:=b]> a) (i + 1) bs'
  end.

(** [strncpy(dst + i, src, n)]. *)
Definition strncpy (dst : Z -> Z) (i : Z) (src : list Z) (n : nat) : Z -> Z :=
  write dst i (strncpy_bytes src n).

(** The first [n] bytes of the array [a]. *)
Definition bytes_of (a : Z -> Z) (n : nat) : list Z :=
  map (fun i => a (Z.of_nat i)) (seq 0 n).

(** [strcmp]: only the sign of its result is specified; bytes compare as
    [unsigned char]. *)
Fixpoint strcmp (a b : list Z) : comparison :=
  match a, b with
  | [], [] => Eq
  | [], _ :: _ => Lt
  | _ :: _, [] => Gt
  | x :: a', y :: b' =>
      match x ?= y with
      | Eq => strcmp a' b'
      | c => c
      end
  end.

(** ** Entries and the frequency table *)

(** [struct entry { char *word; unsigned int freq; }].  [word] is a heap
    string made by [strdup] in [addentry], the only place that makes an
    entry: its block holds the string and its NUL ([strdup_size]). *)
Record entry : Type := { word : list Z; freq : Z }.

(** [wordcmp] (lines 112-116). *)
Definition wordcmp (a b : entry) : comparison := strcmp (word a) (word b).

(** Modelled from the spec: the ordered dictionary behind [avltree.h]
    ([tree_init], [tree_srch], [tree_add], [tree_trav], [tree_mung]), whose
    code is not part of the repository's sources.  The spec asks for
    find-or-insert, in-place increment and traversal in the comparator's
    order; the table is the list of its entries in that order. *)
Definition tree : Type := list entry.

(** Modelled from the spec: [tree_init], the empty table. *)
Definition tree_init : tree := [].

(** Modelled from the spec: [tree_srch], the entry that compares equal to
    the key [k], if there is one. *)
Fixpoint tree_srch (t : tree) (k : entry) : option entry :=
  match t with
  | [] => None
  | e :: t' => match wordcmp e k with
               | Eq => Some e
               | _ => tree_srch t' k
               end
  end.

(** Modelled from the spec: [tree_add], insertion of an entry no entry of
    the table compares equal to, at its place in the comparator's order. *)
Fixpoint tree_add (t : tree) (e : entry) : tree :=
  match t with
  | [] => [e]
  | e' :: t' => match wordcmp e e' with
                | Lt => e :: e' :: t'
                | _ => e' :: tree_add t' e
                end
  end.

(** [++en->freq] on the entry [tree_srch] returned: the entry is updated in
    place, and [unsigned int] wraps. *)
Definition incr_freq (e : entry) : entry :=
  {| word := word e; freq := (freq e + 1) mod UINT_MOD |}.

Fixpoint tree_incr (t : tree) (k : entry) : tree :=
  match t with
  | [] => []
  | e :: t' => match wordcmp e k with
               | Eq => incr_freq e :: t'
               | _ => e :: tree_incr t' k
               end
  end.

(** [addentry] (lines 119-133), on the string [x] it is passed.  The search
    key [k] is a local whose [freq] the source leaves unset; [wordcmp] does
    not read it. *)
Definition addentry (x : list Z) (t : tree) : tree :=
  let k := {| word := x; freq := 0 |} in
  match tree_srch t k with
  | Some _ => tree_incr t k
  | None => tree_add t {| word := x; freq := 1 |}
  end.

(** ** Global state (lines 19-31) *)

Record globals : Type := {
  key : Z -> Z;            (* char key[MAXKEY] *)
  val : Z -> Z;            (* char val[MAXVAL] *)
  delim : Z -> Z;          (* char delim[4] *)
  valp : Z;                (* char *valp, as an offset into val *)
  query : Z;               (* char query *)
  last : option entry;     (* struct entry *last *)
  wordtree : tree          (* tree *wordtree *)
}.

Definition set_key (k : Z -> Z) (g : globals) : globals :=
  {| key := k; val := val g; delim := delim g; valp := valp g;
     query := query g; last := last g; wordtree := wordtree g |}.
Definition set_val (v : Z -> Z) (g : globals) : globals :=
  {| key := key g; val := v; delim := delim g; valp := valp g;
     query := query g; last := last g; wordtree := wordtree g |}.
Definition set_delim (d : Z -> Z) (g : globals) : globals :=
  {| key := key g; val := val g; delim := d; valp := valp g;
     query := query g; last := last g; wordtree := wordtree g |}.
Definition set_valp (i : Z) (g : globals) : globals :=
  {| key := key g; val := val g; delim := delim g; valp := i;
     query := query g; last := last g; wordtree := wordtree g |}.
Definition set_last (l : option entry) (g : globals) : globals :=
  {| key := key g; val := val g; delim := delim g; valp := valp g;
     query := query g; last := l; wordtree := wordtree g |}.
Definition set_wordtree (t : tree) (g : globals) : globals :=
  {| key := key g; val := val g; delim := delim g; valp := valp g;
     query := query g; last := last g; wordtree := t |}.

(** [query] is written only by the caller, from outside parse.c. *)
Definition set_query (q : Z) (g : globals) : globals :=
  {| key := key g; val := val g; delim := delim g; valp := valp g;
     query := q; last := last g; wordtree := wordtree g |}.

(** The state a freshly loaded program starts in. *)
Definition initial_globals : globals :=
  {| key := fun _ => 0; val := fun _ => 0; delim := fun _ => 0x3f;
     valp := 0; query := 0; last := None; wordtree := [] |}.

(** [key[i] = b]. *)
Definition store_key (i b : Z) (g : globals) : outcome globals :=
  if i <? MAXKEY then Ok (set_key (<[i:=b]> (key g)) g) else Undef WritePastKey.

(** [val[i] = b]. *)
Definition store_val (i b : Z) (g : globals) : outcome globals :=
  if i <? MAXVAL then Ok (set_val (<[i:=b]> (val g)) g) else Undef WritePastVal.

(** [memcpy(val + i, bs, length bs)]. *)
Fixpoint memcpy_val (i : Z) (bs : list Z) (g : globals) : outcome globals :=
  match bs with
  | [] => Ok g
  | b :: bs' => g' ← store_val i b g; memcpy_val (i + 1) bs' g'
  end.

(** [addentry(key)]: the argument is the string the array [key] holds. *)
Definition addentry_key (g : globals) : outcome globals :=
  x ← c_string (key g) 0 (Z.to_nat MAXKEY);
  Ok (set_wordtree (addentry x (wordtree g)) g).

(** ** Tokenizer: [extract_words] (lines 141-199)

    [s] is the input string, [p] the offset of the C pointer [p] in it.  The
    loops take a bound on their number of iterations; [extract_words] passes
    one that is never reached. *)

(** [strncpy(key, q, n)] for a pointer [q] into the input string. *)
Definition strncpy_key (s : list Z) (q : nat) (n : nat) (g : globals) : globals :=
  set_key (strncpy (key g) 0 (drop q s) n) g.

(** Lines 155-158:
    [while(is_big5word(p += 2)) { strncpy(key, p-2, 4); addentry(key); }]. *)
Fixpoint bigram_loop (fuel : nat) (s : list Z) (p : nat) (g : globals)
  : outcome (nat * globals) :=
  match fuel with
  | O => Undef OutOfFuel
  | S fuel' =>
      let p := (p + 2)%nat in
      b ← peek s p;
      if is_big5word b then
        g ← addentry_key (strncpy_key s (p - 2) 4 g);
        bigram_loop fuel' s p g
      else Ok (p, g)
  end.

(** Lines 164-166 and 172-174:
    [key[2] = key[3] = 0x21; strncpy(key, p-2, 2); addentry(key);]. *)
Definition add_single (s : list Z) (p : nat) (g : globals) : outcome globals :=
  g ← store_key 3 0x21 g;
  g ← store_key 2 0x21 g;
  addentry_key (strncpy_key s (p - 2) 2 g).

(** Lines 147-178: the branch taken when [is_big5(p)]. *)
Definition big5_branch (s : list Z) (p : nat) (g : globals)
  : outcome (nat * globals) :=
  let p := (p + 2)%nat in
  b ← peek s p;
  if is_big5word b then
    g ← store_key 4 0 g;
    b2 ← peek s (p - 2);
    g ← (if is_big5word b2 then addentry_key (strncpy_key s (p - 2) 4 g)
         else Ok g);
    '(p, g) ← bigram_loop (length s) s p g;
    (* if (!(query && is_big5word(p-4))) *)
    if query g =? 0 then g ← add_single s p g; Ok (p, g)
    else
      b4 ← peek s (p - 4);
      if is_big5word b4 then Ok (p, g)
      else g ← add_single s p g; Ok (p, g)
  else
    b2 ← peek s (p - 2);
    if is_big5word b2 then
      g ← store_key 4 0 g;
      g ← add_single s p g;
      Ok (p, g)
    else Ok (p, g).

(** Lines 182-186:
    [do { if (upper) *p += 32; ++p, ++xlen; } while(is_alnum(p));]
    with [int xlen].  The string is changed in place. *)
Fixpoint alnum_loop (fuel : nat) (s : list Z) (p : nat) (xlen : Z)
  : outcome (list Z * nat * Z) :=
  match fuel with
  | O => Undef OutOfFuel
  | S fuel' =>
      b ← peek s p;
      let s := if (0x40 <? b) && (b <? 0x5b) then <[p:=b + 32]> s else s in
      let p := S p in
      if xlen =? INT_MAX then Undef IntOverflow
      else
        let xlen := xlen + 1 in
        b' ← peek s p;
        if is_alnum b' then alnum_loop fuel' s p xlen
        else Ok (s, p, xlen)
  end.

(** Lines 179-194: the branch taken when [is_alnum(p)]. *)
Definition alnum_branch (s : list Z) (p : nat) (g : globals)
  : outcome (list Z * nat * globals) :=
  let start := p in
  '(s, p, xlen) ← alnum_loop (length s) s p 0;
  if 1 <? xlen then
    let xlen := if MAXKEY <? xlen then MAXKEY else xlen in
    let g := strncpy_key s start (Z.to_nat xlen) g in
    g ← store_key xlen 0 g;
    g ← addentry_key g;
    Ok (s, p, g)
  else Ok (s, p, g).

(** Lines 146-198: [while( *p) { ... }]. *)
Fixpoint scan (fuel : nat) (s : list Z) (p : nat) (g : globals)
  : outcome (list Z * globals) :=
  match fuel with
  | O => Undef OutOfFuel
  | S fuel' =>
      b ← peek s p;
      if b =? 0 then Ok (s, g)
      else if is_big5 b then
        '(p, g) ← big5_branch s p g; scan fuel' s p g
      else if is_alnum b then
        '(s, p, g) ← alnum_branch s p g; scan fuel' s p g
      else scan fuel' s (S p) g
  end.

(** [extract_words(p)]: [mem] holds the bytes at [p]; the string is what
    precedes the first NUL.  Returns the string as the call leaves it. *)
Definition extract_words (mem : list Z) (g : globals)
  : outcome (list Z * globals) :=
  let s := c_str mem in
  scan (S (length s)) s 0 (set_wordtree tree_init g).

(** ** Emitters *)

(** What the consumer receives as second argument: a pointer to bytes, or an
    integer cast to a pointer. *)
Inductive arg2 : Type :=
| Bytes (bs : list Z)
| Cast (n : Z).

(** One invocation [cb(a1, a2, a3)]. *)
Record call : Type := { c_key : list Z; c_val : arg2; c_len : Z }.

(** [en->freq > 0xa3 ? 0xa3 : en->freq]. *)
Definition freq_cap (en : entry) : Z :=
  if 0xa3 <? freq en then 0xa3 else freq en.

(** [cb(key, val, valp-val+1)]: the string in [key], and the first
    [valp-val+1] bytes of [val]. *)
Definition flush_key (g : globals) : outcome call :=
  k ← c_string (key g) 0 (Z.to_nat MAXKEY);
  Ok {| c_key := k;
        c_val := Bytes (bytes_of (val g) (Z.to_nat (valp g + 1)));
        c_len := valp g + 1 |}.

(** Lines 53-57 and 64-68: a new group.
    [memcpy(key, en->word, 2); key[2]=0; memcpy(valp = val, delim, 4);
     memcpy(valp+4, en->word+2, 2); *(valp+=6) = freq]. *)
Definition open_group (en : entry) (g : globals) : outcome globals :=
  w0 ← peek (word en) 0;
  w1 ← peek (word en) 1;
  g ← store_key 0 w0 g;
  g ← store_key 1 w1 g;
  g ← store_key 2 0 g;
  let g := set_valp 0 g in
  g ← memcpy_val (valp g) [delim g 0; delim g 1; delim g 2; delim g 3] g;
  w2 ← peek (word en) 2;
  w3 ← peek (word en) 3;
  g ← memcpy_val (valp g + 4) [w2; w3] g;
  let g := set_valp (valp g + 6) g in
  store_val (valp g) (freq_cap en) g.

(** Lines 45-46: [memcpy(valp+1, en->word+2, 2); *(valp+=3) = freq]. *)
Definition append_group (en : entry) (g : globals) : outcome globals :=
  w2 ← peek (word en) 2;
  w3 ← peek (word en) 3;
  g ← memcpy_val (valp g + 1) [w2; w3] g;
  let g := set_valp (valp g + 3) g in
  store_val (valp g) (freq_cap en) g.

(** Line 40: [( *(en->word) == *(l->word)) && ( *(en->word+1) == *(l->word+1))]. *)
Definition same_lead (en l : entry) : outcome bool :=
  c ← peek (word en) 0;
  c' ← peek (word l) 0;
  if c =? c' then
    d ← peek (word en) 1;
    d' ← peek (word l) 1;
    Ok (d =? d')
  else Ok false.

(** [cb_delim] (lines 35-82).  Returns the invocations of [cb] it makes. *)
Definition cb_delim (P : platform) (en : entry) (g : globals)
  : outcome (list call * globals) :=
  c ← peek (word en) 0;
  if is_big5_char P c then
    '(out, g) ←
      match last g with
      | Some l =>
          same_lead en l ≫= fun same : bool =>
          if same then g ← append_group en g; Ok ([], g)
          else r ← flush_key g; g ← open_group en g; Ok ([r], g)
      | None => g ← open_group en g; Ok ([], g)
      end;
    Ok (out, set_last (Some en) g)
  else
    let g := set_valp 0 g in
    g ← memcpy_val (valp g) [delim g 0; delim g 1; delim g 2; delim g 3] g;
    g ← store_val (valp g + 4) 0x20 g;
    g ← store_val (valp g + 5) 0x20 g;
    let g := set_valp (valp g + 6) g in
    g ← store_val (valp g) (freq_cap en) g;
    Ok ([{| c_key := word en;
            c_val := Bytes (bytes_of (val g) (Z.to_nat (valp g + 1)));
            c_len := valp g + 1 |}], g).

(** [cb_pair] (lines 84-97). *)
Definition cb_pair (P : platform) (en : entry) (g : globals)
  : outcome (list call * globals) :=
  c ← peek (word en) 0;
  if is_big5_char P c then
    w1 ← peek (word en) 1;
    g ← store_key 0 c g;
    g ← store_key 1 w1 g;
    g ← store_key 2 0 g;
    k ← c_string (key g) 0 (Z.to_nat MAXKEY);
    _ ← peek (word en) 2;
    Ok ([{| c_key := k; c_val := Bytes (drop 2 (word en));
            c_len := freq_cap en |}], g)
  else
    Ok ([{| c_key := word en; c_val := Bytes [0x20; 0x20];
            c_len := freq_cap en |}], g).

(** [strlen]. *)
Definition strlen (w : list Z) : Z := Z.of_nat (length w).

(** The bytes of the block [strdup(x)] allocates (line 129): the string and
    its NUL. *)
Definition strdup_size (x : list Z) : Z := strlen x + 1.

(** [strcat(w, "  ")] with two blanks, [w] standing in a block of [size]
    bytes: the blanks and the NUL are stored at the offsets [strlen w],
    [strlen w + 1] and [strlen w + 2]. *)
Definition strcat_blanks (w : list Z) (size : Z) : outcome (list Z) :=
  if strlen w + 2 <? size then Ok (w ++ [0x20; 0x20])
  else Undef WritePastWord.

(** [cb_word] (lines 99-110).  In the second branch the call is
    [cb(strcat(en->word, "  "), (char * )strlen(en->word)+2, ...)]: the first
    argument appends to the string the second one measures, and C does not
    fix which is evaluated first.  [en->word] is the block [strdup] made for
    the token. *)
Definition cb_word (P : platform) (en : entry) (g : globals)
  : outcome (list call * globals) :=
  c ← peek (word en) 0;
  if is_big5_char P c then
    Ok ([{| c_key := word en; c_val := Cast 4; c_len := freq_cap en |}], g)
  else if args_right_to_left P then
    let a2 := strlen (word en) + 2 in
    a1 ← strcat_blanks (word en) (strdup_size (word en));
    Ok ([{| c_key := a1; c_val := Cast a2; c_len := freq_cap en |}], g)
  else
    a1 ← strcat_blanks (word en) (strdup_size (word en));
    let a2 := strlen a1 + 2 in
    Ok ([{| c_key := a1; c_val := Cast a2; c_len := freq_cap en |}], g).

(** ** Parse drivers (lines 201-234) *)

(** Modelled from the spec: [tree_trav], the in-order walk of [avltree.h],
    calling the visitor on each entry. *)
Fixpoint tree_trav (visit : entry -> globals -> outcome (list call * globals))
  (t : tree) (g : globals) : outcome (list call * globals) :=
  match t with
  | [] => Ok ([], g)
  | en :: t' =>
      '(out, g) ← visit en g;
      '(out', g) ← tree_trav visit t' g;
      Ok (out ++ out', g)
  end.

(** Lines 212-215: [if (last) { last->word[2] = 0; cb(last->word, val, ...); }]. *)
Definition final_flush (g : globals) : list call :=
  match last g with
  | Some l => [{| c_key := take 2 (word l);
                  c_val := Bytes (bytes_of (val g) (Z.to_nat (valp g + 1)));
                  c_len := valp g + 1 |}]
  | None => []
  end.

(** [memcpy(delim, seed, 4)]. *)
Definition memcpy_delim (seed : list Z) (g : globals) : outcome globals :=
  match seed with
  | d0 :: d1 :: d2 :: d3 :: _ =>
      Ok (set_delim (<[3:=d3]> (<[2:=d2]> (<[1:=d1]> (<[0:=d0]> (delim g))))) g)
  | _ => Undef ReadPastEnd
  end.

(** What a driver leaves behind: the invocations of [cb], the input string
    (changed in place by the tokenizer) and the globals. *)
Record result : Type := { calls : list call; buffer : list Z; after : globals }.

(** Modelled from the spec: [tree_mung(&wordtree, en_cleanup)], every
    entry is freed and the table is left empty. *)
Definition tree_mung (g : globals) : globals := set_wordtree [] g.

(** Lines 207-215: [last = 0; tree_trav(&wordtree, cb_delim);] and the flush
    of the group still open, over the table [t]. *)
Definition walk_delim (P : platform) (t : tree) (g : globals)
  : outcome (list call * globals) :=
  let g := set_last None g in
  '(out, g) ← tree_trav (cb_delim P) t g;
  Ok (out ++ final_flush g, g).

(** [parse_delim] (lines 201-217). *)
Definition parse_delim (P : platform) (mem seed : list Z) (g : globals)
  : outcome result :=
  '(s, g) ← extract_words mem g;
  g ← memcpy_delim seed g;
  '(out, g) ← walk_delim P (wordtree g) g;
  Ok {| calls := out; buffer := s; after := tree_mung g |}.

(** [parse_pair] (lines 219-225). *)
Definition parse_pair (P : platform) (mem : list Z) (g : globals)
  : outcome result :=
  '(s, g) ← extract_words mem g;
  '(out, g) ← tree_trav (cb_pair P) (wordtree g) g;
  Ok {| calls := out; buffer := s; after := tree_mung g |}.

(** [parse_word] (lines 228-234). *)
Definition parse_word (P : platform) (mem : list Z) (g : globals)
  : outcome result :=
  '(s, g) ← extract_words mem g;
  '(out, g) ← tree_trav (cb_word P) (wordtree g) g;
  Ok {| calls := out; buffer := s; after := tree_mung g |}.

(** ** The tokenizer without its scratch array

    [extract_words] goes through the global [key] for every token.  The
    functions below compute the same table from the string alone; they are
    proved equal to the ones above ([scan_tokens]), which shows that no
    token depends on what [key] held before. *)

(** The token [addentry(key)] sees after [strncpy(key, q, 4)], [key[4]]
    being NUL. *)
Definition bigram_tok (s : list Z) (q : nat) : list Z :=
  c_str (strncpy_bytes (drop q s) 4).

(** The token after [key[2] = key[3] = 0x21; strncpy(key, q, 2)]. *)
Definition single_tok (s : list Z) (q : nat) : list Z :=
  c_str (strncpy_bytes (drop q s) 2 ++ [0x21; 0x21]).

(** The token after [strncpy(key, q, n); key[n] = 0]. *)
Definition alnum_tok (s : list Z) (q : nat) (n : nat) : list Z :=
  c_str (strncpy_bytes (drop q s) n).

Fixpoint bigram_loop_t (fuel : nat) (s : list Z) (p : nat) (t : tree)
  : outcome (nat * tree) :=
  match fuel with
  | O => Undef OutOfFuel
  | S fuel' =>
      let p := (p + 2)%nat in
      b ← peek s p;
      if is_big5word b then
        bigram_loop_t fuel' s p (addentry (bigram_tok s (p - 2)) t)
      else Ok (p, t)
  end.

Definition big5_branch_t (s : list Z) (p : nat) (q : Z) (t : tree)
  : outcome (nat * tree) :=
  let p := (p + 2)%nat in
  b ← peek s p;
  if is_big5word b then
    b2 ← peek s (p - 2);
    let t := if is_big5word b2 then addentry (bigram_tok s (p - 2)) t else t in
    '(p, t) ← bigram_loop_t (length s) s p t;
    if q =? 0 then Ok (p, addentry (single_tok s (p - 2)) t)
    else
      b4 ← peek s (p - 4);
      if is_big5word b4 then Ok (p, t)
      else Ok (p, addentry (single_tok s (p - 2)) t)
  else
    b2 ← peek s (p - 2);
    if is_big5word b2 then Ok (p, addentry (single_tok s (p - 2)) t)
    else Ok (p, t).

Definition alnum_branch_t (s : list Z) (p : nat) (t : tree)
  : outcome (list Z * nat * tree) :=
  '(s', p', xlen) ← alnum_loop (length s) s p 0;
  if 1 <? xlen then
    let xlen := if MAXKEY <? xlen then MAXKEY else xlen in
    if xlen <? MAXKEY then
      Ok (s', p', addentry (alnum_tok s' p (Z.to_nat xlen)) t)
    else Undef WritePastKey
  else Ok (s', p', t).

Fixpoint scan_t (fuel : nat) (s : list Z) (p : nat) (q : Z) (t : tree)
  : outcome (list Z * tree) :=
  match fuel with
  | O => Undef OutOfFuel
  | S fuel' =>
      b ← peek s p;
      if b =? 0 then Ok (s, t)
      else if is_big5 b then
        '(p, t) ← big5_branch_t s p q t; scan_t fuel' s p q t
      else if is_alnum b then
        '(s, p, t) ← alnum_branch_t s p t; scan_t fuel' s p q t
      else scan_t fuel' s (S p) q t
  end.

(** The string and the table [extract_words] leaves, from the input and the
    [query] flag alone. *)
Definition tokenize (q : Z) (mem : list Z) : outcome (list Z * tree) :=
  let s := c_str mem in
  scan_t (S (length s)) s 0 q tree_init.

(** The globals after a tokenizer run: only [key] and [wordtree] change. *)
Definition with_tok (k : Z -> Z) (t : tree) (g : globals) : globals :=
  set_wordtree t (set_key k g).

(** A tokenizer result over the table alone, as a result over the globals. *)
Definition lift_tok {A} (k : Z -> Z) (g : globals) (r : A * tree) : A * globals :=
  (r.1, with_tok k r.2 g).

(** ** The emitters without the scratch arrays

    The delimited emitter keeps its open group in [key], [val] and [valp].
    [dstate] holds the same information as lists: the string in [key] and
    the bytes [val[0 .. valp]].  [cb_delim_d] is [cb_delim] on that state;
    [cb_delim_refines] relates the two. *)

Record dstate : Type := {
  d_last : option entry;
  d_key : list Z;
  d_blob : list Z
}.

(** The invocation [cb(k, val, valp-val+1)] when [val[0 .. valp]] is [blob]. *)
Definition record_of (k blob : list Z) : call :=
  {| c_key := k; c_val := Bytes blob; c_len := Z.of_nat (length blob) |}.

(** One more byte stored after [blob], within [val]. *)
Definition push (b : Z) (blob : list Z) : outcome (list Z) :=
  if Z.of_nat (length blob) <? MAXVAL then Ok (blob ++ [b])
  else Undef WritePastVal.

Definition open_group_d (d : list Z) (en : entry) : outcome (list Z * list Z) :=
  w0 ← peek (word en) 0;
  w1 ← peek (word en) 1;
  w2 ← peek (word en) 2;
  w3 ← peek (word en) 3;
  Ok (c_str [w0; w1], d ++ [w2; w3; freq_cap en]).

Definition append_group_d (en : entry) (blob : list Z) : outcome (list Z) :=
  w2 ← peek (word en) 2;
  w3 ← peek (word en) 3;
  blob ← push w2 blob;
  blob ← push w3 blob;
  push (freq_cap en) blob.

Definition cb_delim_d (P : platform) (d : list Z) (en : entry) (a : dstate)
  : outcome (list call * dstate) :=
  c ← peek (word en) 0;
  if is_big5_char P c then
    '(out, k, blob) ←
      match d_last a with
      | Some l =>
          same_lead en l ≫= fun same : bool =>
          if same then
            blob ← append_group_d en (d_blob a); Ok ([], d_key a, blob)
          else
            '(k, blob) ← open_group_d d en;
            Ok ([record_of (d_key a) (d_blob a)], k, blob)
      | None => '(k, blob) ← open_group_d d en; Ok ([], k, blob)
      end;
    Ok (out, {| d_last := Some en; d_key := k; d_blob := blob |})
  else
    let blob := d ++ [0x20; 0x20; freq_cap en] in
    Ok ([record_of (word en) blob],
        {| d_last := d_last a; d_key := d_key a; d_blob := blob |}).

Fixpoint trav_d (P : platform) (d : list Z) (t : tree) (a : dstate)
  : outcome (list call * dstate) :=
  match t with
  | [] => Ok ([], a)
  | en :: t' =>
      '(out, a) ← cb_delim_d P d en a;
      '(out', a) ← trav_d P d t' a;
      Ok (out ++ out', a)
  end.

Definition final_flush_d (a : dstate) : list call :=
  match d_last a with
  | Some l => [record_of (take 2 (word l)) (d_blob a)]
  | None => []
  end.

(** No group open: the state [parse_delim] starts its traversal in. *)
Definition closed : dstate := {| d_last := None; d_key := []; d_blob := [] |}.

(** Everything the delimited emitter hands to [cb] for the table [t] and
    the delimiter [d]. *)
Definition emit_delim (P : platform) (d : list Z) (t : tree) : outcome (list call) :=
  '(out, a) ← trav_d P d t closed;
  Ok (out ++ final_flush_d a).

(** The four bytes [memcpy(delim, seed, 4)] reads. *)
Definition seed_bytes (seed : list Z) : outcome (list Z) :=
  match seed with
  | d0 :: d1 :: d2 :: d3 :: _ => Ok [d0; d1; d2; d3]
  | _ => Undef ReadPastEnd
  end.

(** [globals] and [dstate] describe the same emitter state. *)
Definition abs_delim (d : list Z) (g : globals) (a : dstate) : Prop :=
  last g = d_last a /\
  d = [delim g 0; delim g 1; delim g 2; delim g 3] /\
  (is_Some (d_last a) ->
     c_string (key g) 0 (Z.to_nat MAXKEY) = Ok (d_key a) /\
     valp g + 1 = Z.of_nat (length (d_blob a)) /\
     bytes_of (val g) (length (d_blob a)) = d_blob a).

(** Two outcomes fail alike or return results related by [R]. *)
Definition refines {A B} (R : A -> B -> Prop) (m : outcome A) (m' : outcome B)
  : Prop :=
  match m, m' with
  | Ok a, Ok b => R a b
  | Undef f, Undef f' => f = f'
  | _, _ => False
  end.

(** The invocation [cb_pair] makes for [en]. *)
Definition pair_calls (P : platform) (en : entry) : outcome (list call) :=
  c ← peek (word en) 0;
  if is_big5_char P c then
    w1 ← peek (word en) 1;
    _ ← peek (word en) 2;
    Ok [{| c_key := c_str [c; w1]; c_val := Bytes (drop 2 (word en));
           c_len := freq_cap en |}]
  else
    Ok [{| c_key := word en; c_val := Bytes [0x20; 0x20];
           c_len := freq_cap en |}].

(** The invocation [cb_word] makes for [en]. *)
Definition word_calls (P : platform) (en : entry) : outcome (list call) :=
  c ← peek (word en) 0;
  if is_big5_char P c then
    Ok [{| c_key := word en; c_val := Cast 4; c_len := freq_cap en |}]
  else
    a1 ← strcat_blanks (word en) (strdup_size (word en));
    Ok [{| c_key := a1;
           c_val := Cast (if args_right_to_left P then strlen (word en) + 2
                          else strlen a1 + 2);
           c_len := freq_cap en |}].

(** The invocations of a traversal whose visitor needs no state. *)
Fixpoint trav_calls (f : entry -> outcome (list call)) (t : tree)
  : outcome (list call) :=
  match t with
  | [] => Ok []
  | en :: t' => out ← f en; out' ← trav_calls f t'; Ok (out ++ out')
  end.

(** ** Vocabulary of the statements *)

(** The table after [addentry] is called on each token of [toks] in turn. *)
Definition insert_all (toks : list (list Z)) (t : tree) : tree :=
  fold_left (fun t x => addentry x t) toks t.

(** The entry the table holds for the token [x]. *)
Definition lookup_word (t : tree) (x : list Z) : option entry :=
  tree_srch t {| word := x; freq := 0 |}.

(** How many times [x] occurs in [toks]. *)
Fixpoint occurrences (x : list Z) (toks : list (list Z)) : nat :=
  match toks with
  | [] => 0
  | y :: toks' => (if decide (y = x) then 1 else 0) + occurrences x toks'
  end.

(** What a caller can see of a driver's result: the invocations of [cb], and
    the [query] flag afterwards. *)
Definition observe (r : result) : list call * Z := (calls r, query (after r)).

(** A two-byte character: lead byte, second byte. *)
Definition char2 : Type := (Z * Z)%type.

(** The bytes of a sequence of two-byte characters. *)
Definition chars (cs : list char2) : list Z :=
  flat_map (fun c => [c.1; c.2]) cs.

(** An ideograph: lead byte above 0xa3; a symbol: lead byte 0xa1 .. 0xa3.
    The second byte is a byte of the string, hence not NUL. *)
Definition ideograph (c : char2) : Prop := 0xa3 < c.1 /\ c.2 <> 0.
Definition symbol (c : char2) : Prop := 0xa0 < c.1 <= 0xa3 /\ c.2 <> 0.

Definition bigram (c c' : char2) : list Z := [c.1; c.2; c'.1; c'.2].
Definition unigram (c : char2) : list Z := [c.1; c.2; 0x21; 0x21].

(** One bigram per adjacent pair. *)
Fixpoint bigrams (cs : list char2) : list (list Z) :=
  match cs with
  | c :: (c' :: _) as cs' => bigram c c' :: bigrams cs'
  | _ => []
  end.

(** The tokens of a run of at least two ideographs [cs], in the order of
    insertion, under the query flag [q]. *)
Definition run_tokens (q : Z) (cs : list char2) : list (list Z) :=
  bigrams cs ++ (if q =? 0 then [unigram (List.last cs (0, 0))] else []).

(** The entry for a token seen [n] times. *)
Definition counted (x : list Z) (n : nat) : option entry :=
  match n with
  | O => None
  | S _ => Some {| word := x; freq := Z.of_nat n mod UINT_MOD |}
  end.

(** A platform to run examples on: plain [char] signed, arguments evaluated
    right to left. *)
Definition gcc_like : platform :=
  {| plain_char_signed := true; args_right_to_left := true |}.

(** ["Hi hi "] followed by three ideographs. *)
Definition sample_text : list Z :=
  [0x48; 0x69; 0x20; 0x68; 0x69; 0x20; 0xa4; 0x40; 0xa4; 0x41; 0xa4; 0x42].

(** Three ideographs and nothing else. *)
Definition cjk_text : list Z := [0xa4; 0x40; 0xa4; 0x41; 0xa4; 0x42].

(** A string of bytes, none of them NUL: what [strdup] stores in an entry. *)
Definition byte_string (w : list Z) : Prop := Forall (fun b => 0 < b < 256) w.

(** The emitters' test [is_big5(en->word)]. *)
Definition big5_entry (P : platform) (en : entry) : bool :=
  is_big5_char P (hd 0 (word en)).

(** A CJK entry: a four-byte token on which the emitters take the first
    branch. *)
Definition cjk_entry (P : platform) (en : entry) : Prop :=
  big5_entry P en = true /\ length (word en) = 4%nat /\ byte_string (word en).

(** The first two bytes of an entry's token, and the three bytes the
    delimited emitter appends for it: the last two bytes of the token and
    the capped frequency. *)
Definition lead2 (en : entry) : list Z := take 2 (word en).
Definition triple (en : entry) : list Z := drop 2 (word en) ++ [freq_cap en].

(** The one invocation for a group [grp] of entries with the first two
    bytes [k], under the delimiter [d]: key [k], value [d] followed by one
    triple per entry. *)
Definition group_call (k d : list Z) (grp : list entry) : call :=
  {| c_key := k;
     c_val := Bytes (d ++ flat_map triple grp);
     c_len := 4 + 3 * Z.of_nat (length grp) |}.

(** A table to run examples on: an ASCII entry, two CJK entries with the
    lead A4 40, one with the lead A4 41. *)
Definition sample_pre : tree := [ {| word := [0x68; 0x69]; freq := 2 |} ].
Definition sample_group : tree :=
  [ {| word := [0xa4; 0x40; 0xa4; 0x41]; freq := 1 |};
    {| word := [0xa4; 0x40; 0xa4; 0x42]; freq := 200 |} ].
Definition sample_post : tree :=
  [ {| word := [0xa4; 0x41; 0xa4; 0x42]; freq := 1 |} ].

(** A traversal in the comparator's order. *)
Definition in_order (t : tree) : Prop :=
  StronglySorted (fun a b => wordcmp a b = Lt) t.

(** The bytes of [delim]. *)
Definition delim_bytes (g : globals) : list Z :=
  [delim g 0; delim g 1; delim g 2; delim g 3].

(** The emitter state satisfies: the open group's key is the lead of the
    last entry. *)
Definition dinv (a : dstate) : Prop :=
  forall l, d_last a = Some l -> byte_string (word l) /\ d_key a = lead2 l.

(** The entry [last] points to after the entries of [t] are visited: the
    last one on which [cb_delim] took its first branch. *)
Definition last_cjk (P : platform) (t : tree) (init : option entry)
  : option entry :=
  fold_left (fun acc e => if big5_entry P e then Some e else acc) t init.

(** A text that makes a group too long for [val]: the ideograph A4 40
    followed by the [i]-th of a series of distinct ideographs and a blank,
    for each [i] below [n]. *)
Definition lead_char : char2 := (0xa4, 0x40).
Definition nth_char (i : nat) : char2 :=
  (0xa5 + Z.of_nat i / 128, 0x40 + Z.of_nat i mod 128).
Definition unit_text (i : nat) : list Z :=
  chars [lead_char; nth_char i] ++ [0x20].
Definition long_text (n : nat) : list Z := flat_map unit_text (seq 0 n).

(** The entries of its bigrams, which share the two lead bytes A4 40, and of
    its unigrams. *)
Definition same_lead_group (n : nat) : list entry :=
  map (fun i => {| word := bigram lead_char (nth_char i); freq := 1 |})
      (seq 0 n).
Definition singles (q : Z) (n : nat) : list entry :=
  if q =? 0 then
    map (fun i => {| word := unigram (nth_char i); freq := 1 |}) (seq 0 n)
  else [].

(** [m] does not stop for lack of fuel, and a result it returns satisfies
    [Q]. *)
Definition fuelled {A} (Q : A -> Prop) (m : outcome A) : Prop :=
  match m with
  | Ok a => Q a
  | Undef f => f <> OutOfFuel
  end.

(** What ends a run: the end of the string, or a byte that is no ideograph
    lead. *)
Definition run_end (post : list Z) : Prop :=
  forall b, head post = Some b -> b <= 0xa3.

(** What [cb_delim] leaves of an open group, on both sides. *)
Definition group_rel (g : globals) (r : list call * globals)
    (r' : list call * list Z * list Z) : Prop :=
  r.1 = r'.1.1 /\
  c_string (key r.2) 0 (Z.to_nat MAXKEY) = Ok r'.1.2 /\
  valp r.2 + 1 = Z.of_nat (length r'.2) /\
  bytes_of (val r.2) (length r'.2) = r'.2 /\
  delim r.2 = delim g /\ query r.2 = query g.

(** The byte [alnum_loop] leaves where it read [b]: an upper-case letter
    gets 32 added. *)
Definition lower (b : Z) : Z :=
  if (0x40 <? b) && (b <? 0x5b) then b + 32 else b.

(** What ends a run of alphanumeric bytes: the end of the string, or a byte
    [is_alnum] rejects. *)
Definition word_end (post : list Z) : Prop :=
  forall b, head post = Some b -> is_alnum b = false.

(** [b2] is [b], or [b] in lower case. *)
Definition lowered (b2 b : Z) : Prop := b2 = b \/ b2 = lower b.

(** The two shapes of the tokens [extract_words] inserts: four bytes, none
    of them NUL, the first an ideograph lead; or 2 to 31 alphanumeric bytes
    in lower case. *)
Definition cjk_token (w : list Z) : Prop :=
  length w = 4%nat /\ byte_string w /\ 0xa3 < hd 0 w.
Definition ascii_token (w : list Z) : Prop :=
  (2 <= length w <= 31)%nat /\
  Forall (fun b => is_alnum b = true /\ lower b = b) w.
Definition token (w : list Z) : Prop := cjk_token w \/ ascii_token w.

(** A text of bytes: what a [char] buffer holds before its NUL. *)
Definition text (s : list Z) : Prop := Forall (fun b => 0 < b < 256) s.

(** A record of the delimited emitter under the delimiter [d]: the value is
    [d] followed by [k] items of three bytes, [k] at least 1; the third
    argument is the number of bytes of the value, and the value fits
    [val]. *)
Definition delim_record (d : list Z) (c : call) : Prop :=
  exists body k,
    c_val c = Bytes (d ++ body) /\ (0 < k)%nat /\ length body = (3 * k)%nat /\
    c_len c = 4 + 3 * Z.of_nat k /\ c_len c <= MAXVAL.

(** A text whose double-byte characters are complete: read from the left,
    a byte [is_big5] rejects stands alone, and a byte it accepts is followed
    by a second byte of the text. *)
Inductive paired : list Z -> Prop :=
| paired_nil : paired []
| paired_single b s : is_big5 b = false -> paired s -> paired (b :: s)
| paired_double l b s : is_big5 l = true -> paired s -> paired (l :: b :: s).

(** From the offset [p] on, no 32 bytes in a row are alphanumeric: every
    window of 32 offsets holds a byte [is_alnum] rejects (the terminating
    NUL is one). *)
Definition short_from (p : nat) (s : list Z) : Prop :=
  forall i, (p <= i)%nat ->
    exists j, (i <= j < i + 32)%nat /\ is_alnum (nth j s 0) = false.
Definition short_words (s : list Z) : Prop := short_from 0 s.

(** [m] has none of the faults of the C code: it returns a result that
    satisfies [Q], or the embedding's loop bound stopped it. *)
Definition sound {A} (Q : A -> Prop) (m : outcome A) : Prop :=
  match m with
  | Ok a => Q a
  | Undef f => f = OutOfFuel
  end.

(** A text without words: no byte of it is a double-byte lead, none is
    alphanumeric. *)
Definition blank (s : list Z) : Prop :=
  Forall (fun b => is_big5 b = false /\ is_alnum b = false) s.

(** The pieces the tokenizer reads a text as: a byte that starts nothing; a
    run of alphanumeric bytes; a run of double-byte characters, made of at
    most one symbol and of the ideographs after it. *)
Inductive piece : Type :=
| Other (b : Z)
| Word (c : Z) (run : list Z)
| Chars (lead cs : list char2).

Definition piece_bytes (u : piece) : list Z :=
  match u with
  | Other b => [b]
  | Word c run => c :: run
  | Chars lead cs => chars (lead ++ cs)
  end.

(** The bytes of a piece after the tokenizer has gone over it. *)
Definition piece_left (u : piece) : list Z :=
  match u with
  | Word c run => map lower (c :: run)
  | _ => piece_bytes u
  end.

(** The tokens of a piece, in the order of insertion. *)
Definition piece_tokens (q : Z) (u : piece) : list (list Z) :=
  match u with
  | Other _ => []
  | Word c run =>
      match run with
      | [] => []
      | _ => [map lower (c :: run)]
      end
  | Chars _ cs =>
      match cs with
      | [] => []
      | [c] => [unigram c]
      | _ => run_tokens q cs
      end
  end.

(** A piece is maximal and within bounds: [post] is the text after it. *)
Definition piece_ok (u : piece) (post : list Z) : Prop :=
  match u with
  | Other b => b <> 0 /\ is_big5 b = false /\ is_alnum b = false
  | Word c run =>
      Forall (fun b => is_alnum b = true) (c :: run) /\
      (length run <= 30)%nat /\ word_end post
  | Chars lead cs =>
      (lead = [] \/ exists c, lead = [c] /\ symbol c) /\
      Forall ideograph cs /\ (0 < length (lead ++ cs))%nat /\ run_end post
  end.

Fixpoint pieces_ok (us : list piece) : Prop :=
  match us with
  | [] => True
  | u :: us' => piece_ok u (flat_map piece_bytes us') /\ pieces_ok us'
  end.

(** The groups of a traversal: the maximal blocks of consecutive entries
    that have the same first two bytes.  In [groups_from grp k t], [grp] is
    the block being collected and [k] its first two bytes. *)
Fixpoint groups_from (grp : list entry) (k : list Z) (t : tree)
  : list (list entry) :=
  match t with
  | [] => [grp]
  | e :: t' =>
      if bool_decide (lead2 e = k) then groups_from (grp ++ [e]) k t'
      else grp :: groups_from [e] (lead2 e) t'
  end.

Definition groups (t : tree) : list (list entry) :=
  match t with
  | [] => []
  | e :: t' => groups_from [e] (lead2 e) t'
  end.

(** The first two bytes a group shares. *)
Definition group_lead (grp : list entry) : list Z :=
  match grp with
  | e :: _ => lead2 e
  | [] => []
  end.

(** The invocation for an ASCII entry under the delimiter [d]: the token,
    and [d] followed by two blanks and the capped frequency. *)
Definition ascii_call (d : list Z) (e : entry) : call :=
  {| c_key := word e;
     c_val := Bytes (d ++ [0x20; 0x20; freq_cap e]);
     c_len := 7 |}.

(** The one invocation for a group: its first two bytes as key. *)
Definition group_invocation (d : list Z) (grp : list entry) : call :=
  group_call (group_lead grp) d grp.

(** * Lemmas on the embedding *)

(** ** Lemmas on outcomes *)

Lemma bind_Ok {A B} (a : A) (k : A -> outcome B) : Ok a ≫= k = k a.
Proof. done. Qed.

Lemma bind_Undef {A B} f (k : A -> outcome B) : Undef f ≫= k = Undef f.
Proof. done. Qed.

(** ** Array lemmas *)

Lemma write_lookup_lt bs : forall a i j, j < i -> write a i bs j = a j.
Proof.
  induction bs as [|b bs IH]; intros a i j Hj; simpl; [done|].
  rewrite IH by lia. apply fn_lookup_insert_ne. lia.
Qed.

Lemma write_lookup_ge bs : forall a i j,
  i + Z.of_nat (length bs) <= j -> write a i bs j = a j.
Proof.
  induction bs as [|b bs IH]; intros a i j Hj; simpl in *; [done|].
  rewrite IH by lia. apply fn_lookup_insert_ne. lia.
Qed.

Lemma write_lookup_in bs : forall a i (k : nat),
  (k < length bs)%nat -> write a i bs (i + Z.of_nat k) = nth k bs 0.
Proof.
  induction bs as [|b bs IH]; intros a i k Hk; simpl in *; [lia|].
  destruct k as [|k].
  - rewrite Z.add_0_r, write_lookup_lt by lia. apply fn_lookup_insert.
  - replace (i + Z.of_nat (S k)) with ((i + 1) + Z.of_nat k) by lia.
    apply IH. lia.
Qed.

(** Reading a string back: if the array holds [bs] from [i] on, followed by
    a NUL, the string read there is [c_str bs]. *)
Lemma c_string_read bs : forall a i n,
  (length bs < n)%nat ->
  (forall k : nat, (k < length bs)%nat -> a (i + Z.of_nat k) = nth k bs 0) ->
  a (i + Z.of_nat (length bs)) = 0 ->
  c_string a i n = Ok (c_str bs).
Proof.
  induction bs as [|b bs IH]; intros a i n Hn Hbs Hend; simpl in *.
  - destruct n as [|n]; [lia|]. simpl. rewrite Z.add_0_r in Hend.
    by rewrite Hend.
  - destruct n as [|n]; [lia|]. simpl.
    assert (a i = b) as Hb.
    { specialize (Hbs 0%nat). rewrite Z.add_0_r in Hbs. apply Hbs. lia. }
    rewrite Hb. destruct (b =? 0) eqn:Hz; [done|].
    rewrite (IH a (i + 1) n); [done|lia| |].
    + intros k Hk. specialize (Hbs (S k)).
      replace (i + 1 + Z.of_nat k) with (i + Z.of_nat (S k)) by lia.
      apply Hbs. lia.
    + replace (i + 1 + Z.of_nat (length bs)) with (i + Z.of_nat (S (length bs))) by lia.
      done.
Qed.

Lemma strncpy_bytes_length n : forall src, length (strncpy_bytes src n) = n.
Proof.
  induction n as [|n IH]; intros [|b src]; simpl; try done.
  - by rewrite repeat_length.
  - destruct (b =? 0); simpl; [by rewrite repeat_length|by rewrite IH].
Qed.

Lemma bytes_of_length a n : length (bytes_of a n) = n.
Proof. unfold bytes_of. by rewrite length_map, length_seq. Qed.

Lemma bytes_of_ext a a' n :
  (forall i, 0 <= i < Z.of_nat n -> a i = a' i) -> bytes_of a n = bytes_of a' n.
Proof.
  intros H. unfold bytes_of. apply map_ext_in. intros i Hi.
  apply in_seq in Hi. apply H. lia.
Qed.

Lemma bytes_of_S a n : bytes_of a (S n) = bytes_of a n ++ [a (Z.of_nat n)].
Proof. unfold bytes_of. by rewrite seq_S, map_app. Qed.


Lemma strncpy_lookup_ge a i src n j :
  i + Z.of_nat n <= j -> strncpy a i src n j = a j.
Proof.
  intros H. unfold strncpy. apply write_lookup_ge.
  by rewrite strncpy_bytes_length.
Qed.

Lemma strncpy_lookup_in a i src n (k : nat) :
  (k < n)%nat ->
  strncpy a i src n (i + Z.of_nat k) = nth k (strncpy_bytes src n) 0.
Proof.
  intros H. unfold strncpy. apply write_lookup_in.
  by rewrite strncpy_bytes_length.
Qed.

(** ** The tokens do not depend on the previous content of [key] *)

Lemma addentry_key_read g x :
  c_string (key g) 0 (Z.to_nat MAXKEY) = Ok x ->
  addentry_key g = Ok (set_wordtree (addentry x (wordtree g)) g).
Proof. intros H. unfold addentry_key. by rewrite H. Qed.

Lemma bigram_key s q g :
  key g 4 = 0 ->
  addentry_key (strncpy_key s q 4 g)
  = Ok (with_tok (strncpy (key g) 0 (drop q s) 4)
                 (addentry (bigram_tok s q) (wordtree g)) g).
Proof.
  intros H4. erewrite addentry_key_read; [done|].
  unfold strncpy_key, bigram_tok. simpl key.
  apply c_string_read.
  - rewrite strncpy_bytes_length. unfold MAXKEY. lia.
  - intros k Hk. rewrite strncpy_bytes_length in Hk.
    by apply (strncpy_lookup_in _ 0).
  - rewrite strncpy_bytes_length, strncpy_lookup_ge; [done|lia].
Qed.

Lemma single_key s p g :
  key g 4 = 0 ->
  exists k', k' 4 = 0 /\
    add_single s p g
    = Ok (with_tok k' (addentry (single_tok s (p - 2)) (wordtree g)) g).
Proof.
  intros H4.
  exists (strncpy (<[2:=0x21]> (<[3:=0x21]> (key g))) 0 (drop (p - 2) s) 2).
  split.
  - by rewrite strncpy_lookup_ge by lia.
  - unfold add_single, store_key. simpl.
    erewrite addentry_key_read; [reflexivity|].
    unfold strncpy_key, single_tok. simpl key.
    apply c_string_read.
    + rewrite length_app, strncpy_bytes_length. unfold MAXKEY. simpl. lia.
    + intros k Hk. rewrite length_app, strncpy_bytes_length in Hk. simpl in Hk.
      destruct (decide (k < 2)%nat) as [Hlt|Hge].
      * rewrite app_nth1 by (by rewrite strncpy_bytes_length).
        by apply (strncpy_lookup_in _ 0).
      * rewrite app_nth2; rewrite strncpy_bytes_length; [|lia].
        rewrite strncpy_lookup_ge by lia.
        assert (k = 2 \/ k = 3)%nat as [-> | ->] by lia; reflexivity.
    + rewrite length_app, strncpy_bytes_length. simpl.
      by rewrite strncpy_lookup_ge by lia.
Qed.

Lemma alnum_key s q n g :
  0 <= n < MAXKEY ->
  exists g1,
    store_key n 0 (strncpy_key s q (Z.to_nat n) g) = Ok g1 /\
    addentry_key g1
    = Ok (with_tok (<[n:=0]> (strncpy (key g) 0 (drop q s) (Z.to_nat n)))
                   (addentry (alnum_tok s q (Z.to_nat n)) (wordtree g)) g).
Proof.
  intros Hn. unfold store_key.
  destruct (Z.ltb_spec n MAXKEY) as [_|?]; [|lia].
  eexists. split; [reflexivity|].
  erewrite addentry_key_read; [reflexivity|].
  unfold alnum_tok. simpl key.
  apply c_string_read.
  - rewrite strncpy_bytes_length. unfold MAXKEY in *. lia.
  - intros k Hk. rewrite strncpy_bytes_length in Hk.
    rewrite fn_lookup_insert_ne by lia.
    by apply (strncpy_lookup_in _ 0).
  - rewrite strncpy_bytes_length, Z.add_0_l, Z2Nat.id by lia.
    apply fn_lookup_insert.
Qed.


Lemma bigram_loop_tokens fuel : forall s p g,
  key g 4 = 0 ->
  exists k', k' 4 = 0 /\
    bigram_loop fuel s p g
    = lift_tok k' g <$> bigram_loop_t fuel s p (wordtree g).
Proof.
  induction fuel as [|fuel IH]; intros s p g H4; simpl.
  - by exists (key g).
  - destruct (peek s (p + 2)) as [b|f]; simpl; [|by exists (key g)].
    destruct (is_big5word b).
    + rewrite bigram_key by done. simpl.
      destruct (IH s (p + 2)%nat
        (with_tok (strncpy (key g) 0 (drop (p + 2 - 2) s) 4)
           (addentry (bigram_tok s (p + 2 - 2)) (wordtree g)) g))
        as (k' & Hk' & ->).
      { simpl. by rewrite strncpy_lookup_ge by lia. }
      exists k'. split; [done|]. simpl.
      by destruct (bigram_loop_t _ _ _ _) as [[??]|].
    + exists (key g). split; [done|]. unfold lift_tok, with_tok. simpl.
      by destruct g.
Qed.

Lemma lift_tok_with_tok {A} k k1 t1 g (r : A * tree) :
  lift_tok k (with_tok k1 t1 g) r = lift_tok k g r.
Proof. done. Qed.

Lemma big5_branch_tokens s p g :
  exists k',
    big5_branch s p g
    = lift_tok k' g <$> big5_branch_t s p (query g) (wordtree g).
Proof.
  unfold big5_branch, big5_branch_t.
  destruct (peek s (p + 2)) as [b|f]; simpl; [|by exists (key g)].
  destruct (is_big5word b).
  - set (g1 := set_key (<[4:=0]> (key g)) g).
    assert (key g1 4 = 0) as H1 by apply fn_lookup_insert.
    destruct (peek s (p + 2 - 2)) as [b2|f]; simpl; [|by exists (key g)].
    assert (exists g2, key g2 4 = 0 /\ query g2 = query g /\
              (if is_big5word b2
               then addentry_key (strncpy_key s (p + 2 - 2) 4 g1) else Ok g1) = Ok g2 /\
              (forall k t, with_tok k t g2 = with_tok k t g) /\
              wordtree g2 = (if is_big5word b2
                             then addentry (bigram_tok s (p + 2 - 2)) (wordtree g)
                             else wordtree g))
      as (g2 & H2 & Hq & -> & Hw & Ht).
    { destruct (is_big5word b2).
      - rewrite bigram_key by done.
        exists (with_tok (strncpy (key g1) 0 (drop (p + 2 - 2) s) 4)
                  (addentry (bigram_tok s (p + 2 - 2)) (wordtree g1)) g1).
        split_and!; try done.
        simpl. by rewrite strncpy_lookup_ge by lia.
      - by exists g1. }
    simpl. destruct (bigram_loop_tokens (length s) s (p + 2) g2 H2)
      as (k3 & H3 & ->).
    rewrite Ht.
    destruct (bigram_loop_t _ _ _ _) as [[p' t']|f]; simpl; [|by exists (key g)].
    unfold lift_tok at 1. simpl. rewrite Hw.
    set (g3 := with_tok k3 t' g).
    destruct (single_key s p' g3 H3) as (k4 & _ & H4).
    rewrite Hq, H4. simpl.
    destruct (query g =? 0); [by exists k4|].
    destruct (peek s (p' - 4)) as [b4|f]; simpl; [|by exists (key g)].
    destruct (is_big5word b4); [by exists k3|by exists k4].
  - destruct (peek s (p + 2 - 2)) as [b2|f]; simpl; [|by exists (key g)].
    destruct (is_big5word b2).
    + set (g1 := set_key (<[4:=0]> (key g)) g).
      assert (key g1 4 = 0) as H1 by apply fn_lookup_insert.
      destruct (single_key s (p + 2) g1 H1) as (k4 & _ & ->). simpl.
      by exists k4.
    + exists (key g). unfold lift_tok, with_tok. simpl. by destruct g.
Qed.

Lemma alnum_branch_tokens s p g :
  exists k',
    alnum_branch s p g = lift_tok k' g <$> alnum_branch_t s p (wordtree g).
Proof.
  unfold alnum_branch, alnum_branch_t.
  destruct (alnum_loop (length s) s p 0) as [[[s' p'] xlen]|f]; simpl;
    [|by exists (key g)].
  destruct (Z.ltb_spec 1 xlen) as [Hx|Hx].
  - set (n := if MAXKEY <? xlen then MAXKEY else xlen).
    assert (0 <= n) as Hn0.
    { unfold n, MAXKEY. destruct (32 <? xlen); lia. }
    destruct (Z.ltb_spec n MAXKEY) as [Hn|Hn].
    + destruct (alnum_key s' p n g) as (g1 & -> & H1); [lia|]. simpl.
      rewrite H1. simpl. by eexists.
    + unfold store_key.
      destruct (Z.ltb_spec n MAXKEY) as [?|_]; [lia|]. simpl.
      by exists (key g).
  - exists (key g). unfold lift_tok, with_tok. simpl. by destruct g.
Qed.

(** [scan] computes the table [scan_t] computes, whatever [key] held. *)
Lemma scan_tokens fuel : forall s p g,
  exists k',
    scan fuel s p g = lift_tok k' g <$> scan_t fuel s p (query g) (wordtree g).
Proof.
  induction fuel as [|fuel IH]; intros s p g; simpl; [by exists (key g)|].
  destruct (peek s p) as [b|f]; simpl; [|by exists (key g)].
  destruct (b =? 0).
  { exists (key g). unfold lift_tok, with_tok. simpl. by destruct g. }
  destruct (is_big5 b).
  - destruct (big5_branch_tokens s p g) as (k1 & ->).
    destruct (big5_branch_t _ _ _ _) as [[p' t']|f]; simpl; [|by exists (key g)].
    destruct (IH s p' (with_tok k1 t' g)) as (k2 & ->). by exists k2.
  - destruct (is_alnum b).
    + destruct (alnum_branch_tokens s p g) as (k1 & ->).
      destruct (alnum_branch_t _ _ _) as [[[s' p'] t']|f]; simpl;
        [|by exists (key g)].
      destruct (IH s' p' (with_tok k1 t' g)) as (k2 & ->). by exists k2.
    + apply IH.
Qed.

Lemma extract_words_tokens mem g :
  exists k',
    extract_words mem g = lift_tok k' g <$> tokenize (query g) mem.
Proof.
  unfold extract_words, tokenize.
  destruct (scan_tokens (S (length (c_str mem))) (c_str mem) 0
              (set_wordtree tree_init g)) as (k' & ->).
  by exists k'.
Qed.

(** ** The delimited emitter on arrays and on lists *)

Lemma store_val_push i b g blob :
  i = Z.of_nat (length blob) ->
  bytes_of (val g) (length blob) = blob ->
  refines (fun g' blob' =>
             g' = set_val (<[i:=b]> (val g)) g /\
             blob' = blob ++ [b] /\
             bytes_of (val g') (length blob') = blob')
          (store_val i b g) (push b blob).
Proof.
  intros -> Hb. unfold store_val, push.
  destruct (Z.of_nat (length blob) <? MAXVAL); simpl; [|done].
  split_and!; try done.
  rewrite length_app. simpl. rewrite Nat.add_1_r, bytes_of_S.
  rewrite fn_lookup_insert. f_equal.
  transitivity (bytes_of (val g) (length blob)); [|done].
  apply bytes_of_ext. intros j Hj.
  apply fn_lookup_insert_ne. lia.
Qed.

Lemma append_group_refines en g blob :
  valp g + 1 = Z.of_nat (length blob) ->
  bytes_of (val g) (length blob) = blob ->
  refines (fun g' blob' =>
             key g' = key g /\ delim g' = delim g /\ query g' = query g /\
             valp g' + 1 = Z.of_nat (length blob') /\
             bytes_of (val g') (length blob') = blob')
          (append_group en g) (append_group_d en blob).
Proof.
  intros Hv Hb. unfold append_group, append_group_d.
  destruct (peek (word en) 2) as [w2|]; simpl; [|done].
  destruct (peek (word en) 3) as [w3|]; simpl; [|done].
  pose proof (store_val_push (valp g + 1) w2 g blob Hv Hb) as H1.
  destruct (store_val (valp g + 1) w2 g) as [g1|], (push w2 blob) as [b1|];
    simpl in *; try done.
  destruct H1 as (-> & -> & H1).
  assert (valp g + 1 + 1 = Z.of_nat (length (blob ++ [w2]))) as Hv2
    by (rewrite length_app; simpl; lia).
  pose proof (store_val_push _ w3 _ _ Hv2 H1) as H2.
  destruct (store_val (valp g + 1 + 1) w3 _) as [g2|], (push w3 _) as [b2|];
    simpl in *; try done.
  destruct H2 as (-> & -> & H2).
  assert (valp g + 3 = Z.of_nat (length ((blob ++ [w2]) ++ [w3]))) as Hv3
    by (rewrite !length_app; simpl; lia).
  pose proof (store_val_push _ (freq_cap en)
                (set_valp (valp g + 3)
                   (set_val (<[valp g + 1 + 1:=w3]> (<[valp g + 1:=w2]> (val g))) g))
                _ Hv3 H2) as H3.
  simpl in *.
  destruct (store_val (valp g + 3) _ _) as [g3|], (push (freq_cap en) _) as [b3|];
    simpl in *; try done.
  destruct H3 as (-> & -> & H3). simpl. split_and!; try done.
  rewrite !length_app. simpl. lia.
Qed.

Lemma open_group_refines en g d :
  d = [delim g 0; delim g 1; delim g 2; delim g 3] ->
  refines (fun g' kb =>
             c_string (key g') 0 (Z.to_nat MAXKEY) = Ok kb.1 /\
             valp g' + 1 = Z.of_nat (length kb.2) /\
             bytes_of (val g') (length kb.2) = kb.2 /\
             delim g' = delim g /\ query g' = query g)
          (open_group en g) (open_group_d d en).
Proof.
  intros ->. unfold open_group, open_group_d.
  destruct (peek (word en) 0) as [w0|]; simpl; [|done].
  destruct (peek (word en) 1) as [w1|]; simpl; [|done].
  destruct (peek (word en) 2) as [w2|]; simpl; [|done].
  destruct (peek (word en) 3) as [w3|]; simpl; [|done].
  split_and!; try done.
  unfold insert, fn_insert. simpl.
  by destruct (w0 =? 0), (w1 =? 0).
Qed.

Lemma refines_bind {A B A' B'} (R : A -> A' -> Prop) (S : B -> B' -> Prop)
    (m : outcome A) (m' : outcome A') k k' :
  refines R m m' ->
  (forall a a', R a a' -> refines S (k a) (k' a')) ->
  refines S (m ≫= k) (m' ≫= k').
Proof. destruct m, m'; simpl; try done. intros H Hk. by apply Hk. Qed.

Lemma refines_refl {A} (m : outcome A) : refines eq m m.
Proof. by destruct m. Qed.

Lemma refines_impl {A B} (R R' : A -> B -> Prop) m m' :
  refines R m m' -> (forall a b, R a b -> R' a b) -> refines R' m m'.
Proof. destruct m, m'; simpl; try done. intros H HR. by apply HR. Qed.

Lemma flush_key_abs g k blob :
  c_string (key g) 0 (Z.to_nat MAXKEY) = Ok k ->
  valp g + 1 = Z.of_nat (length blob) ->
  bytes_of (val g) (length blob) = blob ->
  flush_key g = Ok (record_of k blob).
Proof.
  intros Hk Hv Hb. unfold flush_key, record_of. rewrite Hk. simpl.
  by rewrite Hv, Nat2Z.id, Hb.
Qed.

(** [cb_delim] and [cb_delim_d] make the same invocations, fail alike, and
    keep the two states in step. *)
Lemma cb_delim_refines P d en g a :
  abs_delim d g a ->
  refines (fun r r' => r.1 = r'.1 /\ abs_delim d r.2 r'.2 /\
                       query r.2 = query g)
          (cb_delim P en g) (cb_delim_d P d en a).
Proof.
  intros (Hl & Hd & Ha). unfold cb_delim, cb_delim_d.
  eapply refines_bind; [apply refines_refl|]. intros c ? <-.
  destruct (is_big5_char P c).
  - apply (refines_bind (group_rel g)).
    + rewrite Hl. destruct (d_last a) as [l|].
      * destruct Ha as (Hk & Hv & Hb); [done|].
        eapply refines_bind; [apply refines_refl|]. intros same ? <-.
        destruct same.
        -- apply (refines_bind _ _ _ _ _ _ (append_group_refines en g _ Hv Hb)).
           intros g' blob' (Hk' & Hd' & Hq' & Hv' & Hb').
           repeat split; simpl; try done. by rewrite Hk'.
        -- rewrite (flush_key_abs g _ _ Hk Hv Hb).
           apply (refines_bind _ _ _ _ _ _ (open_group_refines en g d Hd)).
           intros g' [k blob] (? & ? & ? & ? & ?). by repeat split.
      * apply (refines_bind _ _ _ _ _ _ (open_group_refines en g d Hd)).
        intros g' [k blob] (? & ? & ? & ? & ?). by repeat split.
    + intros [out g'] [[out' k] blob] (Ho & Hk & Hv & Hb & Hd' & Hq').
      simpl in *. subst out'. repeat split; simpl; try done.
      by rewrite Hd'.
  - simpl. repeat split; simpl; try done.
    + unfold record_of. subst d. reflexivity.
    + destruct (Ha H) as (Hk & _ & _). done.
    + subst d. reflexivity.
    + subst d. reflexivity.
Qed.

Lemma trav_delim_refines P d t : forall g a,
  abs_delim d g a ->
  refines (fun r r' => r.1 = r'.1 /\ abs_delim d r.2 r'.2 /\
                       query r.2 = query g)
          (tree_trav (cb_delim P) t g) (trav_d P d t a).
Proof.
  induction t as [|en t IH]; intros g a Habs; simpl; [done|].
  apply (refines_bind _ _ _ _ _ _ (cb_delim_refines P d en g a Habs)).
  intros [out g1] [out' a1] (Ho & Ha1 & Hq1). simpl in *. subst out'.
  apply (refines_bind _ _ _ _ _ _ (IH g1 a1 Ha1)).
  intros [out2 g2] [out2' a2] (Ho2 & Ha2 & Hq2). simpl in *. subst out2'.
  split; [done|]. split; [done|]. congruence.
Qed.

Lemma final_flush_abs d g a :
  abs_delim d g a -> final_flush g = final_flush_d a.
Proof.
  intros (Hl & _ & Ha). unfold final_flush, final_flush_d. rewrite Hl.
  destruct (d_last a) as [l|]; [|done].
  destruct Ha as (_ & Hv & Hb); [done|].
  unfold record_of. by rewrite Hv, Nat2Z.id, Hb.
Qed.

Lemma memcpy_delim_seed seed g :
  refines (fun g' d =>
             d = [delim g' 0; delim g' 1; delim g' 2; delim g' 3] /\
             g' = set_delim (delim g') g)
          (memcpy_delim seed g) (seed_bytes seed).
Proof.
  unfold memcpy_delim, seed_bytes.
  destruct seed as [|d0 [|d1 [|d2 [|d3 ?]]]]; simpl; done.
Qed.

Lemma walk_delim_refines P d t g :
  d = [delim g 0; delim g 1; delim g 2; delim g 3] ->
  refines (fun r out => r.1 = out /\ query r.2 = query g /\
                        d = [delim r.2 0; delim r.2 1; delim r.2 2; delim r.2 3])
          (walk_delim P t g) (emit_delim P d t).
Proof.
  intros Hd. unfold walk_delim, emit_delim.
  assert (abs_delim d (set_last None g) closed) as Habs.
  { split; [done|]. split; [done|]. intros [? Hs]. discriminate Hs. }
  apply (refines_bind _ _ _ _ _ _ (trav_delim_refines P d t _ _ Habs)).
  intros [out g2] [out' a2] (Ho & Ha2 & Hq2). simpl in *. subst out'.
  rewrite (final_flush_abs d g2 a2 Ha2). split; [done|]. split; [done|].
  by destruct Ha2 as (_ & ? & _).
Qed.

(** What a [parse_delim] call that returns has done. *)
Lemma parse_delim_inv P mem seed g r :
  parse_delim P mem seed g = Ok r ->
  exists d t,
    tokenize (query g) mem = Ok (buffer r, t) /\
    seed_bytes seed = Ok d /\
    emit_delim P d t = Ok (calls r) /\
    query (after r) = query g /\
    d = [delim (after r) 0; delim (after r) 1; delim (after r) 2;
         delim (after r) 3].
Proof.
  unfold parse_delim.
  destruct (extract_words_tokens mem g) as (k' & ->).
  destruct (tokenize (query g) mem) as [[s t]|f]; simpl; [|done].
  pose proof (memcpy_delim_seed seed (with_tok k' t g)) as Hm.
  destruct (memcpy_delim seed _) as [g1|], (seed_bytes seed) as [d|];
    simpl in *; try done.
  destruct Hm as [Hd Hg1].
  assert (wordtree g1 = t) as -> by (by rewrite Hg1).
  assert (query g1 = query g) as Hq1 by (by rewrite Hg1).
  pose proof (walk_delim_refines P d t g1 Hd) as Hw.
  destruct (walk_delim P t g1) as [[out g2]|],
    (emit_delim P d t) as [out'|] eqn:He; simpl in *; try done.
  destruct Hw as (-> & Hq2 & Hd2). intros [= <-]. simpl.
  exists d, t. split_and!; simpl; [done|done|done|congruence|done].
Qed.

(** The invocations [parse_delim] makes are those [emit_delim] lists for the
    table [tokenize] builds: they depend on the input, the seed and the
    [query] flag, and on nothing else of the globals.  The run leaves
    [query] as it found it. *)
Lemma parse_delim_refines P mem seed g :
  refines (fun r out => calls r = out /\ query (after r) = query g)
    (parse_delim P mem seed g)
    ('(_, t) ← tokenize (query g) mem;
     d ← seed_bytes seed;
     emit_delim P d t).
Proof.
  unfold parse_delim.
  destruct (extract_words_tokens mem g) as (k' & ->).
  destruct (tokenize (query g) mem) as [[s t]|f]; simpl; [|done].
  pose proof (memcpy_delim_seed seed (with_tok k' t g)) as Hm.
  destruct (memcpy_delim seed _) as [g1|], (seed_bytes seed) as [d|];
    simpl in *; try done.
  destruct Hm as [Hd Hg1].
  assert (wordtree g1 = t) as -> by (by rewrite Hg1).
  assert (query g1 = query g) as Hq1 by (by rewrite Hg1).
  pose proof (walk_delim_refines P d t g1 Hd) as Hw.
  destruct (walk_delim P t g1) as [[out g2]|], (emit_delim P d t) as [out'|];
    simpl in *; try done.
  destruct Hw as (-> & Hq2 & _). split; [done|]. congruence.
Qed.

(** ** The pair and word emitters *)

Lemma cb_pair_refines P en g :
  refines (fun r out => r.1 = out /\ query r.2 = query g)
          (cb_pair P en g) (pair_calls P en).
Proof.
  unfold cb_pair, pair_calls.
  eapply refines_bind; [apply refines_refl|]. intros c ? <-.
  destruct (is_big5_char P c); [|done].
  eapply refines_bind; [apply refines_refl|]. intros w1 ? <-.
  simpl. unfold insert, fn_insert. simpl.
  destruct (peek (word en) 2); simpl;
    by destruct (c =? 0), (w1 =? 0).
Qed.

(** [strcat] onto a token in the block [strdup] made for it stores past
    the block. *)
Lemma strcat_blanks_strdup w :
  strcat_blanks w (strdup_size w) = Undef WritePastWord.
Proof.
  unfold strcat_blanks, strdup_size.
  destruct (Z.ltb_spec (strlen w + 2) (strlen w + 1)) as [?|_]; [lia|done].
Qed.

Lemma cb_word_refines P en g :
  refines (fun r out => r.1 = out /\ query r.2 = query g)
          (cb_word P en g) (word_calls P en).
Proof.
  unfold cb_word, word_calls.
  eapply refines_bind; [apply refines_refl|]. intros c ? <-.
  destruct (is_big5_char P c); [done|].
  rewrite strcat_blanks_strdup. by destruct (args_right_to_left P).
Qed.

Lemma trav_calls_refines visit f :
  (forall en g, refines (fun r out => r.1 = out /\ query r.2 = query g)
                        (visit en g) (f en)) ->
  forall t g, refines (fun r out => r.1 = out /\ query r.2 = query g)
                      (tree_trav visit t g) (trav_calls f t).
Proof.
  intros Hv. induction t as [|en t IH]; intros g; simpl; [done|].
  apply (refines_bind _ _ _ _ _ _ (Hv en g)).
  intros [out g1] out' [Ho Hq]. simpl in *. subst out'.
  apply (refines_bind _ _ _ _ _ _ (IH g1)).
  intros [out2 g2] out2' [Ho2 Hq2]. simpl in *. subst out2'.
  split; [done|]. congruence.
Qed.

Lemma parse_pair_refines P mem g :
  refines (fun r out => calls r = out /\ query (after r) = query g)
    (parse_pair P mem g)
    ('(_, t) ← tokenize (query g) mem; trav_calls (pair_calls P) t).
Proof.
  unfold parse_pair.
  destruct (extract_words_tokens mem g) as (k' & ->).
  destruct (tokenize (query g) mem) as [[s t]|f]; simpl; [|done].
  pose proof (trav_calls_refines _ _ (cb_pair_refines P) t (with_tok k' t g)) as H.
  destruct (tree_trav _ _ _) as [[out g2]|], (trav_calls _ _) as [out'|];
    simpl in *; done.
Qed.

Lemma parse_word_refines P mem g :
  refines (fun r out => calls r = out /\ query (after r) = query g)
    (parse_word P mem g)
    ('(_, t) ← tokenize (query g) mem; trav_calls (word_calls P) t).
Proof.
  unfold parse_word.
  destruct (extract_words_tokens mem g) as (k' & ->).
  destruct (tokenize (query g) mem) as [[s t]|f]; simpl; [|done].
  pose proof (trav_calls_refines _ _ (cb_word_refines P) t (with_tok k' t g)) as H.
  destruct (tree_trav _ _ _) as [[out g2]|], (trav_calls _ _) as [out'|];
    simpl in *; done.
Qed.

(** * Properties of the specification *)

Lemma peek_0 w : peek w 0 = Ok (hd 0 w).
Proof. by destruct w. Qed.

Lemma refines_ok {A B} (R : A -> B -> Prop) m m' a :
  refines R m m' -> m = Ok a -> exists b, m' = Ok b /\ R a b.
Proof. intros H ->. destruct m'; simpl in H; [eauto|done]. Qed.

Lemma refines_ok_r {A B} (R : A -> B -> Prop) m m' b :
  refines R m m' -> m' = Ok b -> exists a, m = Ok a /\ R a b.
Proof. intros H ->. destruct m; simpl in H; [eauto|done]. Qed.

(** ** C4: the classifier [is_alnum] *)

(** The bytes [is_alnum] accepts: the two letter ranges, and [0x31 .. 0x3a],
    which is ['1' .. '9'] and [':'], without ['0']. *)
Lemma is_alnum_range b :
  is_alnum b = true <->
  (0x61 <= b <= 0x7a) \/ (0x41 <= b <= 0x5a) \/ (0x31 <= b <= 0x3a).
Proof.
  unfold is_alnum.
  rewrite !orb_true_iff, !andb_true_iff, !Z.ltb_lt. lia.
Qed.

(** C4.  The specification has [is_alnum] hold exactly for ['A'-'Z'],
    ['a'-'z'] and ['0'-'9'].  The third range of the macro is
    [c > 0x30 && c < 0x3b]: the digit ['0'] (0x30) is rejected and the colon
    (0x3a) is accepted. *)
Theorem is_alnum_zero_and_colon :
  is_alnum 0x30 = false /\ is_alnum 0x3a = true.
Proof. split; reflexivity. Qed.

(** What this does to tokens: in ["x10 12:30"] the ['0'] ends the first word
    and the [':'] joins the second. *)
Example is_alnum_tokens :
  tokenize 0 [0x78; 0x31; 0x30; 0x20; 0x31; 0x32; 0x3a; 0x33; 0x30]
  = Ok ([0x78; 0x31; 0x30; 0x20; 0x31; 0x32; 0x3a; 0x33; 0x30],
        [ {| word := [0x31; 0x32; 0x3a; 0x33]; freq := 1 |};
          {| word := [0x78; 0x31]; freq := 1 |} ]).
Proof. reflexivity. Qed.

(** ** C5: a lead byte right before the terminator *)

(** C5.  The specification has a lead byte that is the last byte before
    the NUL skipped, and nothing past the NUL read.  In the source the branch for
    a lead byte starts with [p += 2], which steps over the NUL, and reads
    [*p] there: whenever the loop reaches such a byte, the next read is one
    past the terminator. *)
Theorem lead_byte_before_nul_reads_past (fuel : nat) (s : list Z) (p : nat)
    (g : globals) (b : Z) :
  s !! p = Some b -> is_big5 b = true -> S p = length s ->
  scan (S fuel) s p g = Undef ReadPastEnd.
Proof.
  intros Hp Hb Hlen. simpl. unfold peek at 1. rewrite Hp. simpl.
  unfold is_big5 in Hb. apply Z.ltb_lt in Hb.
  destruct (Z.eqb_spec b 0) as [?|_]; [lia|].
  unfold is_big5. destruct (Z.ltb_spec 0xa0 b) as [_|?]; [|lia].
  unfold big5_branch, peek.
  rewrite (lookup_ge_None_2 s (p + 2)) by lia.
  destruct (decide (p + 2 = length s)%nat); [lia|done].
Qed.

Lemma lead_byte_before_nul_witness :
  extract_words [0xa4] initial_globals = Undef ReadPastEnd.
Proof.
  apply (lead_byte_before_nul_reads_past 1 [0xa4] 0%nat
           (set_wordtree tree_init initial_globals) 0xa4); reflexivity.
Defined.

(** The same after ordinary text. *)
Example lead_byte_after_text g :
  extract_words [0x68; 0x69; 0x20; 0xa4] g = Undef ReadPastEnd.
Proof.
  destruct (extract_words_tokens [0x68; 0x69; 0x20; 0xa4] g) as (k & ->).
  reflexivity.
Qed.

(** ** C8: the word emitter *)

Lemma cb_word_big5 P en g :
  is_big5_char P (hd 0 (word en)) = true ->
  cb_word P en g
  = Ok ([{| c_key := word en; c_val := Cast 4; c_len := freq_cap en |}], g).
Proof. intros H. unfold cb_word. rewrite peek_0. simpl. by rewrite H. Qed.

Lemma cb_word_ascii P en g :
  is_big5_char P (hd 0 (word en)) = false ->
  cb_word P en g = Undef WritePastWord.
Proof.
  intros H. unfold cb_word. rewrite peek_0, bind_Ok, H, strcat_blanks_strdup.
  by destruct (args_right_to_left P).
Qed.

(** The traversal of [parse_word] stops at the first ASCII entry. *)
Lemma tree_trav_word_ascii P t : forall g e,
  e ∈ t -> is_big5_char P (hd 0 (word e)) = false ->
  tree_trav (cb_word P) t g = Undef WritePastWord.
Proof.
  induction t as [|e' t IH]; intros g e Hin He.
  - by apply elem_of_nil in Hin.
  - change (tree_trav (cb_word P) (e' :: t) g)
      with ('(out, g1) ← cb_word P e' g;
            '(out', g2) ← tree_trav (cb_word P) t g1; Ok (out ++ out', g2)).
    destruct (is_big5_char P (hd 0 (word e'))) eqn:He'.
    + rewrite cb_word_big5, bind_Ok by done.
      apply elem_of_cons in Hin as [->|Hin]; [congruence|].
      by rewrite (IH g e).
    + by rewrite cb_word_ascii.
Qed.

(** C8.  For a CJK entry the second argument is 4, as the claim says.  For
    an ASCII entry the call never takes place: [strcat(en->word, "  ")]
    appends two blanks and a NUL to the token inside the block [strdup]
    allocated for it, which has room for the token and its NUL only.  The
    store is past the block whatever the platform and whatever the token;
    no padded token and no length [L + 2] is handed to [cb].  So
    [parse_word] has no defined behaviour on a text that holds an ASCII
    token. *)
Theorem cb_word_ascii_writes_past_block (P : platform) (en : entry)
    (g : globals) :
  (is_big5_char P (hd 0 (word en)) = true ->
   cb_word P en g
   = Ok ([{| c_key := word en; c_val := Cast 4; c_len := freq_cap en |}], g)) /\
  (is_big5_char P (hd 0 (word en)) = false ->
   cb_word P en g = Undef WritePastWord) /\
  (forall mem s g1,
     extract_words mem g = Ok (s, g1) -> en ∈ wordtree g1 ->
     is_big5_char P (hd 0 (word en)) = false ->
     parse_word P mem g = Undef WritePastWord).
Proof.
  split_and!.
  - apply cb_word_big5.
  - apply cb_word_ascii.
  - intros mem s g1 H Hin He. unfold parse_word. rewrite H, bind_Ok.
    by rewrite (tree_trav_word_ascii P (wordtree g1) g1 en).
Qed.

Lemma cb_word_ascii_witness :
  cb_word gcc_like {| word := [0xa4; 0x40; 0xa4; 0x41]; freq := 1 |}
          initial_globals
  = Ok ([{| c_key := [0xa4; 0x40; 0xa4; 0x41]; c_val := Cast 4; c_len := 1 |}],
        initial_globals) /\
  cb_word gcc_like {| word := [0x68; 0x69]; freq := 1 |} initial_globals
  = Undef WritePastWord /\
  cb_word {| plain_char_signed := false; args_right_to_left := false |}
          {| word := [0x68; 0x69]; freq := 1 |} initial_globals
  = Undef WritePastWord /\
  parse_word gcc_like sample_text initial_globals = Undef WritePastWord.
Proof.
  split_and!.
  - apply (cb_word_ascii_writes_past_block gcc_like
             {| word := [0xa4; 0x40; 0xa4; 0x41]; freq := 1 |} initial_globals).
    reflexivity.
  - apply (cb_word_ascii_writes_past_block gcc_like
             {| word := [0x68; 0x69]; freq := 1 |} initial_globals).
    reflexivity.
  - apply (cb_word_ascii_writes_past_block
             {| plain_char_signed := false; args_right_to_left := false |}
             {| word := [0x68; 0x69]; freq := 1 |} initial_globals).
    reflexivity.
  - destruct (extract_words sample_text initial_globals) as [[s g1]|f] eqn:E;
      [|vm_compute in E; discriminate E].
    destruct (cb_word_ascii_writes_past_block gcc_like
                {| word := [0x68; 0x69]; freq := 2 |} initial_globals)
      as (_ & _ & H).
    apply (H sample_text s g1 E); [|reflexivity].
    destruct (extract_words_tokens sample_text initial_globals) as (k' & Ek).
    rewrite Ek in E. vm_compute in E. injection E as _ <-.
    apply elem_of_cons. by left.
Defined.

(** ** C9: running a driver twice *)

(** C9.  If a driver returns, running it again on the same input, with the
    same seed, from the globals the first run left behind, returns too and
    makes the same invocations of [cb], in the same order.  (A run that does
    not return has no defined behaviour in C; see C5, C6 and, for
    [parse_word] on a table with an ASCII entry, C8.) *)
Theorem parse_twice_same_calls (P : platform) (mem seed : list Z) (g : globals) :
  (forall r1, parse_delim P mem seed g = Ok r1 ->
     exists r2, parse_delim P mem seed (after r1) = Ok r2 /\ calls r2 = calls r1) /\
  (forall r1, parse_pair P mem g = Ok r1 ->
     exists r2, parse_pair P mem (after r1) = Ok r2 /\ calls r2 = calls r1) /\
  (forall r1, parse_word P mem g = Ok r1 ->
     exists r2, parse_word P mem (after r1) = Ok r2 /\ calls r2 = calls r1).
Proof.
  split_and!; intros r1 H1.
  - destruct (refines_ok _ _ _ _ (parse_delim_refines P mem seed g) H1)
      as (out & Hout & <- & Hq).
    pose proof (parse_delim_refines P mem seed (after r1)) as H2.
    rewrite Hq in H2.
    destruct (refines_ok_r _ _ _ _ H2 Hout) as (r2 & Hr2 & ? & _). eauto.
  - destruct (refines_ok _ _ _ _ (parse_pair_refines P mem g) H1)
      as (out & Hout & <- & Hq).
    pose proof (parse_pair_refines P mem (after r1)) as H2.
    rewrite Hq in H2.
    destruct (refines_ok_r _ _ _ _ H2 Hout) as (r2 & Hr2 & ? & _). eauto.
  - destruct (refines_ok _ _ _ _ (parse_word_refines P mem g) H1)
      as (out & Hout & <- & Hq).
    pose proof (parse_word_refines P mem (after r1)) as H2.
    rewrite Hq in H2.
    destruct (refines_ok_r _ _ _ _ H2 Hout) as (r2 & Hr2 & ? & _). eauto.
Qed.

Lemma parse_twice_witness :
  (exists r1 r2,
     parse_delim gcc_like sample_text [1; 2; 3; 4] initial_globals = Ok r1 /\
     parse_delim gcc_like sample_text [1; 2; 3; 4] (after r1) = Ok r2 /\
     calls r2 = calls r1) /\
  (exists r1 r2,
     parse_pair gcc_like sample_text initial_globals = Ok r1 /\
     parse_pair gcc_like sample_text (after r1) = Ok r2 /\
     calls r2 = calls r1) /\
  (exists r1 r2,
     parse_word gcc_like cjk_text initial_globals = Ok r1 /\
     parse_word gcc_like cjk_text (after r1) = Ok r2 /\
     calls r2 = calls r1).
Proof.
  destruct (parse_twice_same_calls gcc_like sample_text [1; 2; 3; 4]
              initial_globals) as (Hd & Hp & _).
  destruct (parse_twice_same_calls gcc_like cjk_text [1; 2; 3; 4]
              initial_globals) as (_ & _ & Hw).
  split; [|split].
  - destruct (parse_delim gcc_like sample_text [1; 2; 3; 4] initial_globals)
      as [r1|f] eqn:E; [|vm_compute in E; discriminate E].
    destruct (Hd r1 eq_refl) as (r2 & H2 & Hc).
    exists r1, r2. split; [reflexivity|]. split; [exact H2|exact Hc].
  - destruct (parse_pair gcc_like sample_text initial_globals)
      as [r1|f] eqn:E; [|vm_compute in E; discriminate E].
    destruct (Hp r1 eq_refl) as (r2 & H2 & Hc).
    exists r1, r2. split; [reflexivity|]. split; [exact H2|exact Hc].
  - destruct (parse_word gcc_like cjk_text initial_globals)
      as [r1|f] eqn:E; [|vm_compute in E; discriminate E].
    destruct (Hw r1 eq_refl) as (r2 & H2 & Hc).
    exists r1, r2. split; [reflexivity|]. split; [exact H2|exact Hc].
Defined.

(** ** C7: what [parse_delim] sets *)

(** C7, as amended.  [parse_delim] copies the four seed bytes into [delim]
    before the traversal: the invocations are those of the delimited emitter
    run with these bytes over the table, whatever [delim] held.  It has no
    input for the query flag: [query] is a global the driver never writes;
    the tokenizer reads it as the caller left it. *)
Theorem parse_delim_sets_delimiter_only (P : platform) (mem seed : list Z)
    (g : globals) (r : result) :
  parse_delim P mem seed g = Ok r ->
  query (after r) = query g /\
  exists d t,
    seed_bytes seed = Ok d /\
    [delim (after r) 0; delim (after r) 1; delim (after r) 2; delim (after r) 3]
      = d /\
    tokenize (query g) mem = Ok (buffer r, t) /\
    emit_delim P d t = Ok (calls r).
Proof.
  intros H. destruct (parse_delim_inv P mem seed g r H)
    as (d & t & Ht & Hs & He & Hq & Hd).
  split; [done|]. exists d, t. by split_and!.
Qed.

Lemma parse_delim_sets_delimiter_witness :
  exists r,
    parse_delim gcc_like sample_text [1; 2; 3; 4] initial_globals = Ok r /\
    query (after r) = 0 /\
    exists d t,
      seed_bytes [1; 2; 3; 4] = Ok d /\
      [delim (after r) 0; delim (after r) 1; delim (after r) 2;
       delim (after r) 3] = d /\
      tokenize 0 sample_text = Ok (buffer r, t) /\
      emit_delim gcc_like d t = Ok (calls r).
Proof.
  destruct (parse_delim gcc_like sample_text [1; 2; 3; 4] initial_globals)
    as [r|f] eqn:E; [|vm_compute in E; discriminate E].
  exists r. split; [reflexivity|].
  exact (parse_delim_sets_delimiter_only gcc_like sample_text [1; 2; 3; 4]
           initial_globals r E).
Defined.

(** C7, as stated, fails: two calls with the same arguments (two ideographs,
    seed 1 2 3 4) behave differently according to the global [query], and
    each leaves the flag as it found it. *)
Lemma parse_delim_query_is_no_input :
  observe <$> parse_delim gcc_like [0xa4; 0x40; 0xa4; 0x41] [1; 2; 3; 4]
                initial_globals
  = Ok ([ {| c_key := [0xa4; 0x40];
             c_val := Bytes [1; 2; 3; 4; 0xa4; 0x41; 1]; c_len := 7 |};
          {| c_key := [0xa4; 0x41];
             c_val := Bytes [1; 2; 3; 4; 0x21; 0x21; 1]; c_len := 7 |} ], 0)
  /\
  observe <$> parse_delim gcc_like [0xa4; 0x40; 0xa4; 0x41] [1; 2; 3; 4]
                (set_query 1 initial_globals)
  = Ok ([ {| c_key := [0xa4; 0x40];
             c_val := Bytes [1; 2; 3; 4; 0xa4; 0x41; 1]; c_len := 7 |} ], 1).
Proof. split; reflexivity. Qed.

(** ** C3: frequencies *)

Lemma strcmp_eq a : forall b, strcmp a b = Eq <-> a = b.
Proof.
  induction a as [|x a IH]; intros [|y b]; simpl; try done.
  destruct (Z.compare_spec x y) as [->|?|?].
  - rewrite IH. split; [by intros ->|by intros [= ->]].
  - split; [done|]. intros [= ? ?]. lia.
  - split; [done|]. intros [= ? ?]. lia.
Qed.

Lemma wordcmp_eq e x : wordcmp e {| word := x; freq := 0 |} = Eq <-> word e = x.
Proof. apply strcmp_eq. Qed.

Lemma lookup_word_cons e t x :
  lookup_word (e :: t) x = if decide (word e = x) then Some e else lookup_word t x.
Proof.
  unfold lookup_word. simpl. pose proof (wordcmp_eq e x) as H.
  destruct (decide (word e = x)) as [Heq|Hne].
  - by rewrite (proj2 H Heq).
  - destruct (wordcmp e _); [by destruct Hne; apply H|done|done].
Qed.

Lemma lookup_word_add t e x :
  lookup_word t (word e) = None ->
  lookup_word (tree_add t e) x
  = if decide (word e = x) then Some e else lookup_word t x.
Proof.
  induction t as [|e' t IH]; simpl.
  - intros _. by rewrite lookup_word_cons.
  - rewrite lookup_word_cons.
    destruct (decide (word e' = word e)) as [|Hne]; [done|]. intros Hnone.
    destruct (wordcmp e e').
    + rewrite !lookup_word_cons, IH by done.
      destruct (decide (word e' = x)), (decide (word e = x)); congruence.
    + by rewrite !lookup_word_cons.
    + rewrite !lookup_word_cons, IH by done.
      destruct (decide (word e' = x)), (decide (word e = x)); congruence.
Qed.

Lemma lookup_word_incr t y x :
  lookup_word (tree_incr t {| word := y; freq := 0 |}) x
  = if decide (y = x) then incr_freq <$> lookup_word t x else lookup_word t x.
Proof.
  induction t as [|e t IH]; simpl.
  - by destruct (decide (y = x)).
  - pose proof (wordcmp_eq e y) as H.
    destruct (wordcmp e _) eqn:Hc.
    + apply proj1 in H. specialize (H eq_refl). rewrite !lookup_word_cons. simpl.
      destruct (decide (y = x)), (decide (word e = x)); try done; congruence.
    + rewrite !lookup_word_cons, IH.
      destruct (decide (word e = x)) as [He|]; [|done].
      destruct (decide (y = x)); [|done].
      assert (Lt = Eq); [|done]. apply H. congruence.
    + rewrite !lookup_word_cons, IH.
      destruct (decide (word e = x)) as [He|]; [|done].
      destruct (decide (y = x)); [|done].
      assert (Gt = Eq); [|done]. apply H. congruence.
Qed.

Lemma lookup_word_addentry y t x :
  lookup_word (addentry y t) x
  = if decide (y = x) then
      Some (match lookup_word t x with
            | Some e => incr_freq e
            | None => {| word := y; freq := 1 |}
            end)
    else lookup_word t x.
Proof.
  unfold addentry. fold (lookup_word t y).
  destruct (lookup_word t y) as [e|] eqn:Hy.
  - rewrite lookup_word_incr. destruct (decide (y = x)) as [<-|]; [|done].
    by rewrite Hy.
  - rewrite lookup_word_add by done. simpl.
    destruct (decide (y = x)) as [<-|]; [|done]. by rewrite Hy.
Qed.

Lemma insert_all_counted toks x : forall t n,
  lookup_word t x = counted x n ->
  lookup_word (insert_all toks t) x = counted x (n + occurrences x toks).
Proof.
  induction toks as [|y toks IH]; intros t n Ht; simpl.
  - by rewrite Nat.add_0_r.
  - replace (n + ((if decide (y = x) then 1 else 0) + occurrences x toks))%nat
      with ((n + (if decide (y = x) then 1 else 0)) + occurrences x toks)%nat
      by lia.
    apply IH. rewrite lookup_word_addentry, Ht.
    destruct (decide (y = x)) as [->|]; [|by rewrite Nat.add_0_r].
    rewrite Nat.add_1_r. destruct n as [|n]; simpl counted.
    + done.
    + unfold incr_freq. simpl word. simpl freq. do 2 f_equal.
      rewrite Z.add_mod_idemp_l by done. f_equal. lia.
Qed.

(** After any sequence of [addentry] calls on an empty table, the count
    stored for a token is the number of its occurrences modulo 2^32. *)
Lemma stored_count toks x :
  lookup_word (insert_all toks tree_init) x = counted x (occurrences x toks).
Proof. by apply (insert_all_counted toks x tree_init 0). Qed.

Lemma occurrences_repeat x n : occurrences x (repeat x n) = n.
Proof.
  induction n as [|n IH]; simpl; [done|].
  destruct (decide (x = x)); [|done]. by rewrite IH.
Qed.

Lemma freq_cap_min en : freq_cap en = Z.min (freq en) 0xa3.
Proof. unfold freq_cap. destruct (Z.ltb_spec 0xa3 (freq en)); lia. Qed.

Lemma bind_ok {A B} (m : outcome A) (k : A -> outcome B) r :
  m ≫= k = Ok r -> exists a, m = Ok a /\ k a = Ok r.
Proof. destruct m as [a|]; simpl; [eauto|done]. Qed.

Lemma store_val_ok i b g g' :
  store_val i b g = Ok g' -> g' = set_val (<[i:=b]> (val g)) g.
Proof. unfold store_val. destruct (i <? MAXVAL); [|done]. by intros [= <-]. Qed.

Lemma store_last_byte i b g g' :
  store_val i b (set_valp i g) = Ok g' -> val g' (valp g') = b.
Proof. intros H. apply store_val_ok in H as ->. simpl. apply fn_lookup_insert. Qed.

Lemma append_group_freq en g g' :
  append_group en g = Ok g' -> val g' (valp g') = freq_cap en.
Proof.
  unfold append_group. intros H.
  apply bind_ok in H as (w2 & _ & H). apply bind_ok in H as (w3 & _ & H).
  apply bind_ok in H as (g1 & H1 & H).
  by apply (store_last_byte (valp g1 + 3)) in H.
Qed.

Lemma open_group_freq en g g' :
  open_group en g = Ok g' -> val g' (valp g') = freq_cap en.
Proof.
  unfold open_group. intros H.
  apply bind_ok in H as (w0 & _ & H). apply bind_ok in H as (w1 & _ & H).
  apply bind_ok in H as (g1 & _ & H). apply bind_ok in H as (g2 & _ & H).
  apply bind_ok in H as (g3 & _ & H). apply bind_ok in H as (g4 & _ & H).
  apply bind_ok in H as (w2 & _ & H). apply bind_ok in H as (w3 & _ & H).
  apply bind_ok in H as (g5 & H5 & H).
  by apply (store_last_byte (valp g5 + 6)) in H.
Qed.

(** The byte [cb_delim] stores last is the capped frequency. *)
Lemma cb_delim_freq P en g out g' :
  cb_delim P en g = Ok (out, g') -> val g' (valp g') = freq_cap en.
Proof.
  unfold cb_delim. intros H. apply bind_ok in H as (c & _ & H).
  destruct (is_big5_char P c).
  - apply bind_ok in H as ([out1 g1] & H1 & H). injection H as <- <-. simpl.
    destruct (last g) as [l|].
    + apply bind_ok in H1 as (same & _ & H1). destruct same.
      * apply bind_ok in H1 as (g0 & H0 & H1). injection H1 as <- <-.
        by apply append_group_freq in H0.
      * apply bind_ok in H1 as (r0 & _ & H1).
        apply bind_ok in H1 as (g0 & H0 & H1). injection H1 as <- <-.
        by apply open_group_freq in H0.
    + apply bind_ok in H1 as (g0 & H0 & H1). injection H1 as <- <-.
      by apply open_group_freq in H0.
  - apply bind_ok in H as (g1 & H1 & H). apply bind_ok in H as (g2 & H2 & H).
    apply bind_ok in H as (g3 & H3 & H). apply bind_ok in H as (g4 & H4 & H).
    injection H as <- <-.
    by apply (store_last_byte (valp g3 + 6)) in H4.
Qed.

Lemma cb_pair_freq P en g out g' :
  cb_pair P en g = Ok (out, g') ->
  exists c, out = [c] /\ c_len c = freq_cap en.
Proof.
  intros H.
  destruct (refines_ok _ _ _ _ (cb_pair_refines P en g) H) as (o & Ho & <- & _).
  simpl. unfold pair_calls in Ho. apply bind_ok in Ho as (c & _ & Ho).
  destruct (is_big5_char P c).
  - apply bind_ok in Ho as (w1 & _ & Ho). apply bind_ok in Ho as (w2 & _ & Ho).
    injection Ho as <-. eauto.
  - injection Ho as <-. eauto.
Qed.

Lemma cb_word_freq P en g out g' :
  cb_word P en g = Ok (out, g') ->
  exists c, out = [c] /\ c_len c = freq_cap en.
Proof.
  intros H.
  destruct (refines_ok _ _ _ _ (cb_word_refines P en g) H) as (o & Ho & <- & _).
  simpl. unfold word_calls in Ho. apply bind_ok in Ho as (c & _ & Ho).
  destruct (is_big5_char P c); [injection Ho as <-; eauto|].
  rewrite strcat_blanks_strdup in Ho. discriminate Ho.
Qed.

(** C3, as amended.  Each emitter serializes [min(c, 163)] for an entry
    whose stored count is [c].  [addentry] increments the count without a
    cap, in an [unsigned int]: after any sequence of [addentry] calls the
    count stored for a token that occurred [n] times is [n mod 2^32].  So for
    [163 < n < 2^32] the stored count is [n] and the emitted value is 163. *)
Theorem frequency_capped_on_output_only :
  (forall en, freq_cap en = Z.min (freq en) 163) /\
  (forall P en g out g',
     cb_pair P en g = Ok (out, g') ->
     exists c, out = [c] /\ c_len c = Z.min (freq en) 163) /\
  (forall P en g out g',
     cb_word P en g = Ok (out, g') ->
     exists c, out = [c] /\ c_len c = Z.min (freq en) 163) /\
  (forall P en g out g',
     cb_delim P en g = Ok (out, g') ->
     val g' (valp g') = Z.min (freq en) 163) /\
  (forall toks x,
     (0 < occurrences x toks)%nat ->
     lookup_word (insert_all toks tree_init) x
     = Some {| word := x;
               freq := Z.of_nat (occurrences x toks) mod 4294967296 |}) /\
  (forall toks x,
     163 < Z.of_nat (occurrences x toks) < 4294967296 ->
     exists en,
       lookup_word (insert_all toks tree_init) x = Some en /\
       freq en = Z.of_nat (occurrences x toks) /\
       freq_cap en = 163).
Proof.
  split_and!.
  - apply freq_cap_min.
  - intros P en g out g' H. rewrite <- freq_cap_min. by eapply cb_pair_freq.
  - intros P en g out g' H. rewrite <- freq_cap_min. by eapply cb_word_freq.
  - intros P en g out g' H. rewrite <- freq_cap_min. by eapply cb_delim_freq.
  - intros toks x Hn. rewrite stored_count.
    destruct (occurrences x toks); [lia|done].
  - intros toks x Hn. rewrite stored_count.
    destruct (occurrences x toks) as [|n] eqn:Ho; [lia|].
    eexists. split; [reflexivity|]. simpl freq. unfold UINT_MOD.
    rewrite Z.mod_small by lia. split; [done|].
    unfold freq_cap. simpl freq.
    destruct (Z.ltb_spec 163 (Z.of_nat (S n))); [done|lia].
Qed.

Lemma frequency_capped_witness :
  exists en,
    lookup_word (insert_all (repeat [0x68; 0x69] 200) tree_init) [0x68; 0x69]
    = Some en /\
    freq en = 200 /\ freq_cap en = 163.
Proof.
  destruct frequency_capped_on_output_only as (_ & _ & _ & _ & _ & H).
  destruct (H (repeat [0x68; 0x69] 200) [0x68; 0x69]) as (en & H1 & H2 & H3).
  - rewrite occurrences_repeat. lia.
  - exists en. rewrite occurrences_repeat in H2. split; [exact H1|].
    split; [exact H2|exact H3].
Defined.

(** The count of a token inserted 2^32 times. *)
Lemma stored_count_wraps x n :
  Z.of_nat n = UINT_MOD ->
  lookup_word (insert_all (repeat x n) tree_init) x
  = Some {| word := x; freq := 0 |}.
Proof.
  intros Hn. rewrite stored_count, occurrences_repeat.
  destruct n as [|n]; [discriminate Hn|].
  unfold counted. rewrite Hn. reflexivity.
Qed.

(** C3, as stated, fails: a token inserted 2^32 times is stored with count 0
    and would be emitted with frequency 0, not 163. *)
Lemma stored_count_wraps_at_2_32 :
  Z.of_nat (occurrences [0x68; 0x69]
              (repeat [0x68; 0x69] (Z.to_nat 4294967296))) = 4294967296 /\
  lookup_word (insert_all (repeat [0x68; 0x69] (Z.to_nat 4294967296)) tree_init)
              [0x68; 0x69]
  = Some {| word := [0x68; 0x69]; freq := 0 |} /\
  freq_cap {| word := [0x68; 0x69]; freq := 0 |} = 0.
Proof.
  split; [|split].
  - rewrite occurrences_repeat. exact (Z2Nat.id 4294967296 ltac:(discriminate)).
  - exact (stored_count_wraps [0x68; 0x69] (Z.to_nat 4294967296)
             (Z2Nat.id 4294967296 ltac:(discriminate))).
  - reflexivity.
Qed.

(** ** C1: runs of ideographs *)

Lemma c_str_nonzero bs : Forall (fun b => b <> 0) bs -> c_str bs = bs.
Proof.
  induction 1 as [|b bs Hb _ IH]; simpl; [done|].
  destruct (Z.eqb_spec b 0); [done|]. by rewrite IH.
Qed.

Lemma peek_app_r pre x k : peek (pre ++ x) (length pre + k) = peek x k.
Proof.
  unfold peek. rewrite lookup_app_r, length_app by lia.
  replace (length pre + k - length pre)%nat with k by lia.
  destruct (x !! k); [done|].
  destruct (decide (k = length x)), (decide (length pre + k = length pre + length x)%nat);
    try done; lia.
Qed.

Lemma peek_app_r0 pre x : peek (pre ++ x) (length pre) = peek x 0.
Proof. rewrite <- (peek_app_r pre x 0). f_equal. lia. Qed.

Lemma insert_all_app toks toks' t :
  insert_all (toks ++ toks') t = insert_all toks' (insert_all toks t).
Proof. unfold insert_all. apply fold_left_app. Qed.

(** The token read at a position where two characters stand. *)
Lemma bigram_tok_at pre (c c' : char2) rest :
  c.1 <> 0 -> c.2 <> 0 -> c'.1 <> 0 -> c'.2 <> 0 ->
  bigram_tok (pre ++ chars [c; c'] ++ rest) (length pre) = bigram c c'.
Proof.
  intros H1 H2 H3 H4. unfold bigram_tok. rewrite drop_app_length.
  apply Z.eqb_neq in H1, H2, H3, H4. simpl.
  rewrite H1, H2, H3, H4. simpl. rewrite H1, H2, H3, H4. reflexivity.
Qed.

Lemma single_tok_at pre (c : char2) rest :
  c.1 <> 0 -> c.2 <> 0 ->
  single_tok (pre ++ chars [c] ++ rest) (length pre) = unigram c.
Proof.
  intros H1 H2. unfold single_tok. rewrite drop_app_length.
  apply Z.eqb_neq in H1, H2. simpl.
  rewrite H1, H2. simpl. rewrite H1, H2. reflexivity.
Qed.

Lemma ideograph_lead c : ideograph c -> is_big5word c.1 = true /\ c.1 <> 0 /\ c.2 <> 0.
Proof.
  intros [H1 H2]. unfold is_big5word. split; [apply Z.ltb_lt; lia|]. lia.
Qed.

Lemma chars_cons c cs : chars (c :: cs) = [c.1; c.2] ++ chars cs.
Proof. done. Qed.

Lemma chars_app cs cs' : chars (cs ++ cs') = chars cs ++ chars cs'.
Proof. unfold chars. apply flat_map_app. Qed.

Lemma chars_length cs : length (chars cs) = (2 * length cs)%nat.
Proof. induction cs as [|c cs IH]; simpl; [done|]. rewrite IH. lia. Qed.

Lemma run_end_peek post :
  run_end post -> exists b, peek post 0 = Ok b /\ is_big5word b = false.
Proof.
  intros H. rewrite peek_0. eexists. split; [done|].
  unfold is_big5word. apply Z.ltb_ge. destruct post as [|b post]; simpl; [lia|].
  by apply H.
Qed.

Lemma peek_after_chars pre cs post :
  peek (pre ++ chars cs ++ post) (length pre + 2 * length cs) = peek post 0.
Proof.
  rewrite app_assoc.
  replace (length pre + 2 * length cs)%nat with (length (pre ++ chars cs))
    by (rewrite length_app, chars_length; lia).
  apply peek_app_r0.
Qed.

Lemma peek_lead pre c rest :
  peek (pre ++ chars [c] ++ rest) (length pre) = Ok c.1.
Proof. by rewrite peek_app_r0. Qed.

Lemma bigram_loop_t_S fuel s p t :
  bigram_loop_t (S fuel) s p t
  = b ← peek s (p + 2);
    if is_big5word b then
      bigram_loop_t fuel s (p + 2) (addentry (bigram_tok s (p + 2 - 2)) t)
    else Ok ((p + 2)%nat, t).
Proof. done. Qed.

(** The loop of lines 155-158, entered with [p] at the character [c0] that
    is followed by the ideographs [cs]: one bigram per adjacent pair. *)
Lemma bigram_loop_t_run cs : forall fuel pre c0 post t,
  (length cs < fuel)%nat ->
  ideograph c0 -> Forall ideograph cs -> run_end post ->
  bigram_loop_t fuel (pre ++ chars (c0 :: cs) ++ post) (length pre) t
  = Ok ((length pre + 2 + 2 * length cs)%nat,
        insert_all (bigrams (c0 :: cs)) t).
Proof.
  induction cs as [|c1 cs IH]; intros fuel pre c0 post t Hfuel H0 Hcs Hend;
    (destruct fuel as [|fuel]; [simpl in Hfuel; lia|]);
    rewrite bigram_loop_t_S.
  - pose proof (peek_after_chars pre [c0] post) as Hp.
    change (length pre + 2 * length [c0])%nat with (length pre + 2)%nat in Hp.
    rewrite Hp.
    destruct (run_end_peek post Hend) as (b & -> & Hb). simpl. rewrite Hb.
    do 2 f_equal. lia.
  - apply Forall_cons_1 in Hcs as [H1 Hcs].
    destruct (ideograph_lead c0 H0) as (_ & H01 & H02).
    destruct (ideograph_lead c1 H1) as (Hw1 & H11 & H12).
    assert (pre ++ chars (c0 :: c1 :: cs) ++ post
            = (pre ++ chars [c0]) ++ chars (c1 :: cs) ++ post) as Hs
      by (by rewrite <- app_assoc).
    assert (length pre + 2 = length (pre ++ chars [c0]))%nat as Hl
      by (by rewrite length_app).
    assert (peek (pre ++ chars (c0 :: c1 :: cs) ++ post) (length pre + 2)
            = Ok c1.1) as ->.
    { rewrite Hs, Hl. apply (peek_lead _ c1 (chars cs ++ post)). }
    rewrite bind_Ok, Hw1.
    replace (length pre + 2 - 2)%nat with (length pre) by lia.
    replace (bigram_tok (pre ++ chars (c0 :: c1 :: cs) ++ post) (length pre))
      with (bigram c0 c1)
      by (symmetry; by apply (bigram_tok_at pre c0 c1 (chars cs ++ post))).
    rewrite Hs, Hl.
    rewrite (IH fuel (pre ++ chars [c0]) c1 post); [|simpl in Hfuel; lia|done..].
    do 2 f_equal. rewrite <- Hl. simpl. lia.
Qed.

Lemma two_last {A} (l : list A) :
  (2 <= length l)%nat -> exists front a b, l = front ++ [a; b].
Proof.
  intros Hl. destruct (exists_last (l:=l)) as (l1 & b & ->).
  { intros ->. simpl in Hl. lia. }
  rewrite length_app in Hl. simpl in Hl.
  destruct (exists_last (l:=l1)) as (front & a & ->).
  { intros ->. simpl in Hl. lia. }
  exists front, a, b. by rewrite <- app_assoc.
Qed.

(** Lines 163-167 at the end of a run of at least two ideographs: the
    character two places before the terminator is an ideograph, so the
    trailing unigram is inserted exactly when [query] is 0. *)
Lemma run_ending pre cs post q t :
  Forall ideograph cs -> (2 <= length cs)%nat ->
  let s := pre ++ chars cs ++ post in
  let p := (length pre + 2 * length cs)%nat in
  (if q =? 0 then Ok (p, addentry (single_tok s (p - 2)) t)
   else b4 ← peek s (p - 4);
        if is_big5word b4 then Ok (p, t)
        else Ok (p, addentry (single_tok s (p - 2)) t))
  = Ok (p, insert_all (if q =? 0 then [unigram (List.last cs (0, 0))] else []) t).
Proof.
  intros Hcs Hlen s p.
  destruct (two_last cs Hlen) as (front & ca & cl & Hfront).
  assert (ideograph ca /\ ideograph cl) as [Ha Hl].
  { rewrite Hfront in Hcs. apply Forall_app in Hcs as [_ Hcs].
    apply Forall_cons_1 in Hcs as [Ha Hcs].
    by apply Forall_cons_1 in Hcs as [Hl _]. }
  assert (List.last cs (0, 0) = cl) as ->.
  { rewrite Hfront. change [ca; cl] with ([ca] ++ [cl]).
    rewrite app_assoc. apply last_last. }
  assert (length cs = length front + 2)%nat as Hn
    by (rewrite Hfront, length_app; simpl; lia).
  destruct (q =? 0).
  - simpl insert_all. do 3 f_equal.
    assert (s = (pre ++ chars (front ++ [ca])) ++ chars [cl] ++ post) as ->.
    { unfold s. rewrite Hfront. change [ca; cl] with ([ca] ++ [cl]).
      rewrite (app_assoc front), (chars_app (front ++ [ca])).
      by rewrite <- !app_assoc. }
    replace (p - 2)%nat with (length (pre ++ chars (front ++ [ca]))).
    + destruct (ideograph_lead cl Hl) as (_ & ? & ?). by apply single_tok_at.
    + rewrite length_app, chars_length, length_app. simpl. unfold p. lia.
  - assert (peek s (p - 4) = Ok ca.1) as ->.
    { assert (s = (pre ++ chars front) ++ chars [ca] ++ (chars [cl] ++ post)) as ->.
      { unfold s. rewrite Hfront, chars_app. by rewrite <- !app_assoc. }
      replace (p - 4)%nat with (length (pre ++ chars front)).
      - apply peek_lead.
      - rewrite length_app, chars_length. unfold p. lia. }
    rewrite bind_Ok. by destruct (ideograph_lead ca Ha) as (-> & _).
Qed.

(** Lines 147-168 at the head of a run [cs] of at least two ideographs,
    reached directly or through a symbol character before it. *)
Lemma big5_branch_t_run pre lead cs post q t :
  lead = [] \/ (exists c, lead = [c] /\ symbol c) ->
  Forall ideograph cs -> (2 <= length cs)%nat -> run_end post ->
  big5_branch_t (pre ++ chars (lead ++ cs) ++ post) (length pre) q t
  = Ok ((length pre + 2 * length (lead ++ cs))%nat,
        insert_all (run_tokens q cs) t).
Proof.
  intros Hlead Hcs Hlen Hend.
  pose proof (run_ending (pre ++ chars lead) cs post q
                (insert_all (bigrams cs) t) Hcs Hlen) as Hfin.
  cbv zeta in Hfin.
  assert ((pre ++ chars lead) ++ chars cs ++ post
          = pre ++ chars (lead ++ cs) ++ post) as Hs
    by (by rewrite chars_app, <- !app_assoc).
  assert (length (pre ++ chars lead) + 2 * length cs
          = length pre + 2 * length (lead ++ cs))%nat as Hp
    by (rewrite !length_app, chars_length; lia).
  rewrite Hs, Hp in Hfin.
  unfold run_tokens. rewrite insert_all_app, <- Hfin. clear Hfin Hs Hp.
  remember (pre ++ chars (lead ++ cs) ++ post) as s eqn:Hs.
  remember (length pre + 2 * length (lead ++ cs))%nat as p' eqn:Hp'.
  destruct cs as [|c1 [|c2 cs]]; [simpl in Hlen; lia..|].
  apply Forall_cons_1 in Hcs as [H1 Hcs].
  pose proof Hcs as Hcs2. apply Forall_cons_1 in Hcs2 as [H2 Hcs'].
  destruct (ideograph_lead c1 H1) as (Hw1 & H11 & H12).
  destruct (ideograph_lead c2 H2) as (Hw2 & H21 & H22).
  unfold big5_branch_t. replace (length pre + 2 - 2)%nat with (length pre) by lia.
  destruct Hlead as [->|(sy & -> & Hsy)].
  - (* the run starts at [p] *)
    assert (s = (pre ++ chars [c1]) ++ chars (c2 :: cs) ++ post) as Hs1
      by (by rewrite Hs, <- app_assoc).
    assert (length pre + 2 = length (pre ++ chars [c1]))%nat as Hl
      by (by rewrite length_app).
    assert (peek s (length pre + 2) = Ok c2.1) as ->.
    { rewrite Hs1, Hl. apply (peek_lead _ c2 (chars cs ++ post)). }
    assert (peek s (length pre) = Ok c1.1) as ->.
    { rewrite Hs. apply (peek_lead pre c1 (chars (c2 :: cs) ++ post)). }
    assert (bigram_tok s (length pre) = bigram c1 c2) as ->.
    { rewrite Hs. by apply (bigram_tok_at pre c1 c2 (chars cs ++ post)). }
    rewrite ?bind_Ok, Hw2, ?bind_Ok, Hw1.
    assert (bigram_loop_t (length s) s (length pre + 2) (addentry (bigram c1 c2) t)
            = Ok (p', insert_all (bigrams (c1 :: c2 :: cs)) t)) as ->.
    { rewrite Hs1 at 2. rewrite Hl.
      rewrite (bigram_loop_t_run cs _ (pre ++ chars [c1]) c2 post); try done.
      - do 2 f_equal. rewrite <- Hl, Hp'. simpl. lia.
      - rewrite Hs, !length_app, chars_length. simpl. lia. }
    by rewrite bind_Ok.
  - (* a symbol character stands at [p], the run starts after it *)
    destruct Hsy as [Hsy1 Hsy2].
    assert (s = (pre ++ chars [sy]) ++ chars (c1 :: c2 :: cs) ++ post) as Hs1
      by (by rewrite Hs, <- app_assoc).
    assert (length pre + 2 = length (pre ++ chars [sy]))%nat as Hl
      by (by rewrite length_app).
    assert (peek s (length pre + 2) = Ok c1.1) as ->.
    { rewrite Hs1, Hl. apply (peek_lead _ c1 (chars (c2 :: cs) ++ post)). }
    assert (peek s (length pre) = Ok sy.1) as ->.
    { rewrite Hs. apply (peek_lead pre sy (chars (c1 :: c2 :: cs) ++ post)). }
    assert (is_big5word sy.1 = false) as Hwsy
      by (unfold is_big5word; apply Z.ltb_ge; lia).
    rewrite ?bind_Ok, Hw1, ?bind_Ok, Hwsy.
    assert (bigram_loop_t (length s) s (length pre + 2) t
            = Ok (p', insert_all (bigrams (c1 :: c2 :: cs)) t)) as ->.
    { rewrite Hs1 at 2. rewrite Hl.
      rewrite (bigram_loop_t_run (c2 :: cs) _ (pre ++ chars [sy]) c1 post);
        try done.
      - do 2 f_equal. rewrite <- Hl, Hp'. simpl. lia.
      - rewrite Hs, !length_app, chars_length. simpl. lia. }
    by rewrite bind_Ok.
Qed.


Lemma scan_S fuel s p g :
  scan (S fuel) s p g
  = b ← peek s p;
    if b =? 0 then Ok (s, g)
    else if is_big5 b then '(p, g) ← big5_branch s p g; scan fuel s p g
    else if is_alnum b then '(s, p, g) ← alnum_branch s p g; scan fuel s p g
    else scan fuel s (S p) g.
Proof. done. Qed.



(** The scenario of the specification: three ideographs, [query] off and
    on. *)
Example three_ideographs :
  tokenize 0 [0xa4; 0x40; 0xa4; 0x41; 0xa4; 0x42]
  = Ok ([0xa4; 0x40; 0xa4; 0x41; 0xa4; 0x42],
        [ {| word := [0xa4; 0x40; 0xa4; 0x41]; freq := 1 |};
          {| word := [0xa4; 0x41; 0xa4; 0x42]; freq := 1 |};
          {| word := [0xa4; 0x42; 0x21; 0x21]; freq := 1 |} ]) /\
  tokenize 1 [0xa4; 0x40; 0xa4; 0x41; 0xa4; 0x42]
  = Ok ([0xa4; 0x40; 0xa4; 0x41; 0xa4; 0x42],
        [ {| word := [0xa4; 0x40; 0xa4; 0x41]; freq := 1 |};
          {| word := [0xa4; 0x41; 0xa4; 0x42]; freq := 1 |} ]).
Proof. split; reflexivity. Qed.

(** ** The delimited emitter, group by group *)

Lemma peek_le w i : (i <= length w)%nat -> peek w i = Ok (nth i w 0).
Proof.
  intros Hi. unfold peek. rewrite nth_lookup.
  destruct (w !! i) eqn:E; [done|]. simpl.
  apply lookup_ge_None in E. destruct (decide (i = length w)); [done|lia].
Qed.

Lemma byte_string_nonzero w : byte_string w -> Forall (fun b => b <> 0) w.
Proof. intros H. eapply Forall_impl; [exact H|]. simpl. lia. Qed.

Lemma four_bytes (w : list Z) :
  length w = 4%nat -> exists w0 w1 w2 w3, w = [w0; w1; w2; w3].
Proof.
  destruct w as [|w0 [|w1 [|w2 [|w3 [|??]]]]]; try done. eauto.
Qed.

Lemma peek_1_nil : peek [] 1 = Undef ReadPastEnd.
Proof. done. Qed.

Lemma peek_1_one x : peek [x] 1 = Ok 0.
Proof. done. Qed.

Lemma peek_1_two x y w : peek (x :: y :: w) 1 = Ok y.
Proof. done. Qed.

Ltac step_same_lead H :=
  repeat first
    [ rewrite bind_Ok in H | rewrite bind_Undef in H | rewrite peek_0 in H
    | rewrite peek_1_nil in H | rewrite peek_1_one in H
    | rewrite peek_1_two in H
    | match type of H with
      | context [?a =? ?b] => destruct (Z.eqb_spec a b)
      end ].

(** The test of line 40 compares the first two bytes of the two tokens. *)
Lemma same_lead_spec en l b :
  byte_string (word en) -> byte_string (word l) ->
  same_lead en l = Ok b -> b = bool_decide (lead2 en = lead2 l).
Proof.
  unfold same_lead, lead2, byte_string. intros He Hl H.
  destruct (word en) as [|x [|y we]], (word l) as [|x' [|y' wl]];
    repeat match goal with
           | H : Forall _ (_ :: _) |- _ => apply Forall_cons_1 in H as [? H]
           end;
    step_same_lead H; simpl hd in *;
    try discriminate H; injection H as <-; symmetry;
    first [ exfalso; lia
          | apply bool_decide_eq_true_2; subst; reflexivity
          | apply bool_decide_eq_false_2; simpl; intros [=]; lia ].
Qed.

Lemma same_lead_ok en l :
  (2 <= length (word en))%nat -> byte_string (word en) -> byte_string (word l) ->
  same_lead en l = Ok (bool_decide (lead2 en = lead2 l)).
Proof.
  intros Hlen He Hl.
  destruct (same_lead en l) as [b|f] eqn:E.
  - by rewrite (same_lead_spec en l b He Hl E).
  - exfalso. unfold same_lead, byte_string in *.
    destruct (word en) as [|x [|y we]]; simpl in Hlen; try lia.
    apply Forall_cons_1 in He as [? He].
    destruct (word l) as [|x' [|y' wl]]; step_same_lead E; try discriminate E.
    simpl in *. lia.
Qed.

Lemma cjk_entry_word P e :
  cjk_entry P e ->
  exists w0 w1 w2 w3,
    word e = [w0; w1; w2; w3] /\ w0 <> 0 /\ w1 <> 0 /\
    is_big5_char P w0 = true.
Proof.
  intros (Hb & Hlen & Hw). destruct (four_bytes _ Hlen) as (w0 & w1 & w2 & w3 & Hw4).
  exists w0, w1, w2, w3. unfold big5_entry, byte_string in *. rewrite Hw4 in *.
  apply Forall_cons_1 in Hw as [? Hw]. apply Forall_cons_1 in Hw as [? Hw].
  split_and!; try done; lia.
Qed.

Lemma open_group_d_cjk P d e :
  cjk_entry P e -> open_group_d d e = Ok (lead2 e, d ++ triple e).
Proof.
  intros He. destruct (cjk_entry_word P e He) as (w0 & w1 & w2 & w3 & Hw & H0 & H1 & _).
  unfold open_group_d, lead2, triple. rewrite Hw.
  apply Z.eqb_neq in H0, H1. simpl. by rewrite H0, H1.
Qed.

Lemma push_spec b blob :
  push b blob = if Z.of_nat (length blob) + 1 <=? MAXVAL then Ok (blob ++ [b])
                else Undef WritePastVal.
Proof.
  unfold push.
  destruct (Z.ltb_spec (Z.of_nat (length blob)) MAXVAL),
    (Z.leb_spec (Z.of_nat (length blob) + 1) MAXVAL); try done; lia.
Qed.

Lemma append_group_d_cjk P e blob :
  cjk_entry P e ->
  append_group_d e blob
  = if Z.of_nat (length blob) + 3 <=? MAXVAL then Ok (blob ++ triple e)
    else Undef WritePastVal.
Proof.
  intros He. destruct (cjk_entry_word P e He) as (w0 & w1 & w2 & w3 & Hw & _).
  unfold append_group_d, triple. rewrite Hw.
  change (peek [w0; w1; w2; w3] 2) with (Ok w2 : outcome Z).
  change (peek [w0; w1; w2; w3] 3) with (Ok w3 : outcome Z).
  rewrite !bind_Ok, !push_spec.
  destruct (Z.leb_spec (Z.of_nat (length blob) + 3) MAXVAL) as [Hfit|Hfit].
  - destruct (Z.leb_spec (Z.of_nat (length blob) + 1) MAXVAL); [|lia].
    rewrite bind_Ok, push_spec, length_app. simpl length.
    destruct (Z.leb_spec (Z.of_nat (length blob + 1) + 1) MAXVAL); [|lia].
    rewrite bind_Ok, push_spec, !length_app. simpl length.
    destruct (Z.leb_spec (Z.of_nat (length blob + 1 + 1) + 1) MAXVAL); [|lia].
    by rewrite <- !app_assoc.
  - destruct (Z.leb_spec (Z.of_nat (length blob) + 1) MAXVAL); [|done].
    rewrite bind_Ok, push_spec, length_app. simpl length.
    destruct (Z.leb_spec (Z.of_nat (length blob + 1) + 1) MAXVAL); [|done].
    rewrite bind_Ok, push_spec, !length_app. simpl length.
    destruct (Z.leb_spec (Z.of_nat (length blob + 1 + 1) + 1) MAXVAL); [lia|done].
Qed.

(** [cb_delim] on a CJK entry. *)
Lemma cb_delim_d_cjk P d e a :
  cjk_entry P e ->
  (forall l, d_last a = Some l -> byte_string (word l)) ->
  cb_delim_d P d e a
  = match d_last a with
    | Some l =>
        if bool_decide (lead2 e = lead2 l) then
          if Z.of_nat (length (d_blob a)) + 3 <=? MAXVAL then
            Ok ([], {| d_last := Some e; d_key := d_key a;
                       d_blob := d_blob a ++ triple e |})
          else Undef WritePastVal
        else
          Ok ([record_of (d_key a) (d_blob a)],
              {| d_last := Some e; d_key := lead2 e; d_blob := d ++ triple e |})
    | None =>
        Ok ([], {| d_last := Some e; d_key := lead2 e; d_blob := d ++ triple e |})
    end.
Proof.
  intros He Hl. unfold cb_delim_d. rewrite peek_0, bind_Ok.
  destruct He as (Hb & Hlen & Hw). unfold big5_entry in Hb. rewrite Hb.
  assert (cjk_entry P e) as He by done.
  destruct (d_last a) as [l|] eqn:Hlast.
  - rewrite same_lead_ok; [|lia|done|by apply Hl]. rewrite bind_Ok.
    destruct (bool_decide (lead2 e = lead2 l)).
    + rewrite (append_group_d_cjk P) by done.
      by destruct (_ <=? _).
    + by rewrite (open_group_d_cjk P).
  - by rewrite (open_group_d_cjk P).
Qed.

(** [cb_delim] on an ASCII entry. *)
Lemma cb_delim_d_ascii P d e a :
  big5_entry P e = false ->
  cb_delim_d P d e a
  = Ok ([record_of (word e) (d ++ [0x20; 0x20; freq_cap e])],
        {| d_last := d_last a; d_key := d_key a;
           d_blob := d ++ [0x20; 0x20; freq_cap e] |}).
Proof.
  intros Hb. unfold cb_delim_d. rewrite peek_0, bind_Ok.
  unfold big5_entry in Hb. by rewrite Hb.
Qed.

Lemma trav_d_app P d t1 : forall t2 a,
  trav_d P d (t1 ++ t2) a
  = '(o1, a1) ← trav_d P d t1 a;
    '(o2, a2) ← trav_d P d t2 a1;
    Ok (o1 ++ o2, a2).
Proof.
  induction t1 as [|e t1 IH]; intros t2 a; simpl.
  - by destruct (trav_d P d t2 a) as [[??]|].
  - destruct (cb_delim_d P d e a) as [[o a1]|]; simpl; [|done].
    rewrite IH. destruct (trav_d P d t1 a1) as [[o1 a2]|]; simpl; [|done].
    destruct (trav_d P d t2 a2) as [[o2 a3]|]; simpl; [|done].
    by rewrite app_assoc.
Qed.

Lemma last_cons {A} (l : list A) : forall x d, List.last (x :: l) d = List.last l x.
Proof.
  induction l as [|y l IH]; intros x d; [done|].
  change (List.last (x :: y :: l) d) with (List.last (y :: l) d).
  by rewrite !IH.
Qed.

(** A group that continues the open one: nothing is emitted, three bytes
    are appended per entry, and the store that would pass the end of [val]
    is the one at which the code has no defined behaviour. *)
Lemma trav_d_group P d grp : forall a l,
  d_last a = Some l -> byte_string (word l) ->
  Z.of_nat (length (d_blob a)) <= MAXVAL ->
  Forall (cjk_entry P) grp ->
  Forall (fun e => lead2 e = lead2 l) grp ->
  trav_d P d grp a
  = if Z.of_nat (length (d_blob a)) + 3 * Z.of_nat (length grp) <=? MAXVAL then
      Ok ([], {| d_last := Some (List.last grp l); d_key := d_key a;
                 d_blob := d_blob a ++ flat_map triple grp |})
    else Undef WritePastVal.
Proof.
  induction grp as [|e grp IH]; intros a l Hlast Hl Hfit Hcjk Hlead.
  - simpl. destruct (Z.leb_spec (Z.of_nat (length (d_blob a)) + 3 * Z.of_nat 0) MAXVAL);
      [|lia].
    rewrite app_nil_r. destruct a. simpl in *. by subst.
  - apply Forall_cons_1 in Hcjk as [He Hcjk]. apply Forall_cons_1 in Hlead as [Hel Hlead].
    change (trav_d P d (e :: grp) a)
      with ('(o1, a1) ← cb_delim_d P d e a;
            '(o2, a2) ← trav_d P d grp a1; Ok (o1 ++ o2, a2)).
    rewrite (cb_delim_d_cjk P d e a He)
      by (intros l' Hl'; rewrite Hlast in Hl'; by injection Hl' as <-).
    rewrite Hlast, bool_decide_eq_true_2 by done.
    destruct (Z.leb_spec (Z.of_nat (length (d_blob a)) + 3) MAXVAL) as [H3|H3].
    + rewrite bind_Ok.
      assert (length (triple e) = 3%nat) as Ht.
      { destruct (cjk_entry_word P e He) as (? & ? & ? & ? & Hw & _).
        unfold triple. by rewrite Hw. }
      rewrite (IH _ e); simpl d_blob; simpl d_key; simpl d_last;
        [|done|by destruct He as (_ & _ & ?)|rewrite length_app; lia|done|].
      2:{ eapply Forall_impl; [exact Hlead|]. simpl. congruence. }
      rewrite length_app, Ht. simpl length.
      destruct
        (Z.leb_spec (Z.of_nat (length (d_blob a) + 3) + 3 * Z.of_nat (length grp))
           MAXVAL),
        (Z.leb_spec (Z.of_nat (length (d_blob a)) + 3 * Z.of_nat (S (length grp)))
           MAXVAL);
        try lia; [|done].
      rewrite bind_Ok. simpl flat_map. by rewrite last_cons, <- app_assoc.
    + destruct
        (Z.leb_spec
           (Z.of_nat (length (d_blob a)) + 3 * Z.of_nat (length (e :: grp)))
           MAXVAL);
        [simpl length in *; lia|done].
Qed.

Lemma dinv_closed : dinv closed.
Proof. intros l [=]. Qed.

Lemma open_group_d_len d p x :
  open_group_d d p = Ok x -> (3 <= length (word p))%nat.
Proof.
  unfold open_group_d.
  destruct (word p) as [|w0 [|w1 [|w2 w]]]; simpl; try discriminate; lia.
Qed.

Lemma open_group_d_key d e k blob :
  byte_string (word e) -> open_group_d d e = Ok (k, blob) -> k = lead2 e.
Proof.
  unfold lead2, byte_string. intros He H.
  pose proof (open_group_d_len _ _ _ H) as Hlen. unfold open_group_d in H.
  destruct (word e) as [|w0 [|w1 [|w2 w]]]; simpl in Hlen; try lia.
  apply Forall_cons_1 in He as [H0 He]. apply Forall_cons_1 in He as [H1 He].
  assert ((w0 =? 0) = false) as E0 by (apply Z.eqb_neq; lia).
  assert ((w1 =? 0) = false) as E1 by (apply Z.eqb_neq; lia).
  change (peek (w0 :: w1 :: w2 :: w) 0) with (Ok w0 : outcome Z) in H.
  change (peek (w0 :: w1 :: w2 :: w) 1) with (Ok w1 : outcome Z) in H.
  change (peek (w0 :: w1 :: w2 :: w) 2) with (Ok w2 : outcome Z) in H.
  rewrite !bind_Ok in H.
  destruct (peek (w0 :: w1 :: w2 :: w) 3) as [w3|]; [|discriminate H].
  rewrite bind_Ok in H. simpl in H. rewrite E0, E1 in H. by injection H as <- _.
Qed.

(** One visit keeps the key of the open group equal to the lead of [last],
    and moves [last] exactly when the first branch is taken. *)
Lemma cb_delim_d_inv P d e a o a' :
  byte_string (word e) -> dinv a -> cb_delim_d P d e a = Ok (o, a') ->
  dinv a' /\ d_last a' = (if big5_entry P e then Some e else d_last a).
Proof.
  intros He Ha H. unfold cb_delim_d in H. rewrite peek_0, bind_Ok in H.
  unfold big5_entry. destruct (is_big5_char P (hd 0 (word e))).
  - destruct (d_last a) as [l|] eqn:Hl.
    + destruct (Ha l Hl) as [Hlb Hk].
      destruct (same_lead e l) as [b|] eqn:Hs; [|discriminate H].
      rewrite bind_Ok in H. apply same_lead_spec in Hs; [|done..]. subst b.
      destruct (bool_decide (lead2 e = lead2 l)) eqn:Hbd.
      * destruct (append_group_d e (d_blob a)) as [blob|]; [|discriminate H].
        simpl in H. injection H as <- <-. split; [|done].
        intros l' [= <-]. split; [done|]. simpl.
        apply bool_decide_eq_true_1 in Hbd. congruence.
      * destruct (open_group_d d e) as [[k blob]|] eqn:Ho; [|discriminate H].
        simpl in H. injection H as <- <-. split; [|done].
        intros l' [= <-]. split; [done|]. simpl. by eapply open_group_d_key.
    + destruct (open_group_d d e) as [[k blob]|] eqn:Ho; [|discriminate H].
      simpl in H. injection H as <- <-. split; [|done].
      intros l' [= <-]. split; [done|]. simpl. by eapply open_group_d_key.
  - injection H as <- <-. split; [|done]. intros l Hl. by apply Ha.
Qed.

Lemma trav_d_inv P d t : forall a o a',
  Forall (fun e => byte_string (word e)) t -> dinv a ->
  trav_d P d t a = Ok (o, a') ->
  dinv a' /\ d_last a' = last_cjk P t (d_last a).
Proof.
  induction t as [|e t IH]; intros a o a' Ht Ha H.
  - injection H as <- <-. done.
  - apply Forall_cons_1 in Ht as [He Ht].
    change (trav_d P d (e :: t) a)
      with ('(o1, a1) ← cb_delim_d P d e a;
            '(o2, a2) ← trav_d P d t a1; Ok (o1 ++ o2, a2)) in H.
    destruct (cb_delim_d P d e a) as [[o1 a1]|] eqn:E1; [|discriminate H].
    rewrite bind_Ok in H.
    destruct (trav_d P d t a1) as [[o2 a2]|] eqn:E2; [|discriminate H].
    injection H as <- <-.
    destruct (cb_delim_d_inv _ _ _ _ _ _ He Ha E1) as [Ha1 Hl1].
    destruct (IH _ _ _ Ht Ha1 E2) as [Ha2 Hl2].
    split; [done|]. rewrite Hl2, Hl1. done.
Qed.

Lemma last_cjk_in P t : forall init,
  last_cjk P t init = init \/ exists l, last_cjk P t init = Some l /\ l ∈ t.
Proof.
  induction t as [|e t IH]; intros init; [by left|].
  change (last_cjk P (e :: t) init)
    with (last_cjk P t (if big5_entry P e then Some e else init)).
  destruct (IH (if big5_entry P e then Some e else init)) as [->|(l & -> & Hl)].
  - destruct (big5_entry P e); [right|by left].
    exists e. split; [done|]. apply elem_of_cons. by left.
  - right. exists l. split; [done|]. apply elem_of_cons. by right.
Qed.

Lemma last_cjk_ascii P t init :
  Forall (fun e => big5_entry P e = false) t -> last_cjk P t init = init.
Proof.
  revert init. induction t as [|e t IH]; intros init Ht; [done|].
  apply Forall_cons_1 in Ht as [He Ht].
  change (last_cjk P (e :: t) init)
    with (last_cjk P t (if big5_entry P e then Some e else init)).
  rewrite He. by apply IH.
Qed.

(** Entries on the second branch only: one invocation each, whatever the
    state, and [last] is left alone. *)
Lemma trav_d_ascii P d t : forall a,
  Forall (fun e => big5_entry P e = false) t ->
  exists o a', trav_d P d t a = Ok (o, a') /\ d_last a' = d_last a /\
               length o = length t.
Proof.
  induction t as [|e t IH]; intros a Ht.
  - by exists [], a.
  - apply Forall_cons_1 in Ht as [He Ht].
    change (trav_d P d (e :: t) a)
      with ('(o1, a1) ← cb_delim_d P d e a;
            '(o2, a2) ← trav_d P d t a1; Ok (o1 ++ o2, a2)).
    rewrite cb_delim_d_ascii, bind_Ok by done.
    destruct (IH {| d_last := d_last a; d_key := d_key a;
                    d_blob := d ++ [0x20; 0x20; freq_cap e] |} Ht)
      as (o & a' & -> & Hl & Hn).
    rewrite bind_Ok. eexists _, a'. split; [done|]. split; [done|].
    simpl. by rewrite Hn.
Qed.

(** The first entry of another group, met while a group is open: the open
    group is handed to [cb], then the entry is treated as on a fresh start. *)
Lemma cb_delim_d_next_group P d p a l :
  big5_entry P p = true -> (2 <= length (word p))%nat -> byte_string (word p) ->
  d_last a = Some l -> byte_string (word l) -> lead2 p <> lead2 l ->
  cb_delim_d P d p a
  = '(o, a') ← cb_delim_d P d p closed;
    Ok (record_of (d_key a) (d_blob a) :: o, a').
Proof.
  intros Hb Hlen Hp Hl Hlb Hne. unfold cb_delim_d.
  rewrite peek_0, !bind_Ok. unfold big5_entry in Hb. rewrite Hb, Hl.
  rewrite same_lead_ok, bind_Ok, bool_decide_eq_false_2 by done.
  simpl d_last. by destruct (open_group_d d p) as [[k blob]|].
Qed.

Lemma trav_d_next_group P d p post a l o a' :
  big5_entry P p = true -> byte_string (word p) ->
  d_last a = Some l -> byte_string (word l) -> lead2 p <> lead2 l ->
  trav_d P d (p :: post) closed = Ok (o, a') ->
  trav_d P d (p :: post) a = Ok (record_of (d_key a) (d_blob a) :: o, a').
Proof.
  intros Hb Hp Hl Hlb Hne H.
  change (trav_d P d (p :: post) closed)
    with ('(o1, a1) ← cb_delim_d P d p closed;
          '(o2, a2) ← trav_d P d post a1; Ok (o1 ++ o2, a2)) in H.
  change (trav_d P d (p :: post) a)
    with ('(o1, a1) ← cb_delim_d P d p a;
          '(o2, a2) ← trav_d P d post a1; Ok (o1 ++ o2, a2)).
  destruct (cb_delim_d P d p closed) as [[o1 a1]|] eqn:E1; [|discriminate H].
  assert (2 <= length (word p))%nat as Hlen.
  { unfold cb_delim_d in E1. rewrite peek_0, bind_Ok in E1.
    unfold big5_entry in Hb. rewrite Hb in E1. simpl d_last in E1.
    destruct (open_group_d d p) as [x|] eqn:Ho; [|discriminate E1].
    apply open_group_d_len in Ho. lia. }
  rewrite (cb_delim_d_next_group P d p a l), E1, !bind_Ok by done.
  rewrite bind_Ok in H.
  destruct (trav_d P d post a1) as [[o2 a2]|]; [|discriminate H].
  by injection H as <- <-.
Qed.

(** The invocations of the traversal of lines 207-215 are those of the
    array-free emitter, and it fails where that one fails. *)
Lemma walk_delim_calls P t g :
  fst <$> walk_delim P t g = emit_delim P (delim_bytes g) t.
Proof.
  pose proof (walk_delim_refines P (delim_bytes g) t g eq_refl) as H.
  destruct (walk_delim P t g) as [[out g']|f],
    (emit_delim P (delim_bytes g) t) as [out'|f']; simpl in *; try done.
  - destruct H as [-> _]. done.
  - by subst.
Qed.

Lemma strcmp_hd a b :
  byte_string b -> strcmp a b = Lt -> hd 0 a <= hd 0 b.
Proof.
  unfold byte_string. intros Hb H.
  destruct a as [|x a], b as [|y b]; simpl in *; try done.
  - apply Forall_cons_1 in Hb as [? _]. lia.
  - destruct (Z.compare_spec x y); try done; lia.
Qed.

Lemma is_big5_char_mono P b b' :
  0 <= b <= b' -> b' < 256 ->
  is_big5_char P b = true -> is_big5_char P b' = true.
Proof.
  unfold is_big5_char, uint_of_char. intros Hb Hb'.
  destruct (plain_char_signed P); simpl;
    destruct (Z.leb_spec 128 b), (Z.leb_spec 128 b');
    rewrite !Z.ltb_lt; lia.
Qed.

(** Entries on the first branch of [cb_delim] come after those on the
    second in the comparator's order. *)
Lemma big5_entry_mono P a b :
  byte_string (word a) -> byte_string (word b) -> wordcmp a b = Lt ->
  big5_entry P a = true -> big5_entry P b = true.
Proof.
  unfold big5_entry, wordcmp. intros Ha Hb Hlt.
  pose proof (strcmp_hd _ _ Hb Hlt) as Hle.
  apply is_big5_char_mono; [|].
  - split; [|done]. destruct (word a) as [|x wa]; [done|].
    apply Forall_cons_1 in Ha as [? _]. simpl. lia.
  - destruct (word b) as [|y wb]; [done|].
    apply Forall_cons_1 in Hb as [? _]. simpl. lia.
Qed.

Lemma in_order_ascii_first P t1 e t2 :
  in_order (t1 ++ e :: t2) ->
  Forall (fun a => byte_string (word a)) (t1 ++ e :: t2) ->
  big5_entry P e = false ->
  Forall (fun a => big5_entry P a = false) t1.
Proof.
  intros Ho Hb He. apply Forall_forall. intros a Ha.
  destruct (big5_entry P a) eqn:E; [|done].
  rewrite <- He. symmetry. apply (big5_entry_mono P a e).
  - rewrite Forall_forall in Hb. apply Hb, elem_of_app. by left.
  - rewrite Forall_forall in Hb. apply Hb, elem_of_app. right.
    apply elem_of_cons. by left.
  - apply (StronglySorted_app_1_elem_of
             (fun a b => wordcmp a b = Lt) t1 (e :: t2) a e Ho Ha).
    apply elem_of_cons. by left.
  - done.
Qed.

(** ** Groups of the delimited emitter *)

Lemma triple_length P e : cjk_entry P e -> length (triple e) = 3%nat.
Proof.
  intros He. destruct (cjk_entry_word P e He) as (? & ? & ? & ? & Hw & _).
  unfold triple. by rewrite Hw.
Qed.

Lemma flat_map_triple_length P grp :
  Forall (cjk_entry P) grp -> length (flat_map triple grp) = (3 * length grp)%nat.
Proof.
  induction grp as [|e grp IH]; intros H; [done|].
  apply Forall_cons_1 in H as [He H]. simpl.
  rewrite length_app, (triple_length P), IH by done. lia.
Qed.

Lemma last_elem_of {A} (l : list A) : forall x, List.last l x ∈ x :: l.
Proof.
  induction l as [|y l IH]; intros x.
  - apply elem_of_cons. by left.
  - rewrite last_cons. apply elem_of_cons. right. apply IH.
Qed.

Lemma group_record P d e grp :
  length d = 4%nat -> Forall (cjk_entry P) (e :: grp) ->
  record_of (lead2 e) ((d ++ triple e) ++ flat_map triple grp)
  = group_call (lead2 e) d (e :: grp).
Proof.
  intros Hd Hg. unfold record_of, group_call. f_equal.
  - by rewrite <- app_assoc.
  - rewrite <- app_assoc, length_app, Hd.
    change (triple e ++ flat_map triple grp) with (flat_map triple (e :: grp)).
    rewrite (flat_map_triple_length P) by done. lia.
Qed.

Lemma final_flush_d_open l k blob :
  final_flush_d {| d_last := Some l; d_key := k; d_blob := blob |}
  = [record_of (lead2 l) blob].
Proof. done. Qed.

(** The traversal up to the end of a group [e :: grp] that follows [pre]:
    what [cb] has received is what it receives for [pre] alone, and the
    group is open, complete, and not yet handed over. *)
Lemma trav_d_to_group P d pre e grp cpre :
  length d = 4%nat ->
  Forall (fun a => byte_string (word a)) pre ->
  Forall (cjk_entry P) (e :: grp) ->
  Forall (fun a => lead2 a = lead2 e) grp ->
  Forall (fun a => lead2 a <> lead2 e) pre ->
  4 + 3 * Z.of_nat (length (e :: grp)) <= MAXVAL ->
  emit_delim P d pre = Ok cpre ->
  trav_d P d (pre ++ e :: grp) closed
  = Ok (cpre, {| d_last := Some (List.last grp e); d_key := lead2 e;
                 d_blob := (d ++ triple e) ++ flat_map triple grp |}).
Proof.
  intros Hd Bpre Hcjk Hlead Hpre Hfit Epre.
  pose proof Hcjk as Hcjk'. apply Forall_cons_1 in Hcjk' as [He Hgrp].
  unfold emit_delim in *.
  destruct (trav_d P d pre closed) as [[o1 a1]|] eqn:E1; [|discriminate Epre].
  rewrite bind_Ok in Epre. injection Epre as <-.
  destruct (trav_d_inv _ _ _ _ _ _ Bpre dinv_closed E1) as [Ha1 Hl1].
  rewrite trav_d_app, E1, bind_Ok.
  (* the first entry of the group closes what [pre] left open *)
  assert (cb_delim_d P d e a1
          = Ok (final_flush_d a1,
                {| d_last := Some e; d_key := lead2 e; d_blob := d ++ triple e |}))
    as Efirst.
  { rewrite (cb_delim_d_cjk P) by (done || intros l Hl; by apply Ha1).
    unfold final_flush_d. destruct (d_last a1) as [l|] eqn:Hl; [|done].
    destruct (Ha1 l Hl) as [_ Hk]. change (d_last closed) with (@None entry) in Hl1.
    destruct (last_cjk_in P pre None) as [Hn|(l' & Hl' & Hin)]; [congruence|].
    assert (l' = l) as -> by congruence.
    rewrite Forall_forall in Hpre.
    rewrite bool_decide_eq_false_2 by (intros Heq; by apply (Hpre l Hin)).
    by rewrite Hk. }
  change (trav_d P d (e :: grp) a1)
    with ('(o1, a1) ← cb_delim_d P d e a1;
          '(o2, a2) ← trav_d P d grp a1; Ok (o1 ++ o2, a2)).
  rewrite Efirst, bind_Ok.
  assert (length (d ++ triple e) = 7%nat) as H7
    by (rewrite length_app, (triple_length P), Hd; done).
  rewrite (trav_d_group P d grp _ e); simpl d_blob; simpl d_key;
    [|done|by destruct He as (_ & _ & ?)|rewrite H7; unfold MAXVAL; lia|done|done].
  rewrite H7. simpl length in Hfit.
  destruct (Z.leb_spec (Z.of_nat 7 + 3 * Z.of_nat (length grp)) MAXVAL); [|lia].
  rewrite !bind_Ok. by rewrite app_nil_r.
Qed.

(** The invocations for a table in which the entries with the lead
    [lead2 e] are [e :: grp], between [pre] and [post]. *)
Lemma emit_delim_group P d pre e grp post cpre cpost :
  length d = 4%nat ->
  in_order (pre ++ (e :: grp) ++ post) ->
  Forall (fun a => byte_string (word a)) (pre ++ (e :: grp) ++ post) ->
  Forall (cjk_entry P) (e :: grp) ->
  Forall (fun a => lead2 a = lead2 e) grp ->
  Forall (fun a => lead2 a <> lead2 e) pre ->
  Forall (fun a => lead2 a <> lead2 e) post ->
  4 + 3 * Z.of_nat (length (e :: grp)) <= MAXVAL ->
  emit_delim P d pre = Ok cpre ->
  emit_delim P d post = Ok cpost ->
  emit_delim P d (pre ++ (e :: grp) ++ post)
  = Ok (cpre ++ group_call (lead2 e) d (e :: grp) :: cpost).
Proof.
  intros Hd Hord Hbytes Hcjk Hlead Hpre Hpost Hfit Epre Epost.
  apply Forall_app in Hbytes as [Bpre Bgp]. apply Forall_app in Bgp as [Bgrp Bpost].
  pose proof Hcjk as Hcjk'. apply Forall_cons_1 in Hcjk' as [He Hgrp].
  pose proof (trav_d_to_group P d pre e grp cpre Hd Bpre Hcjk Hlead Hpre Hfit Epre)
    as Egrp.
  unfold emit_delim in *.
  rewrite app_assoc, trav_d_app, Egrp, bind_Ok.
  assert (List.last grp e ∈ e :: grp) as Hin by apply last_elem_of.
  assert (lead2 (List.last grp e) = lead2 e) as Hlast.
  { apply elem_of_cons in Hin as [->|Hin]; [done|].
    rewrite Forall_forall in Hlead. by apply Hlead. }
  destruct post as [|p post].
  - injection Epost as <-. simpl trav_d. rewrite !bind_Ok.
    rewrite final_flush_d_open, Hlast, (group_record P) by done.
    by rewrite !app_nil_r.
  - destruct (trav_d P d (p :: post) closed) as [[o3 a4]|] eqn:E3;
      [|discriminate Epost].
    rewrite bind_Ok in Epost. injection Epost as <-.
    apply Forall_cons_1 in Bpost as [Bp Bpost].
    apply Forall_cons_1 in Hpost as [Hp Hpost].
    rewrite (trav_d_next_group P d p post _ (List.last grp e) o3 a4); try done.
    + rewrite !bind_Ok. simpl d_key. simpl d_blob.
      rewrite (group_record P) by done.
      by rewrite <- !app_assoc.
    + apply (big5_entry_mono P e p);
        [by destruct He as (_ & _ & ?)|done| |by destruct He].
      apply StronglySorted_app_1_r in Hord.
      apply (StronglySorted_app_1_elem_of
               (fun a b => wordcmp a b = Lt) (e :: grp) (p :: post) e p Hord);
        apply elem_of_cons; by left.
    + rewrite Forall_forall in Hcjk. by destruct (Hcjk _ Hin) as (_ & _ & ?).
    + by rewrite Hlast.
Qed.

(** C2.  In an in-order traversal by the delimited emitter, the CJK entries
    [grp] that share the first two bytes [k] give one invocation of the
    callback: its key is [k], its value the four delimiter bytes followed by
    one triple (two last bytes of the token, emitted frequency) per entry.
    [pre] and [post] are the entries before and after the group, [cpre] and
    [cpost] the invocations the emitter makes for each of them alone.  When
    the traversal ends with the group, the group is still open and it is
    the final flush that hands it over. *)
Theorem same_lead_group_one_call P g pre grp post k cpre cpost :
  in_order (pre ++ grp ++ post) ->
  Forall (fun a => byte_string (word a)) (pre ++ grp ++ post) ->
  grp <> [] ->
  Forall (cjk_entry P) grp ->
  Forall (fun a => lead2 a = k) grp ->
  Forall (fun a => lead2 a <> k) (pre ++ post) ->
  4 + 3 * Z.of_nat (length grp) <= MAXVAL ->
  fst <$> walk_delim P pre g = Ok cpre ->
  fst <$> walk_delim P post g = Ok cpost ->
  fst <$> walk_delim P (pre ++ grp ++ post) g
  = Ok (cpre ++ [group_call k (delim_bytes g) grp] ++ cpost) /\
  exists g',
    tree_trav (cb_delim P) (pre ++ grp) (set_last None g) = Ok (cpre, g') /\
    final_flush g' = [group_call k (delim_bytes g) grp].
Proof.
  intros Hord Hbytes Hne Hcjk Hlead Hother Hfit Epre Epost.
  destruct grp as [|e grp]; [done|].
  apply Forall_cons_1 in Hlead as [<- Hlead].
  apply Forall_app in Hother as [Hpre Hpost].
  rewrite walk_delim_calls in Epre, Epost. split.
  - rewrite walk_delim_calls. by apply emit_delim_group.
  - pose proof Hbytes as Bpre. apply Forall_app in Bpre as [Bpre _].
    pose proof (trav_d_to_group P (delim_bytes g) pre e grp cpre eq_refl Bpre
                  Hcjk Hlead Hpre Hfit Epre) as Egrp.
    assert (abs_delim (delim_bytes g) (set_last None g) closed) as Habs.
    { split; [done|]. split; [done|]. intros [? Hs]. discriminate Hs. }
    pose proof (trav_delim_refines P (delim_bytes g) (pre ++ e :: grp) _ _ Habs)
      as Href.
    rewrite Egrp in Href.
    destruct (tree_trav (cb_delim P) (pre ++ e :: grp) (set_last None g))
      as [[out g']|]; [|done].
    destruct Href as (Hout & Hg' & _). simpl in Hout, Hg'. subst out.
    exists g'. split; [done|].
    rewrite (final_flush_abs _ _ _ Hg').
    rewrite final_flush_d_open, <- (group_record P) by done.
    f_equal. f_equal.
    pose proof (last_elem_of grp e) as Hin.
    apply elem_of_cons in Hin as [->|Hin]; [done|].
    rewrite Forall_forall in Hlead. by apply Hlead.
Qed.

Lemma same_lead_group_witness :
  fst <$> walk_delim gcc_like (sample_pre ++ sample_group ++ sample_post)
            initial_globals
  = Ok ([ {| c_key := [0x68; 0x69];
             c_val := Bytes [0x3f; 0x3f; 0x3f; 0x3f; 0x20; 0x20; 2];
             c_len := 7 |} ]
        ++ [ group_call [0xa4; 0x40] (delim_bytes initial_globals) sample_group ]
        ++ [ {| c_key := [0xa4; 0x41];
                c_val := Bytes [0x3f; 0x3f; 0x3f; 0x3f; 0xa4; 0x42; 1];
                c_len := 7 |} ]) /\
  exists g',
    tree_trav (cb_delim gcc_like) (sample_pre ++ sample_group)
      (set_last None initial_globals)
    = Ok ([ {| c_key := [0x68; 0x69];
               c_val := Bytes [0x3f; 0x3f; 0x3f; 0x3f; 0x20; 0x20; 2];
               c_len := 7 |} ], g') /\
    final_flush g'
    = [ group_call [0xa4; 0x40] (delim_bytes initial_globals) sample_group ].
Proof.
  apply (same_lead_group_one_call gcc_like initial_globals
           sample_pre sample_group sample_post [0xa4; 0x40]).
  - repeat constructor.
  - repeat constructor.
  - discriminate.
  - repeat constructor.
  - repeat constructor.
  - repeat constructor; discriminate.
  - vm_compute. discriminate.
  - reflexivity.
  - reflexivity.
Defined.

(** The delimited emitter's output for the sample table: the second entry
    of the group carries the frequency 200, emitted as 0xa3. *)
Example sample_table_calls :
  fst <$> walk_delim gcc_like (sample_pre ++ sample_group ++ sample_post)
            initial_globals
  = Ok [ {| c_key := [0x68; 0x69];
            c_val := Bytes [0x3f; 0x3f; 0x3f; 0x3f; 0x20; 0x20; 2];
            c_len := 7 |};
         {| c_key := [0xa4; 0x40];
            c_val := Bytes [0x3f; 0x3f; 0x3f; 0x3f; 0xa4; 0x41; 1; 0xa4; 0x42; 0xa3];
            c_len := 10 |};
         {| c_key := [0xa4; 0x41];
            c_val := Bytes [0x3f; 0x3f; 0x3f; 0x3f; 0xa4; 0x42; 1];
            c_len := 7 |} ].
Proof. reflexivity. Qed.

(** ** The bound of [val] *)

(** A group of more than 10921 entries: the store that passes the end of
    [val] is reached. *)
Lemma emit_delim_past_val P d pre grp post k :
  length d = 4%nat ->
  Forall (fun a => big5_entry P a = false) pre ->
  Forall (cjk_entry P) grp ->
  Forall (fun a => lead2 a = k) grp ->
  MAXVAL < 4 + 3 * Z.of_nat (length grp) ->
  emit_delim P d (pre ++ grp ++ post) = Undef WritePastVal.
Proof.
  intros Hd Hpre Hcjk Hlead Hbig. unfold emit_delim.
  destruct (trav_d_ascii P d pre closed Hpre) as (o1 & a1 & E1 & Hl1 & _).
  rewrite trav_d_app, E1, bind_Ok, trav_d_app.
  destruct grp as [|e grp]; [simpl in Hbig; unfold MAXVAL in Hbig; lia|].
  apply Forall_cons_1 in Hcjk as [He Hcjk].
  apply Forall_cons_1 in Hlead as [<- Hlead].
  change (trav_d P d (e :: grp) a1)
    with ('(o1, a1) ← cb_delim_d P d e a1;
          '(o2, a2) ← trav_d P d grp a1; Ok (o1 ++ o2, a2)).
  assert (cb_delim_d P d e a1
          = Ok ([], {| d_last := Some e; d_key := lead2 e;
                       d_blob := d ++ triple e |})) as Efirst.
  { rewrite (cb_delim_d_cjk P) by (done || intros l Hl; by rewrite Hl1 in Hl).
    by rewrite Hl1. }
  rewrite Efirst, bind_Ok.
  assert (length (d ++ triple e) = 7%nat) as H7
    by (rewrite length_app, (triple_length P), Hd; done).
  rewrite (trav_d_group P d grp _ e); simpl d_blob; simpl d_key;
    [|done|by destruct He as (_ & _ & ?)|rewrite H7; unfold MAXVAL; lia|done|done].
  rewrite H7. simpl length in Hbig.
  destruct (Z.leb_spec (Z.of_nat 7 + 3 * Z.of_nat (length grp)) MAXVAL); [lia|].
  by rewrite !bind_Undef.
Qed.

Lemma same_lead_group_length n : length (same_lead_group n) = n.
Proof. unfold same_lead_group. by rewrite length_map, length_seq. Qed.

Lemma same_lead_group_cjk P n :
  Z.of_nat n <= 11648 -> Forall (cjk_entry P) (same_lead_group n).
Proof.
  intros Hn. unfold same_lead_group. apply Forall_forall. intros e He.
  apply list_elem_of_In, in_map_iff in He as (i & <- & Hi).
  apply in_seq in Hi.
  assert (0 <= Z.of_nat i / 128 < 91) as Hq
    by (split; [apply Z.div_pos; lia|apply Z.div_lt_upper_bound; lia]).
  pose proof (Z.mod_pos_bound (Z.of_nat i) 128 ltac:(lia)) as Hr.
  split; [|split].
  - unfold big5_entry, is_big5_char, uint_of_char. simpl.
    destruct (plain_char_signed P); reflexivity.
  - reflexivity.
  - unfold byte_string, bigram, lead_char, nth_char. simpl.
    repeat (apply Forall_cons_2; [lia|]). apply Forall_nil_2.
Qed.

Lemma same_lead_group_lead n :
  Forall (fun a => lead2 a = [0xa4; 0x40]) (same_lead_group n).
Proof.
  unfold same_lead_group. apply Forall_forall. intros e He.
  apply list_elem_of_In, in_map_iff in He as (i & <- & _). reflexivity.
Qed.

(** ** ASCII entries and CJK entries in the traversal *)

Lemma in_order_lookup t i j a b :
  in_order t -> t !! i = Some a -> t !! j = Some b -> (j < i)%nat ->
  wordcmp b a = Lt.
Proof.
  intros Ho Ha Hb Hji.
  rewrite <- (take_drop_middle t i a Ha) in Ho.
  apply (StronglySorted_app_1_elem_of
           (fun a b => wordcmp a b = Lt) (take i t) (a :: drop (S i) t) b a Ho).
  - apply (list_elem_of_lookup_2 _ j). by rewrite lookup_take_lt.
  - apply elem_of_cons. by left.
Qed.

(** C10.  In an in-order traversal of the table, an entry whose first byte
    is at most 0xA0 is visited before every entry whose first byte is
    above 0xA0; and whenever [cb_delim] is about to take its second (ASCII)
    branch, on the entry [e], the traversal of the entries before [e] has
    returned with [last] still null: no group is open, so the bytes the
    branch overwrites in [val] belong to no pending group. *)
Theorem ascii_entries_precede_cjk P g t :
  in_order t ->
  Forall (fun a => byte_string (word a)) t ->
  (forall i j a b,
     t !! i = Some a -> t !! j = Some b ->
     is_big5 (hd 0 (word a)) = false -> is_big5 (hd 0 (word b)) = true ->
     (i < j)%nat) /\
  (forall t1 e t2,
     t = t1 ++ e :: t2 -> big5_entry P e = false ->
     exists out g1,
       tree_trav (cb_delim P) t1 (set_last None g) = Ok (out, g1) /\
       last g1 = None).
Proof.
  intros Hord Hbytes. split.
  - intros i j a b Ha Hb Hca Hcb.
    destruct (decide (i < j)%nat) as [|Hge]; [done|exfalso].
    destruct (decide (i = j)) as [->|Hne]; [congruence|].
    assert (wordcmp b a = Lt) as Hlt
      by (apply (in_order_lookup t i j); [done..|lia]).
    assert (byte_string (word a)) as Hba.
    { rewrite Forall_forall in Hbytes. apply Hbytes.
      by apply (list_elem_of_lookup_2 _ i). }
    pose proof (strcmp_hd _ _ Hba Hlt) as Hle.
    unfold is_big5 in *. apply Z.ltb_lt in Hcb. apply Z.ltb_ge in Hca. lia.
  - intros t1 e t2 -> He.
    pose proof (in_order_ascii_first P t1 e t2 Hord Hbytes He) as Hascii.
    destruct (trav_d_ascii P (delim_bytes g) t1 closed Hascii)
      as (o & a' & E & Hl & _).
    assert (abs_delim (delim_bytes g) (set_last None g) closed) as Habs.
    { split; [done|]. split; [done|]. intros [? Hs]. discriminate Hs. }
    pose proof (trav_delim_refines P (delim_bytes g) t1 _ _ Habs) as Href.
    rewrite E in Href.
    destruct (tree_trav (cb_delim P) t1 (set_last None g)) as [[out g1]|]; [|done].
    destruct Href as (_ & (Hlast & _) & _). simpl in Hlast.
    exists out, g1. split; [done|]. by rewrite Hlast, Hl.
Qed.

Lemma ascii_entries_precede_cjk_witness :
  (forall i j a b,
     (sample_pre ++ sample_group ++ sample_post) !! i = Some a ->
     (sample_pre ++ sample_group ++ sample_post) !! j = Some b ->
     is_big5 (hd 0 (word a)) = false -> is_big5 (hd 0 (word b)) = true ->
     (i < j)%nat) /\
  (forall t1 e t2,
     sample_pre ++ sample_group ++ sample_post = t1 ++ e :: t2 ->
     big5_entry gcc_like e = false ->
     exists out g1,
       tree_trav (cb_delim gcc_like) t1 (set_last None initial_globals)
       = Ok (out, g1) /\
       last g1 = None).
Proof.
  apply (ascii_entries_precede_cjk gcc_like initial_globals
           (sample_pre ++ sample_group ++ sample_post)).
  - repeat constructor.
  - repeat constructor.
Defined.

(** ** The loop bounds of the embedding are never reached *)

Lemma fuelled_bind {A B} (Q : A -> Prop) (R : B -> Prop) (m : outcome A) k :
  fuelled Q m -> (forall a, Q a -> fuelled R (k a)) -> fuelled R (m ≫= k).
Proof. destruct m; simpl; auto. Qed.

Lemma fuelled_impl {A} (Q R : A -> Prop) (m : outcome A) :
  fuelled Q m -> (forall a, Q a -> R a) -> fuelled R m.
Proof. destruct m; simpl; auto. Qed.

Lemma fuelled_peek s i :
  fuelled (fun b => (i <= length s)%nat /\ (b <> 0 -> (i < length s)%nat))
    (peek s i).
Proof.
  unfold peek. destruct (s !! i) as [b|] eqn:E; simpl.
  - apply lookup_lt_Some in E. lia.
  - destruct (decide (i = length s)); simpl; [lia|done].
Qed.

Lemma is_big5word_nonzero b : is_big5word b = true -> b <> 0.
Proof. unfold is_big5word. intros H%Z.ltb_lt. lia. Qed.

Lemma is_big5_nonzero b : is_big5 b = true -> b <> 0.
Proof. unfold is_big5. intros H%Z.ltb_lt. lia. Qed.

Lemma is_alnum_nonzero b : is_alnum b = true -> b <> 0.
Proof. unfold is_alnum. intros H Hb. subst b. discriminate H. Qed.

Lemma bigram_loop_t_fuel fuel : forall s p t,
  (p <= length s)%nat -> (length s < p + 2 * fuel)%nat ->
  fuelled (fun r => (p < r.1 <= length s)%nat) (bigram_loop_t fuel s p t).
Proof.
  induction fuel as [|fuel IH]; intros s p t Hp Hf; [lia|].
  rewrite bigram_loop_t_S.
  apply (fuelled_bind _ _ _ _ (fuelled_peek s (p + 2))).
  intros b [Hle Hlt]. destruct (is_big5word b) eqn:Hb.
  - apply is_big5word_nonzero in Hb.
    eapply fuelled_impl; [apply IH; lia|]. simpl. lia.
  - simpl. lia.
Qed.

Lemma alnum_loop_fuel fuel : forall s p xlen,
  (p < length s)%nat -> (length s <= p + fuel)%nat ->
  fuelled (fun r => length r.1.1 = length s /\ (p < r.1.2 <= length s)%nat)
    (alnum_loop fuel s p xlen).
Proof.
  induction fuel as [|fuel IH]; intros s p xlen Hp Hf; [lia|].
  change (alnum_loop (S fuel) s p xlen)
    with (b ← peek s p;
          let s := if (0x40 <? b) && (b <? 0x5b) then <[p:=b + 32]> s else s in
          if xlen =? INT_MAX then Undef IntOverflow
          else
            b' ← peek s (S p);
            if is_alnum b' then alnum_loop fuel s (S p) (xlen + 1)
            else Ok (s, S p, xlen + 1)).
  apply (fuelled_bind _ _ _ _ (fuelled_peek s p)). intros b _.
  set (s1 := if (0x40 <? b) && (b <? 0x5b) then <[p:=b + 32]> s else s).
  assert (length s1 = length s) as Hlen.
  { unfold s1. destruct ((0x40 <? b) && (b <? 0x5b)); [|done].
    apply length_insert. }
  cbv zeta. destruct (xlen =? INT_MAX); [done|].
  apply (fuelled_bind _ _ _ _ (fuelled_peek s1 (S p))).
  intros b' [Hle Hlt]. destruct (is_alnum b') eqn:Hb.
  - apply is_alnum_nonzero in Hb.
    eapply fuelled_impl; [apply IH; lia|]. simpl. intros r. rewrite Hlen. lia.
  - simpl. lia.
Qed.

Lemma big5_branch_t_fuel s p q t :
  (p < length s)%nat ->
  fuelled (fun r => (p < r.1 <= length s)%nat) (big5_branch_t s p q t).
Proof.
  intros Hp. unfold big5_branch_t.
  apply (fuelled_bind _ _ _ _ (fuelled_peek s (p + 2))).
  intros b [Hle Hlt]. destruct (is_big5word b) eqn:Hb.
  - apply is_big5word_nonzero in Hb.
    apply (fuelled_bind _ _ _ _ (fuelled_peek s (p + 2 - 2))). intros b2 _.
    eapply fuelled_bind; [apply bigram_loop_t_fuel; lia|].
    intros [p' t'] Hp'. simpl in Hp'.
    destruct (q =? 0); [simpl; lia|].
    apply (fuelled_bind _ _ _ _ (fuelled_peek s (p' - 4))). intros b4 _.
    destruct (is_big5word b4); simpl; lia.
  - apply (fuelled_bind _ _ _ _ (fuelled_peek s (p + 2 - 2))). intros b2 _.
    destruct (is_big5word b2); simpl; lia.
Qed.

Lemma alnum_branch_t_fuel s p t :
  (p < length s)%nat ->
  fuelled (fun r => length r.1.1 = length s /\ (p < r.1.2 <= length s)%nat)
    (alnum_branch_t s p t).
Proof.
  intros Hp. unfold alnum_branch_t.
  eapply fuelled_bind; [apply alnum_loop_fuel; lia|].
  intros [[s' p'] xlen] Hr. simpl in Hr.
  destruct (1 <? xlen); [|done].
  destruct (_ <? MAXKEY); done.
Qed.

Lemma scan_t_fuel fuel : forall s p q t,
  (p <= length s)%nat -> (length s < p + fuel)%nat ->
  fuelled (fun _ => True) (scan_t fuel s p q t).
Proof.
  induction fuel as [|fuel IH]; intros s p q t Hp Hf; [lia|].
  change (scan_t (S fuel) s p q t)
    with (b ← peek s p;
          if b =? 0 then Ok (s, t)
          else if is_big5 b then
            '(p, t) ← big5_branch_t s p q t; scan_t fuel s p q t
          else if is_alnum b then
            '(s, p, t) ← alnum_branch_t s p t; scan_t fuel s p q t
          else scan_t fuel s (S p) q t).
  apply (fuelled_bind _ _ _ _ (fuelled_peek s p)). intros b [_ Hlt].
  destruct (Z.eqb_spec b 0) as [|Hb]; [done|]. specialize (Hlt Hb).
  destruct (is_big5 b).
  - eapply fuelled_bind; [by apply big5_branch_t_fuel|].
    intros [p' t'] Hp'. simpl in Hp'. apply IH; lia.
  - destruct (is_alnum b).
    + eapply fuelled_bind; [by apply alnum_branch_t_fuel|].
      intros [[s' p'] t'] [Hlen Hp']. simpl in Hlen, Hp'. apply IH; lia.
    + apply IH; lia.
Qed.

(** [tokenize], hence [extract_words], never stops for lack of fuel: on
    every input it returns, or reaches one of the faults of the C code. *)
Lemma tokenize_fuel q mem : tokenize q mem <> Undef OutOfFuel.
Proof.
  unfold tokenize.
  pose proof (scan_t_fuel (S (length (c_str mem))) (c_str mem) 0 q tree_init
                ltac:(lia) ltac:(lia)) as H.
  destruct (scan_t _ _ _ _ _); simpl in H; congruence.
Qed.

Lemma extract_words_fuel mem g : extract_words mem g <> Undef OutOfFuel.
Proof.
  destruct (extract_words_tokens mem g) as (k' & ->).
  pose proof (tokenize_fuel (query g) mem) as H.
  destruct (tokenize (query g) mem); simpl; congruence.
Qed.

(** ** A text whose group does not fit [val] *)

Lemma strcmp_antisym a : forall b, strcmp b a = CompOpp (strcmp a b).
Proof.
  induction a as [|x a IH]; intros [|y b]; simpl; try done.
  rewrite (Z.compare_antisym x y). destruct (x ?= y); simpl; [apply IH|done..].
Qed.

Lemma tree_srch_none t k :
  Forall (fun e => wordcmp e k <> Eq) t -> tree_srch t k = None.
Proof.
  induction t as [|e t IH]; intros H; [done|].
  apply Forall_cons_1 in H as [He H]. simpl.
  destruct (wordcmp e k); [done|by apply IH..].
Qed.

Lemma tree_add_insert l1 l2 e :
  Forall (fun e' => wordcmp e e' <> Lt) l1 ->
  Forall (fun e' => wordcmp e e' = Lt) l2 ->
  tree_add (l1 ++ l2) e = l1 ++ e :: l2.
Proof.
  intros H1 H2. induction l1 as [|e1 l1 IH].
  - destruct l2 as [|e2 l2]; [done|].
    apply Forall_cons_1 in H2 as [He2 _].
    change (tree_add ([] ++ e2 :: l2) e)
      with (match wordcmp e e2 with
            | Lt => e :: e2 :: l2
            | _ => e2 :: tree_add l2 e
            end).
    by rewrite He2.
  - apply Forall_cons_1 in H1 as [He H1].
    change (tree_add ((e1 :: l1) ++ l2) e)
      with (match wordcmp e e1 with
            | Lt => e :: e1 :: l1 ++ l2
            | _ => e1 :: tree_add (l1 ++ l2) e
            end).
    destruct (wordcmp e e1); [|done|]; by rewrite IH.
Qed.

(** [addentry] on a token that stands between the tokens of [l1] and those
    of [l2]. *)
Lemma addentry_insert l1 l2 x :
  Forall (fun e => strcmp (word e) x = Lt) l1 ->
  Forall (fun e => strcmp x (word e) = Lt) l2 ->
  addentry x (l1 ++ l2) = l1 ++ {| word := x; freq := 1 |} :: l2.
Proof.
  intros H1 H2. unfold addentry. rewrite tree_srch_none.
  - apply tree_add_insert; [|done].
    eapply Forall_impl; [exact H1|]. intros e He. unfold wordcmp. simpl.
    rewrite strcmp_antisym, He. done.
  - apply Forall_app. split.
    + eapply Forall_impl; [exact H1|]. intros e He. unfold wordcmp. simpl.
      by rewrite He.
    + eapply Forall_impl; [exact H2|]. intros e He. unfold wordcmp. simpl.
      rewrite strcmp_antisym, He. done.
Qed.

Lemma nth_char_lt i j :
  (i < j)%nat ->
  (nth_char i).1 < (nth_char j).1 \/
  ((nth_char i).1 = (nth_char j).1 /\ (nth_char i).2 < (nth_char j).2).
Proof.
  unfold nth_char. simpl. intros Hij.
  Z.to_euclidean_division_equations. lia.
Qed.

Lemma strcmp_char2 (c c' : char2) w w' :
  c.1 < c'.1 \/ (c.1 = c'.1 /\ c.2 < c'.2) ->
  strcmp (c.1 :: c.2 :: w) (c'.1 :: c'.2 :: w') = Lt.
Proof.
  intros [H|[-> H]]; simpl.
  - by rewrite (proj2 (Z.compare_lt_iff _ _) H).
  - by rewrite Z.compare_refl, (proj2 (Z.compare_lt_iff _ _) H).
Qed.

Lemma strcmp_cons x w w' : strcmp (x :: w) (x :: w') = strcmp w w'.
Proof. simpl. by rewrite Z.compare_refl. Qed.

Lemma strcmp_head_lt x y w w' : x < y -> strcmp (x :: w) (y :: w') = Lt.
Proof. intros H. simpl. by rewrite (proj2 (Z.compare_lt_iff _ _) H). Qed.

Lemma bigram_lt i j :
  (i < j)%nat ->
  strcmp (bigram lead_char (nth_char i)) (bigram lead_char (nth_char j)) = Lt.
Proof.
  intros Hij. unfold bigram. rewrite !strcmp_cons.
  by apply strcmp_char2, nth_char_lt.
Qed.

Lemma unigram_lt i j :
  (i < j)%nat -> strcmp (unigram (nth_char i)) (unigram (nth_char j)) = Lt.
Proof. intros Hij. unfold unigram. by apply strcmp_char2, nth_char_lt. Qed.

Lemma bigram_unigram_lt i j :
  strcmp (bigram lead_char (nth_char i)) (unigram (nth_char j)) = Lt.
Proof.
  unfold bigram, unigram. apply strcmp_head_lt.
  change (0xa4 < 0xa5 + Z.of_nat j / 128).
  Z.to_euclidean_division_equations. lia.
Qed.

Lemma same_lead_group_S n :
  same_lead_group (S n)
  = same_lead_group n
    ++ [ {| word := bigram lead_char (nth_char n); freq := 1 |} ].
Proof. unfold same_lead_group. by rewrite seq_S, map_app. Qed.

Lemma singles_S q n :
  singles q (S n)
  = singles q n
    ++ (if q =? 0 then [ {| word := unigram (nth_char n); freq := 1 |} ] else []).
Proof.
  unfold singles. destruct (q =? 0); [|done]. by rewrite seq_S, map_app.
Qed.

Lemma same_lead_group_below n x :
  (forall i, (i < n)%nat -> strcmp (bigram lead_char (nth_char i)) x = Lt) ->
  Forall (fun e => strcmp (word e) x = Lt) (same_lead_group n).
Proof.
  intros H. unfold same_lead_group. apply Forall_forall. intros e He.
  apply list_elem_of_In, in_map_iff in He as (i & <- & Hi).
  apply in_seq in Hi. apply H. lia.
Qed.

Lemma singles_below q n x :
  (forall i, (i < n)%nat -> strcmp (unigram (nth_char i)) x = Lt) ->
  Forall (fun e => strcmp (word e) x = Lt) (singles q n).
Proof.
  intros H. unfold singles. destruct (q =? 0); [|apply Forall_nil_2].
  apply Forall_forall. intros e He.
  apply list_elem_of_In, in_map_iff in He as (i & <- & Hi).
  apply in_seq in Hi. apply H. lia.
Qed.

Lemma singles_above q n x :
  (forall i, strcmp x (unigram (nth_char i)) = Lt) ->
  Forall (fun e => strcmp x (word e) = Lt) (singles q n).
Proof.
  intros H. unfold singles. destruct (q =? 0); [|apply Forall_nil_2].
  apply Forall_forall. intros e He.
  apply list_elem_of_In, in_map_iff in He as (i & <- & Hi). apply H.
Qed.

Lemma addentry_append l x :
  Forall (fun e => strcmp (word e) x = Lt) l ->
  addentry x l = l ++ [ {| word := x; freq := 1 |} ].
Proof.
  intros H. rewrite <- (app_nil_r l) at 1.
  apply addentry_insert; [done|apply Forall_nil_2].
Qed.

(** The table for the first [n] units of the text: the bigrams, in the
    order of the series, then the unigrams if [query] is 0. *)
Lemma insert_all_long_text q n :
  insert_all (flat_map (fun i => run_tokens q [lead_char; nth_char i]) (seq 0 n))
    tree_init
  = same_lead_group n ++ singles q n.
Proof.
  induction n as [|n IH].
  - unfold singles. by destruct (q =? 0).
  - rewrite seq_S, flat_map_app, insert_all_app, IH. simpl flat_map.
    rewrite app_nil_r. unfold run_tokens.
    change (insert_all (bigram lead_char (nth_char n) :: ?l) ?t)
      with (insert_all l (addentry (bigram lead_char (nth_char n)) t)).
    rewrite addentry_insert.
    + rewrite same_lead_group_S, singles_S, <- app_assoc.
      destruct (q =? 0) eqn:Hq; [|by rewrite app_nil_r].
      change (insert_all [unigram (nth_char n)] ?t)
        with (addentry (unigram (nth_char n)) t).
      rewrite addentry_append; [by rewrite <- app_assoc|].
      apply Forall_app. split.
      * apply same_lead_group_below. intros i _.
        apply bigram_unigram_lt.
      * apply Forall_cons_2; [apply bigram_unigram_lt|].
        apply singles_below. intros i Hi. by apply unigram_lt.
    + apply same_lead_group_below. intros i Hi. by apply bigram_lt.
    + apply singles_above. intros i. apply bigram_unigram_lt.
Qed.

Lemma scan_t_S fuel s p q t :
  scan_t (S fuel) s p q t
  = b ← peek s p;
    if b =? 0 then Ok (s, t)
    else if is_big5 b then
      '(p, t) ← big5_branch_t s p q t; scan_t fuel s p q t
    else if is_alnum b then
      '(s, p, t) ← alnum_branch_t s p t; scan_t fuel s p q t
    else scan_t fuel s (S p) q t.
Proof. done. Qed.

Lemma nth_char_ideograph i : Z.of_nat i < 11648 -> ideograph (nth_char i).
Proof.
  intros Hi. unfold ideograph, nth_char. simpl.
  Z.to_euclidean_division_equations. lia.
Qed.

(** The tokenizer over the units [i0 .. i0 + n) of the text, entered at the
    first of them. *)
Lemma scan_t_units q n : forall fuel pre i0 t,
  (2 * n < fuel)%nat -> Z.of_nat (i0 + n) <= 11648 ->
  scan_t fuel (pre ++ flat_map unit_text (seq i0 n)) (length pre) q t
  = Ok (pre ++ flat_map unit_text (seq i0 n),
        insert_all
          (flat_map (fun i => run_tokens q [lead_char; nth_char i]) (seq i0 n))
          t).
Proof.
  induction n as [|n IH]; intros fuel pre i0 t Hfuel Hmax.
  - destruct fuel as [|fuel]; [lia|]. rewrite scan_t_S. simpl flat_map.
    by rewrite peek_app_r0.
  - destruct fuel as [|[|fuel]]; [lia..|].
    change (seq i0 (S n)) with (i0 :: seq (S i0) n).
    change (flat_map unit_text (i0 :: seq (S i0) n))
      with (unit_text i0 ++ flat_map unit_text (seq (S i0) n)).
    set (rest := flat_map unit_text (seq (S i0) n)).
    assert (pre ++ unit_text i0 ++ rest
            = pre ++ chars ([] ++ [lead_char; nth_char i0]) ++ 0x20 :: rest) as Hs
      by (unfold unit_text; by rewrite <- app_assoc).
    rewrite scan_t_S.
    assert (peek (pre ++ unit_text i0 ++ rest) (length pre) = Ok 0xa4) as ->
      by (by rewrite peek_app_r0).
    rewrite bind_Ok.
    change (0xa4 =? 0) with false. change (is_big5 0xa4) with true. cbv iota.
    rewrite Hs at 1.
    rewrite (big5_branch_t_run pre [] [lead_char; nth_char i0] (0x20 :: rest));
      [|by left| |simpl; lia|intros b [= <-]; lia].
    2:{ apply Forall_cons_2; [split; simpl; lia|].
        apply Forall_cons_2; [apply nth_char_ideograph; lia|apply Forall_nil_2]. }
    rewrite bind_Ok. change (length pre + 2 * length ([] ++ [lead_char; nth_char i0]))%nat
      with (length pre + 4)%nat.
    rewrite scan_t_S.
    assert (peek (pre ++ unit_text i0 ++ rest) (length pre + 4) = Ok 0x20) as ->
      by (by rewrite peek_app_r).
    rewrite bind_Ok.
    change (0x20 =? 0) with false. change (is_big5 0x20) with false.
    change (is_alnum 0x20) with false. cbv iota.
    rewrite (app_assoc pre).
    replace (S (length pre + 4)) with (length (pre ++ unit_text i0))
      by (rewrite length_app; simpl; lia).
    unfold rest. rewrite IH by lia.
    change (flat_map (fun i => run_tokens q [lead_char; nth_char i])
              (i0 :: seq (S i0) n))
      with (run_tokens q [lead_char; nth_char i0]
            ++ flat_map (fun i => run_tokens q [lead_char; nth_char i])
                 (seq (S i0) n)).
    by rewrite insert_all_app, <- app_assoc.
Qed.

Lemma long_text_nonzero n :
  Z.of_nat n <= 11648 -> Forall (fun b => b <> 0) (long_text n).
Proof.
  intros Hn. unfold long_text. apply Forall_flat_map, Forall_forall.
  intros i Hi%list_elem_of_In%in_seq.
  unfold unit_text, chars, lead_char, nth_char. simpl.
  repeat (apply Forall_cons_2;
          [Z.to_euclidean_division_equations; lia|]).
  apply Forall_nil_2.
Qed.

Lemma units_length n : forall i0,
  length (flat_map unit_text (seq i0 n)) = (5 * n)%nat.
Proof.
  induction n as [|n IH]; intros i0; [done|].
  change (flat_map unit_text (seq i0 (S n)))
    with (unit_text i0 ++ flat_map unit_text (seq (S i0) n)).
  rewrite length_app, IH.
  change (length (unit_text i0)) with 5%nat. lia.
Qed.

Lemma long_text_length n : length (long_text n) = (5 * n)%nat.
Proof. apply units_length. Qed.

(** The tokenizer on the text: it returns, and the table holds the [n]
    bigrams, which share their two lead bytes, before the unigrams. *)
Lemma tokenize_long_text q n :
  Z.of_nat n <= 11648 ->
  tokenize q (long_text n)
  = Ok (long_text n, same_lead_group n ++ singles q n).
Proof.
  intros Hn. unfold tokenize.
  rewrite (c_str_nonzero _ (long_text_nonzero n Hn)).
  pose proof (scan_t_units q n (S (length (long_text n))) [] 0 tree_init) as H.
  rewrite long_text_length in *.
  rewrite insert_all_long_text in H. apply H; lia.
Qed.

Lemma extract_words_long_text n g :
  Z.of_nat n <= 11648 ->
  exists g1,
    extract_words (long_text n) g = Ok (long_text n, g1) /\
    wordtree g1 = [] ++ same_lead_group n ++ singles (query g) n.
Proof.
  intros Hn. destruct (extract_words_tokens (long_text n) g) as (k' & ->).
  rewrite tokenize_long_text by done. eexists. split; reflexivity.
Qed.

(** The traversal of a table in which more than 10921 CJK entries share
    their first two bytes, after ASCII entries only: the store that passes
    the end of [val] is reached. *)
Lemma walk_delim_past_val P g pre grp post k :
  Forall (fun a => big5_entry P a = false) pre ->
  Forall (cjk_entry P) grp ->
  Forall (fun a => lead2 a = k) grp ->
  MAXVAL < 4 + 3 * Z.of_nat (length grp) ->
  walk_delim P (pre ++ grp ++ post) g = Undef WritePastVal.
Proof.
  intros Hpre Hcjk Hlead Hbig.
  pose proof (walk_delim_calls P (pre ++ grp ++ post) g) as H.
  rewrite (emit_delim_past_val P (delim_bytes g) pre grp post k eq_refl Hpre Hcjk
             Hlead Hbig) in H.
  destruct (walk_delim P (pre ++ grp ++ post) g) as [r|f]; [discriminate H|].
  simpl in H. congruence.
Qed.

(** ** C6: the bound of [val] *)

(** C6.  The delimited emitter does not check the bound of [val].  Take a
    call of [parse_delim] whose tokenizer phase returns a table in which,
    after ASCII entries only, more than 10921 CJK entries share their first
    two bytes (4 + 3 * 10922 = 32770 > 32768): the traversal reaches a
    store past the end of [val].  Nothing tests the bound and nothing
    reports the condition; the call does not end with a flag to its caller,
    its behaviour is undefined from that store on. *)
Theorem group_past_val_is_not_checked P mem seed g s g1 pre grp post k :
  extract_words mem g = Ok (s, g1) ->
  wordtree g1 = pre ++ grp ++ post ->
  (4 <= length seed)%nat ->
  Forall (fun a => big5_entry P a = false) pre ->
  Forall (cjk_entry P) grp ->
  Forall (fun a => lead2 a = k) grp ->
  MAXVAL < 4 + 3 * Z.of_nat (length grp) ->
  parse_delim P mem seed g = Undef WritePastVal.
Proof.
  intros Hex Htab Hseed Hpre Hcjk Hlead Hbig.
  unfold parse_delim. rewrite Hex, bind_Ok.
  destruct seed as [|d0 [|d1 [|d2 [|d3 seed]]]]; simpl in Hseed; try lia.
  unfold memcpy_delim. rewrite bind_Ok.
  change (wordtree (set_delim ?d g1)) with (wordtree g1). rewrite Htab.
  by rewrite (walk_delim_past_val P _ pre grp post k).
Qed.

(** The text of 10922 units "A4 40 xx yy 20" (54610 bytes), on a freshly
    loaded program. *)
Lemma group_past_val_witness :
  parse_delim gcc_like (long_text (Z.to_nat 10922)) [1; 2; 3; 4] initial_globals
  = Undef WritePastVal.
Proof.
  destruct (extract_words_long_text (Z.to_nat 10922) initial_globals)
    as (g1 & Hex & Htab); [lia|].
  apply (group_past_val_is_not_checked gcc_like (long_text (Z.to_nat 10922))
           [1; 2; 3; 4] initial_globals (long_text (Z.to_nat 10922)) g1
           [] (same_lead_group (Z.to_nat 10922))
           (singles (query initial_globals) (Z.to_nat 10922)) [0xa4; 0x40]).
  - exact Hex.
  - exact Htab.
  - simpl. lia.
  - apply Forall_nil_2.
  - apply same_lead_group_cjk. lia.
  - apply same_lead_group_lead.
  - rewrite same_lead_group_length. unfold MAXVAL. lia.
Defined.

(** ** Runs of alphanumeric bytes *)

Lemma word_end_peek post :
  word_end post -> exists b, peek post 0 = Ok b /\ is_alnum b = false.
Proof.
  intros H. rewrite peek_0. eexists. split; [done|].
  destruct post as [|b post]; [done|]. by apply H.
Qed.

Lemma alnum_loop_S fuel s p xlen :
  alnum_loop (S fuel) s p xlen
  = b ← peek s p;
    if xlen =? INT_MAX then Undef IntOverflow
    else
      b' ← peek (if (0x40 <? b) && (b <? 0x5b) then <[p:=b + 32]> s else s) (S p);
      if is_alnum b' then
        alnum_loop fuel (if (0x40 <? b) && (b <? 0x5b) then <[p:=b + 32]> s else s)
          (S p) (xlen + 1)
      else Ok (if (0x40 <? b) && (b <? 0x5b) then <[p:=b + 32]> s else s,
               S p, xlen + 1).
Proof. done. Qed.

Lemma lower_at pre c rest :
  (if (0x40 <? c) && (c <? 0x5b) then <[length pre:=c + 32]> (pre ++ c :: rest)
   else pre ++ c :: rest)
  = pre ++ lower c :: rest.
Proof.
  unfold lower. destruct ((0x40 <? c) && (c <? 0x5b)); [|done].
  rewrite <- (Nat.add_0_r (length pre)). by rewrite insert_app_r.
Qed.

(** The loop of lines 182-186 over a run [c :: run] of alphanumeric bytes:
    each byte is replaced by its lower-case form, [p] ends right after the
    run and [xlen] has grown by its length. *)
Lemma alnum_loop_run run : forall fuel pre c post xlen,
  (length run < fuel)%nat ->
  Forall (fun b => is_alnum b = true) run -> word_end post ->
  0 <= xlen -> xlen + Z.of_nat (S (length run)) <= INT_MAX ->
  alnum_loop fuel (pre ++ (c :: run) ++ post) (length pre) xlen
  = Ok (pre ++ map lower (c :: run) ++ post,
        (length pre + S (length run))%nat,
        xlen + Z.of_nat (S (length run))).
Proof.
  induction run as [|c' run IH]; intros fuel pre c post xlen Hfuel Hrun Hend H0 Hmax;
    (destruct fuel as [|fuel]; [simpl in Hfuel; lia|]);
    rewrite alnum_loop_S;
    change ((c :: ?r) ++ post) with (c :: r ++ post);
    rewrite peek_app_r0, peek_0, bind_Ok, lower_at;
    (destruct (Z.eqb_spec xlen INT_MAX) as [->|_]; [simpl length in Hmax; lia|]).
  - replace (S (length pre)) with (length (pre ++ [lower c]))
      by (rewrite length_app; simpl; lia).
    change (pre ++ lower c :: [] ++ post) with (pre ++ [lower c] ++ post).
    rewrite app_assoc, peek_app_r0.
    destruct (word_end_peek post Hend) as (b & -> & Hb).
    rewrite bind_Ok, Hb, <- app_assoc, length_app.
    replace (length pre + length [lower c])%nat
      with (length pre + S (length (@nil Z)))%nat by (simpl; lia).
    done.
  - apply Forall_cons_1 in Hrun as [Hc' Hrun].
    replace (S (length pre)) with (length (pre ++ [lower c]))
      by (rewrite length_app; simpl; lia).
    change (pre ++ lower c :: (c' :: run) ++ post)
      with (pre ++ [lower c] ++ (c' :: run) ++ post).
    rewrite app_assoc, peek_app_r0.
    change (peek ((c' :: run) ++ post) 0) with (Ok c' : outcome Z).
    rewrite bind_Ok, Hc'.
    rewrite IH; [|simpl in Hfuel; lia|done..|lia|simpl length in *; lia].
    rewrite <- app_assoc, length_app.
    replace (length pre + length [lower c] + S (length run))%nat
      with (length pre + S (length (c' :: run)))%nat by (simpl; lia).
    replace (xlen + 1 + Z.of_nat (S (length run)))
      with (xlen + Z.of_nat (S (length (c' :: run)))) by (simpl length; lia).
    done.
Qed.

Lemma strncpy_bytes_prefix w rest :
  Forall (fun b => b <> 0) w -> strncpy_bytes (w ++ rest) (length w) = w.
Proof.
  induction 1 as [|b w Hb _ IH]; [done|]. simpl.
  destruct (Z.eqb_spec b 0); [done|]. by rewrite IH.
Qed.

Lemma alnum_tok_run pre w post :
  Forall (fun b => b <> 0) w ->
  alnum_tok (pre ++ w ++ post) (length pre) (length w) = w.
Proof.
  intros Hw. unfold alnum_tok.
  by rewrite drop_app_length, strncpy_bytes_prefix, c_str_nonzero.
Qed.

Lemma lower_alnum_nonzero run :
  Forall (fun b => is_alnum b = true) run ->
  Forall (fun b => b <> 0) (map lower run).
Proof.
  intros H. apply Forall_map. eapply Forall_impl; [exact H|].
  intros b Hb%is_alnum_range. unfold lower. simpl.
  destruct ((0x40 <? b) && (b <? 0x5b)); lia.
Qed.

(** Lines 179-194 on a run of [n] alphanumeric bytes: nothing is inserted
    for [n = 1]; the run, in lower case, is inserted for [2 <= n <= 31];
    for [n >= 32] the terminator is stored at [key[32]], past the array. *)
Lemma alnum_branch_t_run pre c run post t :
  Forall (fun b => is_alnum b = true) (c :: run) -> word_end post ->
  Z.of_nat (S (length run)) <= INT_MAX ->
  alnum_branch_t (pre ++ (c :: run) ++ post) (length pre) t
  = if (length run =? 0)%nat then
      Ok (pre ++ map lower (c :: run) ++ post, (length pre + 1)%nat, t)
    else if (length run <=? 30)%nat then
      Ok (pre ++ map lower (c :: run) ++ post,
          (length pre + S (length run))%nat,
          addentry (map lower (c :: run)) t)
    else Undef WritePastKey.
Proof.
  intros Hrun Hend Hmax. unfold alnum_branch_t.
  pose proof Hrun as Hrun'. apply Forall_cons_1 in Hrun' as [_ Hrun'].
  rewrite alnum_loop_run; [|rewrite !length_app; simpl; lia|done..|lia|lia].
  rewrite bind_Ok.
  change (0 + Z.of_nat (S (length run))) with (Z.of_nat (S (length run))).
  destruct (Nat.eqb_spec (length run) 0) as [H0|H0].
  - rewrite H0. simpl. do 3 f_equal.
  - destruct (Z.ltb_spec 1 (Z.of_nat (S (length run)))); [|lia].
    destruct (Nat.leb_spec (length run) 30) as [H30|H30].
    + unfold MAXKEY.
      destruct (Z.ltb_spec 32 (Z.of_nat (S (length run)))); [lia|].
      destruct (Z.ltb_spec (Z.of_nat (S (length run))) 32); [|lia].
      rewrite Nat2Z.id.
      replace (S (length run)) with (length (map lower (c :: run)))
        by (by rewrite length_map).
      rewrite alnum_tok_run by (by apply lower_alnum_nonzero).
      by rewrite length_map.
    + unfold MAXKEY.
      destruct (Z.ltb_spec 32 (Z.of_nat (S (length run)))) as [|Hle]; [done|].
      destruct (Z.ltb_spec (Z.of_nat (S (length run))) 32); [lia|done].
Qed.

Lemma alnum_head c :
  is_alnum c = true -> (c =? 0) = false /\ is_big5 c = false.
Proof.
  intros H%is_alnum_range. unfold is_big5.
  split; [apply Z.eqb_neq|apply Z.ltb_ge]; lia.
Qed.

(** One iteration of the loop of [extract_words] at the head of a run of
    alphanumeric bytes. *)
Lemma scan_alnum_run fuel pre c run post g :
  Forall (fun b => is_alnum b = true) (c :: run) -> word_end post ->
  Z.of_nat (S (length run)) <= INT_MAX ->
  exists k',
    scan (S fuel) (pre ++ (c :: run) ++ post) (length pre) g
    = '(s, p, g) ← lift_tok k' g
                     <$> alnum_branch_t (pre ++ (c :: run) ++ post) (length pre)
                           (wordtree g);
      scan fuel s p g.
Proof.
  intros Hrun Hend Hmax.
  destruct (alnum_branch_tokens (pre ++ (c :: run) ++ post) (length pre) g)
    as (k' & Hb).
  exists k'. rewrite scan_S, peek_app_r0, peek_0, bind_Ok. simpl hd.
  apply Forall_cons_1 in Hrun as [Hc _].
  destruct (alnum_head c Hc) as [-> ->]. by rewrite Hc, Hb.
Qed.

(** X1.  A run of 2 to 31 alphanumeric bytes, ended by the end of the
    string or a byte [is_alnum] rejects.  The code of lines 179-194, entered
    at the head of the run, returns with each byte of the run replaced in
    place by its lower-case form, with [p] right after the run, and with
    the table in which [addentry] has been called once, on the run in lower
    case.  The iteration of the loop at the head of the run is that code,
    and the loop goes on from its result. *)
Theorem ascii_run_one_token (pre run post : list Z) (g : globals) :
  Forall (fun b => is_alnum b = true) run -> word_end post ->
  (2 <= length run <= 31)%nat ->
  exists k',
    let s' := pre ++ map lower run ++ post in
    let p' := (length pre + length run)%nat in
    let g' := with_tok k' (addentry (map lower run) (wordtree g)) g in
    alnum_branch (pre ++ run ++ post) (length pre) g = Ok (s', p', g') /\
    forall fuel,
      scan (S fuel) (pre ++ run ++ post) (length pre) g = scan fuel s' p' g'.
Proof.
  intros Hrun Hend Hlen. destruct run as [|c run]; simpl length in Hlen; [lia|].
  destruct (alnum_branch_tokens (pre ++ (c :: run) ++ post) (length pre) g)
    as (k' & Hb).
  rewrite alnum_branch_t_run in Hb; [|done..|unfold INT_MAX; lia].
  destruct (Nat.eqb_spec (length run) 0); [lia|].
  destruct (Nat.leb_spec (length run) 30); [|lia].
  exists k'. split; [exact Hb|]. intros fuel.
  rewrite scan_S, peek_app_r0, peek_0, bind_Ok. simpl hd.
  apply Forall_cons_1 in Hrun as [Hc _].
  destruct (alnum_head c Hc) as [-> ->]. by rewrite Hc, Hb.
Qed.

Lemma ascii_run_one_token_witness :
  exists k',
    alnum_branch [0x48; 0x69; 0x32; 0x20] 0 initial_globals
    = Ok ([0x68; 0x69; 0x32; 0x20], 3%nat,
          with_tok k' [ {| word := [0x68; 0x69; 0x32]; freq := 1 |} ]
            initial_globals).
Proof.
  destruct (ascii_run_one_token [] [0x48; 0x69; 0x32] [0x20] initial_globals)
    as (k' & H & _).
  - repeat constructor.
  - intros b [= <-]. reflexivity.
  - simpl. lia.
  - exists k'. exact H.
Defined.

(** X2.  A single alphanumeric byte between other bytes is put in lower
    case and gives no token: the table and [key] are left as they were. *)
Theorem single_alnum_byte_no_token (fuel : nat) (pre post : list Z) (c : Z)
    (g : globals) :
  is_alnum c = true -> word_end post ->
  scan (S fuel) (pre ++ [c] ++ post) (length pre) g
  = scan fuel (pre ++ [lower c] ++ post) (length pre + 1) g.
Proof.
  intros Hc Hend. rewrite scan_S, peek_app_r0, peek_0, bind_Ok. simpl hd.
  destruct (alnum_head c Hc) as [-> ->]. rewrite Hc.
  unfold alnum_branch.
  rewrite (alnum_loop_run [] _ pre c post 0);
    [|rewrite !length_app; simpl; lia|done..|lia|unfold INT_MAX; simpl; lia].
  by rewrite bind_Ok.
Qed.

Lemma single_alnum_byte_witness :
  scan 3 [0x20; 0x41; 0x20] 1 initial_globals
  = scan 2 [0x20; 0x61; 0x20] 2 initial_globals.
Proof.
  apply (single_alnum_byte_no_token 2 [0x20] [0x20] 0x41 initial_globals).
  - reflexivity.
  - intros b [= <-]. reflexivity.
Defined.

(** X3.  A run of 32 or more alphanumeric bytes: after clamping [xlen] to
    [MAXKEY], [key[xlen] = 0] stores at [key[32]], one past the 32 bytes of
    [key].  The run is not cut to a token of 32 bytes; the behaviour of the
    call is undefined. *)
Theorem long_ascii_run_past_key (fuel : nat) (pre run post : list Z)
    (g : globals) :
  Forall (fun b => is_alnum b = true) run -> word_end post ->
  (32 <= length run)%nat -> Z.of_nat (length run) <= INT_MAX ->
  scan (S fuel) (pre ++ run ++ post) (length pre) g = Undef WritePastKey.
Proof.
  intros Hrun Hend Hlen Hmax. destruct run as [|c run]; simpl length in Hlen; [lia|].
  destruct (scan_alnum_run fuel pre c run post g Hrun Hend) as (k' & ->); [done|].
  rewrite alnum_branch_t_run by done.
  destruct (Nat.eqb_spec (length run) 0); [lia|].
  destruct (Nat.leb_spec (length run) 30); [lia|done].
Qed.

Lemma long_ascii_run_witness :
  extract_words (repeat 0x61 32) initial_globals = Undef WritePastKey.
Proof.
  apply (long_ascii_run_past_key 32 [] (repeat 0x61 32) []
           (set_wordtree tree_init initial_globals)).
  - repeat constructor.
  - intros b [=].
  - simpl. lia.
  - simpl. unfold INT_MAX. lia.
Defined.

(** ** Further properties of the tokenizer *)

Lemma chars_nonzero cs :
  Forall (fun c : char2 => c.1 <> 0 /\ c.2 <> 0) cs ->
  Forall (fun b => b <> 0) (chars cs).
Proof.
  induction 1 as [|c cs [H1 H2] _ IH]; [apply Forall_nil_2|].
  rewrite chars_cons. by repeat apply Forall_cons_2.
Qed.

Lemma scan_t_end fuel s q t : scan_t (S fuel) s (length s) q t = Ok (s, t).
Proof.
  rewrite scan_t_S. rewrite <- (app_nil_r s) at 1.
  by rewrite peek_app_r0.
Qed.

(** X4.  The scenario of the specification, for any three ideographs
    [c1 c2 c3]: the table [extract_words] builds holds [c1c2], [c2c3] and
    the unigram of [c3] when [query] is 0, and [c1c2], [c2c3] alone when
    [query] is set.  The text is left as it was. *)
Theorem three_ideographs_tokens (c1 c2 c3 : char2) (g : globals) :
  ideograph c1 -> ideograph c2 -> ideograph c3 ->
  exists k',
    extract_words (chars [c1; c2; c3]) g
    = Ok (chars [c1; c2; c3],
          with_tok k'
            (insert_all
               ([bigram c1 c2; bigram c2 c3]
                ++ (if query g =? 0 then [unigram c3] else []))
               tree_init)
            g).
Proof.
  intros H1 H2 H3.
  destruct (extract_words_tokens (chars [c1; c2; c3]) g) as (k' & ->).
  exists k'. unfold tokenize.
  rewrite c_str_nonzero.
  2:{ apply chars_nonzero. repeat apply Forall_cons_2; try apply Forall_nil_2.
      - by destruct (ideograph_lead c1 H1) as (_ & ? & ?).
      - by destruct (ideograph_lead c2 H2) as (_ & ? & ?).
      - by destruct (ideograph_lead c3 H3) as (_ & ? & ?). }
  change (length (chars [c1; c2; c3])) with 6%nat.
  rewrite scan_t_S.
  change (peek (chars [c1; c2; c3]) 0) with (Ok c1.1 : outcome Z).
  rewrite bind_Ok.
  destruct H1 as [H1 H1']. pose proof H1 as H1a.
  assert ((c1.1 =? 0) = false) as -> by (apply Z.eqb_neq; lia).
  assert (is_big5 c1.1 = true) as -> by (apply Z.ltb_lt; lia).
  assert (big5_branch_t (chars [c1; c2; c3]) 0 (query g) tree_init
          = Ok (length (chars [c1; c2; c3]),
                insert_all (run_tokens (query g) [c1; c2; c3]) tree_init)) as ->.
  { apply (big5_branch_t_run [] [] [c1; c2; c3] [] (query g) tree_init).
    - by left.
    - by repeat apply Forall_cons_2.
    - simpl. lia.
    - by intros b [=]. }
  rewrite bind_Ok. by rewrite scan_t_end.
Qed.

Lemma three_ideographs_witness :
  exists k',
    extract_words [0xa4; 0x40; 0xa4; 0x41; 0xa4; 0x42] initial_globals
    = Ok ([0xa4; 0x40; 0xa4; 0x41; 0xa4; 0x42],
          with_tok k'
            [ {| word := [0xa4; 0x40; 0xa4; 0x41]; freq := 1 |};
              {| word := [0xa4; 0x41; 0xa4; 0x42]; freq := 1 |};
              {| word := [0xa4; 0x42; 0x21; 0x21]; freq := 1 |} ]
            initial_globals).
Proof.
  apply (three_ideographs_tokens (0xa4, 0x40) (0xa4, 0x41) (0xa4, 0x42)
           initial_globals); split; simpl; lia.
Defined.

Lemma symbol_lead (sy : char2) :
  symbol sy ->
  (sy.1 =? 0) = false /\ is_big5 sy.1 = true /\ is_big5word sy.1 = false.
Proof.
  intros [H1 H2]. unfold is_big5, is_big5word.
  split_and!; [apply Z.eqb_neq|apply Z.ltb_lt|apply Z.ltb_ge]; lia.
Qed.

Lemma ideograph_head (c : char2) :
  ideograph c -> (c.1 =? 0) = false /\ is_big5 c.1 = true.
Proof.
  intros [H1 H2]. unfold is_big5.
  split; [apply Z.eqb_neq|apply Z.ltb_lt]; lia.
Qed.

Lemma big5_branch_t_single pre c post q t :
  ideograph c -> run_end post ->
  big5_branch_t (pre ++ chars [c] ++ post) (length pre) q t
  = Ok ((length pre + 2)%nat, addentry (unigram c) t).
Proof.
  intros Hc Hend. destruct (ideograph_lead c Hc) as (Hw & H1 & H2).
  unfold big5_branch_t.
  pose proof (peek_after_chars pre [c] post) as Hp.
  change (length pre + 2 * length [c])%nat with (length pre + 2)%nat in Hp.
  rewrite Hp. destruct (run_end_peek post Hend) as (b & -> & Hbw).
  rewrite bind_Ok, Hbw.
  replace (length pre + 2 - 2)%nat with (length pre) by lia.
  rewrite peek_lead, bind_Ok, Hw, single_tok_at by done.
  reflexivity.
Qed.

Lemma big5_branch_t_symbol pre sy post q t :
  symbol sy -> run_end post ->
  big5_branch_t (pre ++ chars [sy] ++ post) (length pre) q t
  = Ok ((length pre + 2)%nat, t).
Proof.
  intros Hsy Hend. destruct (symbol_lead sy Hsy) as (_ & _ & Hw).
  unfold big5_branch_t.
  pose proof (peek_after_chars pre [sy] post) as Hp.
  change (length pre + 2 * length [sy])%nat with (length pre + 2)%nat in Hp.
  rewrite Hp. destruct (run_end_peek post Hend) as (b & -> & Hbw).
  rewrite bind_Ok, Hbw.
  replace (length pre + 2 - 2)%nat with (length pre) by lia.
  by rewrite peek_lead, bind_Ok, Hw.
Qed.

Lemma big5_branch_t_symbol_single pre sy c post q t :
  symbol sy -> ideograph c -> run_end post ->
  big5_branch_t (pre ++ chars [sy; c] ++ post) (length pre) q t
  = Ok ((length pre + 4)%nat, addentry (unigram c) t).
Proof.
  intros Hsy Hc Hend.
  set (s := pre ++ chars [sy; c] ++ post).
  assert (peek s (length pre) = Ok sy.1) as Hp0
    by apply (peek_lead pre sy (chars [c] ++ post)).
  destruct (symbol_lead sy Hsy) as (_ & _ & Hwsy).
  destruct (ideograph_lead c Hc) as (Hw & H1 & H2).
  assert (s = (pre ++ chars [sy]) ++ chars [c] ++ post) as Hs
    by (unfold s; by rewrite <- app_assoc).
  assert (length pre + 2 = length (pre ++ chars [sy]))%nat as Hl
    by (by rewrite length_app).
  assert (peek s (length pre + 2) = Ok c.1) as Hp2
    by (rewrite Hs, Hl; apply peek_lead).
  unfold big5_branch_t. rewrite Hp2, bind_Ok, Hw.
  replace (length pre + 2 - 2)%nat with (length pre) by lia.
  rewrite Hp0, bind_Ok, Hwsy.
  assert (bigram_loop_t (length s) s (length pre + 2) t
          = Ok ((length pre + 4)%nat, t)) as ->.
  { rewrite Hs at 2. rewrite Hl.
    rewrite (bigram_loop_t_run [] _ (pre ++ chars [sy]) c post); try done.
    - do 2 f_equal. rewrite <- Hl. simpl. lia.
    - rewrite Hs, !length_app. simpl. lia. }
  rewrite bind_Ok.
  replace (length pre + 4 - 4)%nat with (length pre) by lia.
  replace (length pre + 4 - 2)%nat with (length (pre ++ chars [sy]))
    by (rewrite <- Hl; lia).
  rewrite Hp0. rewrite Hs, single_tok_at by done.
  destruct (q =? 0); [done|]. by rewrite bind_Ok, Hwsy.
Qed.

(** X5.  An ideograph with no ideograph after it, met by the loop of
    [extract_words] (so with no ideograph before it either): the code of
    lines 147-176 returns two bytes further with the table in which
    [addentry] has been called once, on the unigram of the character,
    whatever [query] holds.  The iteration of the loop at the character is
    that code, and the loop goes on from its result. *)
Theorem isolated_ideograph_unigram (pre : list Z) (c : char2)
    (post : list Z) (g : globals) :
  ideograph c -> run_end post ->
  exists k',
    let s := pre ++ chars [c] ++ post in
    let g' := with_tok k' (addentry (unigram c) (wordtree g)) g in
    big5_branch s (length pre) g = Ok ((length pre + 2)%nat, g') /\
    forall fuel,
      scan (S fuel) s (length pre) g = scan fuel s (length pre + 2) g'.
Proof.
  intros Hc Hend.
  destruct (big5_branch_tokens (pre ++ chars [c] ++ post) (length pre) g)
    as (k' & Hb).
  rewrite (big5_branch_t_single pre c post) in Hb by done.
  exists k'. split; [exact Hb|]. intros fuel.
  rewrite scan_S, peek_lead, bind_Ok.
  destruct (ideograph_head c Hc) as [-> ->]. by rewrite Hb.
Qed.

Lemma isolated_ideograph_witness :
  exists k',
    big5_branch [0x41; 0xa4; 0x40; 0x20] 1 (set_query 1 initial_globals)
    = Ok (3%nat,
          with_tok k' [ {| word := [0xa4; 0x40; 0x21; 0x21]; freq := 1 |} ]
            (set_query 1 initial_globals)).
Proof.
  destruct (isolated_ideograph_unigram [0x41] (0xa4, 0x40) [0x20]
              (set_query 1 initial_globals)) as (k' & H & _).
  - split; simpl; lia.
  - intros b [= <-]. lia.
  - exists k'. exact H.
Defined.

(** X6.  A symbol character (lead byte 0xa1 .. 0xa3) with no ideograph
    after it is stepped over: nothing is inserted and no global changes. *)
Theorem symbol_character_no_token (fuel : nat) (pre : list Z) (sy : char2)
    (post : list Z) (g : globals) :
  symbol sy -> run_end post ->
  scan (S fuel) (pre ++ chars [sy] ++ post) (length pre) g
  = scan fuel (pre ++ chars [sy] ++ post) (length pre + 2) g.
Proof.
  intros Hsy Hend. rewrite scan_S, peek_lead, bind_Ok.
  destruct (symbol_lead sy Hsy) as (-> & -> & Hw).
  unfold big5_branch.
  pose proof (peek_after_chars pre [sy] post) as Hp.
  change (length pre + 2 * length [sy])%nat with (length pre + 2)%nat in Hp.
  rewrite Hp. destruct (run_end_peek post Hend) as (b & -> & Hbw).
  rewrite bind_Ok, Hbw.
  replace (length pre + 2 - 2)%nat with (length pre) by lia.
  by rewrite peek_lead, bind_Ok, Hw, bind_Ok.
Qed.

Lemma symbol_character_witness :
  scan 4 [0xa1; 0x40; 0x20] 0 initial_globals
  = scan 3 [0xa1; 0x40; 0x20] 2 initial_globals.
Proof.
  apply (symbol_character_no_token 3 [] (0xa1, 0x40) [0x20] initial_globals).
  - split; simpl; lia.
  - intros b [= <-]. lia.
Defined.

(** X7.  A symbol character followed by one ideograph and no second one:
    the code of lines 147-176, entered at the symbol, returns four bytes
    further with the table in which [addentry] has been called once, on the
    unigram of the ideograph, whether or not [query] is set.  The test of
    line 162 reads the character two places before the terminator, here
    the symbol, not the character right before it.  The iteration of the
    loop at the symbol is that code, and the loop goes on from its
    result. *)
Theorem symbol_then_ideograph_unigram (pre : list Z) (sy c : char2)
    (post : list Z) (g : globals) :
  symbol sy -> ideograph c -> run_end post ->
  exists k',
    let s := pre ++ chars [sy; c] ++ post in
    let g' := with_tok k' (addentry (unigram c) (wordtree g)) g in
    big5_branch s (length pre) g = Ok ((length pre + 4)%nat, g') /\
    forall fuel,
      scan (S fuel) s (length pre) g = scan fuel s (length pre + 4) g'.
Proof.
  intros Hsy Hc Hend.
  destruct (big5_branch_tokens (pre ++ chars [sy; c] ++ post) (length pre) g)
    as (k' & Hb).
  rewrite (big5_branch_t_symbol_single pre sy c post) in Hb by done.
  exists k'. split; [exact Hb|]. intros fuel. rewrite scan_S.
  assert (peek (pre ++ chars [sy; c] ++ post) (length pre) = Ok sy.1) as ->
    by apply (peek_lead pre sy (chars [c] ++ post)).
  rewrite bind_Ok.
  destruct (symbol_lead sy Hsy) as (-> & -> & _). by rewrite Hb.
Qed.

Lemma symbol_then_ideograph_witness :
  exists k',
    big5_branch [0xa1; 0x40; 0xa4; 0x40; 0x20] 0 (set_query 1 initial_globals)
    = Ok (4%nat,
          with_tok k' [ {| word := [0xa4; 0x40; 0x21; 0x21]; freq := 1 |} ]
            (set_query 1 initial_globals)).
Proof.
  destruct (symbol_then_ideograph_unigram [] (0xa1, 0x40) (0xa4, 0x40) [0x20]
              (set_query 1 initial_globals)) as (k' & H & _).
  - split; simpl; lia.
  - split; simpl; lia.
  - intros b [= <-]. lia.
  - exists k'. exact H.
Defined.

(** The examples of the specification: "Hello World" gives the tokens
    "hello" and "world", once each, and "Hi hi HI" the token "hi" three
    times; the text is put in lower case in place. *)
Theorem hello_world_tokens (g : globals) :
  (exists k',
     extract_words [0x48; 0x65; 0x6c; 0x6c; 0x6f; 0x20;
                    0x57; 0x6f; 0x72; 0x6c; 0x64] g
     = Ok ([0x68; 0x65; 0x6c; 0x6c; 0x6f; 0x20; 0x77; 0x6f; 0x72; 0x6c; 0x64],
           with_tok k'
             [ {| word := [0x68; 0x65; 0x6c; 0x6c; 0x6f]; freq := 1 |};
               {| word := [0x77; 0x6f; 0x72; 0x6c; 0x64]; freq := 1 |} ] g)) /\
  (exists k',
     extract_words [0x48; 0x69; 0x20; 0x68; 0x69; 0x20; 0x48; 0x49] g
     = Ok ([0x68; 0x69; 0x20; 0x68; 0x69; 0x20; 0x68; 0x69],
           with_tok k' [ {| word := [0x68; 0x69]; freq := 3 |} ] g)).
Proof.
  split.
  - destruct (extract_words_tokens
                [0x48; 0x65; 0x6c; 0x6c; 0x6f; 0x20; 0x57; 0x6f; 0x72; 0x6c; 0x64] g)
      as (k' & ->).
    by exists k'.
  - destruct (extract_words_tokens
                [0x48; 0x69; 0x20; 0x68; 0x69; 0x20; 0x48; 0x49] g) as (k' & ->).
    by exists k'.
Qed.

(** ** Further properties of the emitters *)

(** X8.  The pair emitter makes one invocation per entry.  For a CJK entry
    the key is its first two bytes and the value the bytes after them; for
    an ASCII entry the key is the token and the value two blanks.  The
    third argument is the capped frequency. *)
Theorem pair_emitter_calls (P : platform) (en : entry) (g : globals) :
  (cjk_entry P en ->
   fst <$> cb_pair P en g
   = Ok [ {| c_key := lead2 en; c_val := Bytes (drop 2 (word en));
             c_len := freq_cap en |} ]) /\
  (big5_entry P en = false ->
   fst <$> cb_pair P en g
   = Ok [ {| c_key := word en; c_val := Bytes [0x20; 0x20];
             c_len := freq_cap en |} ]).
Proof.
  pose proof (cb_pair_refines P en g) as Href. split.
  - intros Hen.
    destruct (cjk_entry_word P en Hen) as (w0 & w1 & w2 & w3 & Hw & H0 & H1 & Hb).
    assert (pair_calls P en
            = Ok [ {| c_key := lead2 en; c_val := Bytes (drop 2 (word en));
                      c_len := freq_cap en |} ]) as Hp.
    { unfold pair_calls, lead2. rewrite Hw. simpl. rewrite Hb. simpl.
      apply Z.eqb_neq in H0, H1. by rewrite H0, H1. }
    rewrite Hp in Href.
    destruct (cb_pair P en g) as [[out g']|]; [|done].
    destruct Href as [Ho _]. simpl in *. by subst.
  - intros Hen.
    assert (pair_calls P en
            = Ok [ {| c_key := word en; c_val := Bytes [0x20; 0x20];
                      c_len := freq_cap en |} ]) as Hp.
    { unfold pair_calls. rewrite peek_0, bind_Ok.
      unfold big5_entry in Hen. by rewrite Hen. }
    rewrite Hp in Href.
    destruct (cb_pair P en g) as [[out g']|]; [|done].
    destruct Href as [Ho _]. simpl in *. by subst.
Qed.

(** X9.  The delimited emitter on an ASCII entry: one invocation at once,
    with the token as key and, as value, the four delimiter bytes, two
    blanks and the capped frequency, seven bytes in all.  [last] is left as
    it was. *)
Theorem delimited_ascii_record (P : platform) (en : entry) (g : globals) :
  big5_entry P en = false ->
  exists g',
    cb_delim P en g
    = Ok ([ {| c_key := word en;
               c_val := Bytes (delim_bytes g ++ [0x20; 0x20; freq_cap en]);
               c_len := 7 |} ], g') /\
    last g' = last g.
Proof.
  intros Hen. unfold cb_delim. rewrite peek_0, bind_Ok.
  unfold big5_entry in Hen. rewrite Hen.
  eexists. split; reflexivity.
Qed.

Lemma delimited_ascii_record_witness :
  exists g',
    cb_delim gcc_like {| word := [0x68; 0x69]; freq := 2 |} initial_globals
    = Ok ([ {| c_key := [0x68; 0x69];
               c_val := Bytes [0x3f; 0x3f; 0x3f; 0x3f; 0x20; 0x20; 2];
               c_len := 7 |} ], g') /\
    last g' = None.
Proof.
  apply (delimited_ascii_record gcc_like {| word := [0x68; 0x69]; freq := 2 |}
           initial_globals).
  reflexivity.
Defined.

(** ** Further properties of [extract_words] *)

(** X10.  The loops of [extract_words] end: on every input the call
    returns or reaches one of the faults of the C code; the bound the
    embedding puts on the number of iterations, the length of the string
    plus one, is never what stops it. *)
Theorem tokenizer_terminates (mem : list Z) (g : globals) :
  fuelled (fun _ => True) (extract_words mem g).
Proof.
  pose proof (extract_words_fuel mem g) as H.
  destruct (extract_words mem g) as [r|f]; simpl; [done|].
  intros ->. by apply H.
Qed.

(** X11.  The string and the table [extract_words] leaves depend on the
    text and on [query] only: not on what [key], [val], [delim], [last] or
    the previous table held. *)
Theorem tokens_depend_on_text_and_query (mem : list Z) (g g' : globals) :
  query g = query g' ->
  (fun r => (r.1, wordtree r.2)) <$> extract_words mem g
  = (fun r => (r.1, wordtree r.2)) <$> extract_words mem g'.
Proof.
  intros Hq.
  destruct (extract_words_tokens mem g) as (k & ->).
  destruct (extract_words_tokens mem g') as (k' & ->).
  rewrite Hq. by destruct (tokenize (query g') mem) as [[s t]|].
Qed.

Lemma tokens_depend_witness :
  (fun r => (r.1, wordtree r.2)) <$> extract_words sample_text initial_globals
  = (fun r => (r.1, wordtree r.2))
      <$> extract_words sample_text
            (set_key (fun _ => 0x41)
               (set_wordtree sample_group (set_last (Some {| word := [0x41]; freq := 7 |})
                                             initial_globals))).
Proof.
  apply (tokens_depend_on_text_and_query sample_text initial_globals).
  reflexivity.
Defined.

(** ** The text after a run, tokenized again

    [extract_words] puts the alphanumeric runs of its input in lower case,
    in place.  A second call on the same buffer reads the text as the first
    call left it; it builds the same table and leaves the text as it is. *)

Lemma peek_nth s i b : peek s i = Ok b -> (i <= length s)%nat /\ b = nth i s 0.
Proof.
  unfold peek. rewrite nth_lookup.
  destruct (s !! i) as [x|] eqn:E; simpl.
  - intros [= <-]. apply lookup_lt_Some in E. split; [lia|done].
  - destruct (decide (i = length s)); [|done]. intros [= <-]. split; [lia|done].
Qed.

Lemma peek_sim s s2 i :
  length s2 = length s -> nth i s2 0 = nth i s 0 -> peek s2 i = peek s i.
Proof.
  intros Hlen Hi. unfold peek. rewrite !nth_lookup in Hi. rewrite Hlen.
  destruct (s !! i) as [x|] eqn:E, (s2 !! i) as [x2|] eqn:E2; simpl in *.
  - by subst.
  - apply lookup_lt_Some in E. apply lookup_ge_None in E2. lia.
  - apply lookup_lt_Some in E2. apply lookup_ge_None in E. lia.
  - done.
Qed.

Lemma nth_ext_eq (s s2 : list Z) :
  length s2 = length s -> (forall i, nth i s2 0 = nth i s 0) -> s2 = s.
Proof.
  intros Hlen H. apply (nth_ext _ _ 0 0); [done|]. intros i _. apply H.
Qed.

Lemma lower_lower b : lower (lower b) = lower b.
Proof.
  unfold lower.
  destruct (Z.ltb_spec 0x40 b), (Z.ltb_spec b 0x5b); simpl;
    destruct (Z.ltb_spec 0x40 (b + 32)), (Z.ltb_spec (b + 32) 0x5b); simpl;
    try lia;
    destruct (Z.ltb_spec 0x40 b), (Z.ltb_spec b 0x5b); simpl; lia.
Qed.

Lemma lower_range b : lower b = b \/ (0x41 <= b <= 0x5a /\ lower b = b + 32).
Proof.
  unfold lower.
  destruct (Z.ltb_spec 0x40 b), (Z.ltb_spec b 0x5b); simpl; lia.
Qed.

Lemma lowered_class b2 b :
  lowered b2 b ->
  (b2 =? 0) = (b =? 0) /\ is_big5 b2 = is_big5 b /\
  is_big5word b2 = is_big5word b /\ is_alnum b2 = is_alnum b /\
  lower b2 = lower b.
Proof.
  intros [-> | ->]; [done|].
  destruct (lower_range b) as [H | [Hb H]]; [by rewrite !H|].
  rewrite lower_lower, H.
  assert (lower (b + 32) = b + 32) as Hl.
  { unfold lower.
    destruct (Z.ltb_spec 0x40 (b + 32)), (Z.ltb_spec (b + 32) 0x5b);
      simpl; lia. }
  unfold is_big5, is_big5word, is_alnum.
  split_and!; try done.
  - destruct (Z.eqb_spec (b + 32) 0), (Z.eqb_spec b 0); try done; lia.
  - destruct (Z.ltb_spec 0xa0 (b + 32)), (Z.ltb_spec 0xa0 b); try done; lia.
  - destruct (Z.ltb_spec 0xa3 (b + 32)), (Z.ltb_spec 0xa3 b); try done; lia.
  - destruct (Z.ltb_spec 0x60 (b + 32)), (Z.ltb_spec (b + 32) 0x7b),
      (Z.ltb_spec 0x40 b), (Z.ltb_spec b 0x5b); simpl; lia.
Qed.

Lemma lowered_refl b : lowered b b.
Proof. by left. Qed.

Lemma lowered_trans b3 b2 b : lowered b3 b2 -> lowered b2 b -> lowered b3 b.
Proof.
  intros [-> | ->] [-> | ->]; [by left|by right|by right|right; apply lower_lower].
Qed.

Lemma strncpy_bytes_ext n : forall src src',
  (forall i, (i < n)%nat -> nth i src' 0 = nth i src 0) ->
  strncpy_bytes src' n = strncpy_bytes src n.
Proof.
  induction n as [|n IH]; intros src src' H; [done|].
  pose proof (H 0%nat ltac:(lia)) as H0.
  assert (forall i, (i < n)%nat -> nth i (tail src') 0 = nth i (tail src) 0) as Ht.
  { intros i Hi. specialize (H (S i) ltac:(lia)).
    destruct src as [|x src], src' as [|x' src']; simpl in *;
      try done; by destruct i. }
  destruct src as [|x src], src' as [|x' src']; simpl in *; subst; try done.
  destruct (x =? 0); [done|]. f_equal. by apply IH.
Qed.

Lemma nth_drop_0 (s : list Z) q i : nth i (drop q s) 0 = nth (q + i) s 0.
Proof. by rewrite !nth_lookup, lookup_drop. Qed.

(** A token depends on the bytes it is copied from only. *)
Lemma tok_ext s s2 q n :
  (forall i, (q <= i < q + n)%nat -> nth i s2 0 = nth i s 0) ->
  strncpy_bytes (drop q s2) n = strncpy_bytes (drop q s) n.
Proof.
  intros H. apply strncpy_bytes_ext. intros i Hi.
  rewrite !nth_drop_0. apply H. lia.
Qed.

(** The string after the step of line 183 at [p]. *)
Lemma lower_step_nth s p i :
  nth i (if (0x40 <? nth p s 0) && (nth p s 0 <? 0x5b)
         then <[p:=nth p s 0 + 32]> s else s) 0
  = if decide (i = p) then lower (nth p s 0) else nth i s 0.
Proof.
  unfold lower. destruct ((0x40 <? nth p s 0) && (nth p s 0 <? 0x5b)) eqn:E.
  - rewrite !nth_lookup. destruct (decide (i = p)) as [->|Hne].
    + destruct (decide (p < length s)%nat) as [Hlt|Hge].
      * by rewrite list_lookup_insert_eq.
      * exfalso. rewrite nth_overflow in E by lia. discriminate E.
    + by rewrite list_lookup_insert_ne.
  - by destruct (decide (i = p)) as [->|].
Qed.

Lemma lower_step_length (s : list Z) p b :
  length (if (0x40 <? b) && (b <? 0x5b) then <[p:=b + 32]> s else s) = length s.
Proof. destruct ((0x40 <? b) && (b <? 0x5b)); [apply length_insert|done]. Qed.

(** What the loop of lines 182-186 does to the string: the bytes from [p]
    up to where it stops are put in lower case, the others are kept. *)
Lemma alnum_loop_frame fuel : forall s p x s1 p1 x1,
  alnum_loop fuel s p x = Ok (s1, p1, x1) ->
  length s1 = length s /\ (p < p1)%nat /\ x1 = x + Z.of_nat (p1 - p) /\
  forall i, nth i s1 0
            = if decide (p <= i < p1)%nat then lower (nth i s 0) else nth i s 0.
Proof.
  induction fuel as [|fuel IH]; intros s p x s1 p1 x1 H; [discriminate H|].
  rewrite alnum_loop_S in H.
  destruct (peek s p) as [b|] eqn:Eb; [|discriminate H]. rewrite bind_Ok in H.
  apply peek_nth in Eb as [Hp ->].
  destruct (x =? INT_MAX); [discriminate H|].
  set (s' := if (0x40 <? nth p s 0) && (nth p s 0 <? 0x5b)
             then <[p:=nth p s 0 + 32]> s else s) in H.
  assert (length s' = length s) as Hlen' by apply lower_step_length.
  assert (forall i, nth i s' 0
                    = if decide (i = p) then lower (nth p s 0) else nth i s 0)
    as Hn' by (intros i; apply lower_step_nth).
  destruct (peek s' (S p)) as [b'|] eqn:Eb'; [|discriminate H].
  rewrite bind_Ok in H. destruct (is_alnum b').
  - apply IH in H as (Hlen & Hlt & Hx & Hn).
    split_and!; [congruence|lia|lia|].
    intros i. rewrite Hn, Hn'.
    destruct (decide (S p <= i < p1)%nat), (decide (i = p)),
      (decide (p <= i < p1)%nat); try lia; subst; done.
  - injection H as <- <- <-. split_and!; [done|lia|lia|].
    intros i. rewrite Hn'.
    destruct (decide (i = p)), (decide (p <= i < S p)%nat); try lia; subst; done.
Qed.

(** The same loop on a string that has some of its bytes from [p] on in
    lower case already: it stops at the same place, with the same count. *)
Lemma alnum_loop_sim fuel : forall s p x s1 p1 x1 s2,
  alnum_loop fuel s p x = Ok (s1, p1, x1) ->
  length s2 = length s ->
  (forall i, (p <= i)%nat -> lowered (nth i s2 0) (nth i s 0)) ->
  exists s21, alnum_loop fuel s2 p x = Ok (s21, p1, x1).
Proof.
  induction fuel as [|fuel IH]; intros s p x s1 p1 x1 s2 H Hlen Hrel;
    [discriminate H|].
  rewrite alnum_loop_S in H. rewrite alnum_loop_S.
  destruct (peek s p) as [b|] eqn:Eb; [|discriminate H]. rewrite bind_Ok in H.
  apply peek_nth in Eb as [Hp ->].
  rewrite (peek_le s2 p) by lia. rewrite bind_Ok.
  destruct (x =? INT_MAX); [discriminate H|].
  set (s' := if (0x40 <? nth p s 0) && (nth p s 0 <? 0x5b)
             then <[p:=nth p s 0 + 32]> s else s) in H.
  set (s2' := if (0x40 <? nth p s2 0) && (nth p s2 0 <? 0x5b)
              then <[p:=nth p s2 0 + 32]> s2 else s2).
  assert (length s' = length s) as Hlen' by apply lower_step_length.
  assert (length s2' = length s2) as Hlen2' by apply lower_step_length.
  assert (forall i, i <> p -> nth i s' 0 = nth i s 0) as Hn'.
  { intros i Hi. unfold s'. rewrite lower_step_nth. by destruct (decide (i = p)). }
  assert (forall i, i <> p -> nth i s2' 0 = nth i s2 0) as Hn2'.
  { intros i Hi. unfold s2'. rewrite lower_step_nth. by destruct (decide (i = p)). }
  destruct (peek s' (S p)) as [b'|] eqn:Eb'; [|discriminate H].
  rewrite bind_Ok in H. apply peek_nth in Eb' as [Hp' ->].
  rewrite (peek_le s2' (S p)) by lia. rewrite bind_Ok.
  assert (lowered (nth (S p) s2' 0) (nth (S p) s' 0)) as Hnext.
  { rewrite Hn', Hn2' by lia. apply Hrel. lia. }
  destruct (lowered_class _ _ Hnext) as (_ & _ & _ & -> & _).
  destruct (is_alnum (nth (S p) s' 0)).
  - apply (IH s' (S p) (x + 1) s1 p1 x1 s2' H); [congruence|].
    intros i Hi. rewrite Hn', Hn2' by lia. apply Hrel. lia.
  - injection H as <- <- <-. by eexists.
Qed.

Lemma bigram_loop_t_bound fuel : forall s p t p1 t1,
  bigram_loop_t fuel s p t = Ok (p1, t1) -> (p + 2 <= p1 <= length s)%nat.
Proof.
  induction fuel as [|fuel IH]; intros s p t p1 t1 H; [discriminate H|].
  rewrite bigram_loop_t_S in H.
  destruct (peek s (p + 2)) as [b|] eqn:Eb; [|discriminate H].
  rewrite bind_Ok in H. apply peek_nth in Eb as [Hp _].
  destruct (is_big5word b).
  - apply IH in H. lia.
  - injection H as <- <-. lia.
Qed.

(** The loop of lines 155-158 reads the bytes from [p] to where it stops,
    and tests the lead byte there. *)
Lemma bigram_loop_t_sim fuel : forall s p t p1 t1 s2,
  bigram_loop_t fuel s p t = Ok (p1, t1) ->
  length s2 = length s ->
  (forall i, (p <= i < p1)%nat -> nth i s2 0 = nth i s 0) ->
  lowered (nth p1 s2 0) (nth p1 s 0) ->
  bigram_loop_t fuel s2 p t = Ok (p1, t1).
Proof.
  induction fuel as [|fuel IH]; intros s p t p1 t1 s2 H Hlen Heq Hrel;
    [discriminate H|].
  pose proof (bigram_loop_t_bound _ _ _ _ _ _ H) as Hb1.
  rewrite bigram_loop_t_S in H. rewrite bigram_loop_t_S.
  destruct (peek s (p + 2)) as [b|] eqn:Eb; [|discriminate H].
  rewrite bind_Ok in H. apply peek_nth in Eb as [Hp ->].
  rewrite (peek_le s2 (p + 2)) by lia. rewrite bind_Ok.
  destruct (is_big5word (nth (p + 2) s 0)) eqn:Hw.
  - pose proof (bigram_loop_t_bound _ _ _ _ _ _ H) as Hb2.
    rewrite (Heq (p + 2)%nat) by lia. rewrite Hw.
    assert (bigram_tok s2 (p + 2 - 2) = bigram_tok s (p + 2 - 2)) as ->.
    { unfold bigram_tok. f_equal. apply tok_ext. intros i Hi. apply Heq. lia. }
    apply (IH s); [done|done| |done]. intros i Hi. apply Heq. lia.
  - injection H as <- <-.
    destruct (lowered_class _ _ Hrel) as (_ & _ & -> & _). by rewrite Hw.
Qed.

Lemma big5_branch_t_bound s p q t p1 t1 :
  big5_branch_t s p q t = Ok (p1, t1) -> (p + 2 <= p1 <= length s)%nat.
Proof.
  unfold big5_branch_t. intros H.
  destruct (peek s (p + 2)) as [b|] eqn:Eb; [|discriminate H].
  rewrite bind_Ok in H. apply peek_nth in Eb as [Hp _].
  destruct (is_big5word b).
  - destruct (peek s (p + 2 - 2)) as [b2|]; [|discriminate H].
    rewrite bind_Ok in H.
    destruct (bigram_loop_t _ _ _ _) as [[p' t']|] eqn:El; [|discriminate H].
    rewrite bind_Ok in H. apply bigram_loop_t_bound in El.
    destruct (q =? 0); [injection H as <- <-; lia|].
    destruct (peek s (p' - 4)) as [b4|]; [|discriminate H].
    rewrite bind_Ok in H.
    destruct (is_big5word b4); injection H as <- <-; lia.
  - destruct (peek s (p + 2 - 2)) as [b2|]; [|discriminate H].
    rewrite bind_Ok in H.
    destruct (is_big5word b2); injection H as <- <-; lia.
Qed.

(** Lines 147-178 read the bytes of the characters they step over, and
    test the lead byte of the next one. *)
Lemma big5_branch_t_sim s p q t p1 t1 s2 :
  big5_branch_t s p q t = Ok (p1, t1) ->
  length s2 = length s ->
  (forall i, (p <= i < p1)%nat -> nth i s2 0 = nth i s 0) ->
  lowered (nth p1 s2 0) (nth p1 s 0) ->
  big5_branch_t s2 p q t = Ok (p1, t1).
Proof.
  intros H Hlen Heq Hrel.
  pose proof (big5_branch_t_bound _ _ _ _ _ _ H) as Hb1.
  unfold big5_branch_t in *.
  destruct (peek s (p + 2)) as [b|] eqn:Eb; [|discriminate H].
  rewrite bind_Ok in H. apply peek_nth in Eb as [Hp ->].
  rewrite (peek_le s2 (p + 2)) by lia. rewrite bind_Ok.
  replace (p + 2 - 2)%nat with p in * by lia.
  assert (peek s2 p = peek s p) as -> by (apply peek_sim; [done|apply Heq; lia]).
  assert (single_tok s2 p = single_tok s p) as Hsingle.
  { unfold single_tok. do 2 f_equal. apply tok_ext. intros i Hi. apply Heq. lia. }
  destruct (is_big5word (nth (p + 2) s 0)) eqn:Hw.
  - destruct (peek s p) as [b2|]; [|discriminate H].
    rewrite bind_Ok in H. rewrite bind_Ok.
    destruct (bigram_loop_t (length s) s (p + 2) _) as [[p' t']|] eqn:El;
      [|discriminate H].
    rewrite bind_Ok in H.
    pose proof (bigram_loop_t_bound _ _ _ _ _ _ El) as Hb2.
    assert (p' = p1) as ->.
    { destruct (q =? 0); [by injection H as <- _|].
      destruct (peek s (p' - 4)) as [b4|]; [|discriminate H].
      rewrite bind_Ok in H. by destruct (is_big5word b4); injection H as <- _. }
    rewrite (Heq (p + 2)%nat) by lia. rewrite Hw.
    assert (bigram_tok s2 p = bigram_tok s p) as ->.
    { unfold bigram_tok. f_equal. apply tok_ext. intros i Hi. apply Heq. lia. }
    rewrite Hlen.
    rewrite (bigram_loop_t_sim _ s (p + 2) _ p1 t' s2 El Hlen);
      [|intros i Hi; apply Heq; lia|done].
    rewrite bind_Ok.
    assert (single_tok s2 (p1 - 2) = single_tok s (p1 - 2)) as ->.
    { unfold single_tok. do 2 f_equal. apply tok_ext. intros i Hi. apply Heq. lia. }
    assert (peek s2 (p1 - 4) = peek s (p1 - 4)) as ->
      by (apply peek_sim; [done|apply Heq; lia]).
    done.
  - assert (p1 = (p + 2)%nat) as ->.
    { destruct (peek s p) as [b2|]; [|discriminate H].
      rewrite bind_Ok in H. by destruct (is_big5word b2); injection H as <- _. }
    destruct (lowered_class _ _ Hrel) as (_ & _ & -> & _). rewrite Hw.
    by rewrite Hsingle.
Qed.

Lemma alnum_branch_t_frame s p t s1 p1 t1 :
  alnum_branch_t s p t = Ok (s1, p1, t1) ->
  length s1 = length s /\ (p < p1)%nat /\
  forall i, nth i s1 0
            = if decide (p <= i < p1)%nat then lower (nth i s 0) else nth i s 0.
Proof.
  unfold alnum_branch_t. intros H.
  destruct (alnum_loop (length s) s p 0) as [[[s' p'] x']|] eqn:El;
    [|discriminate H].
  rewrite bind_Ok in H. apply alnum_loop_frame in El as (Hlen & Hlt & _ & Hn).
  destruct (1 <? x').
  - destruct (_ <? MAXKEY); [|discriminate H]. by injection H as <- <- <-.
  - by injection H as <- <- <-.
Qed.

Lemma alnum_branch_t_sim s p t s1 p1 t1 s2 :
  alnum_branch_t s p t = Ok (s1, p1, t1) ->
  length s2 = length s ->
  (forall i, (p <= i)%nat -> lowered (nth i s2 0) (nth i s 0)) ->
  exists s21, alnum_branch_t s2 p t = Ok (s21, p1, t1).
Proof.
  unfold alnum_branch_t. intros H Hlen Hrel.
  destruct (alnum_loop (length s) s p 0) as [[[s' p'] x']|] eqn:El;
    [|discriminate H].
  rewrite bind_Ok in H.
  destruct (alnum_loop_sim _ _ _ _ _ _ _ s2 El Hlen Hrel) as (s21 & El2).
  rewrite Hlen, El2, bind_Ok.
  apply alnum_loop_frame in El as (_ & Hlt & Hx & Hn).
  apply alnum_loop_frame in El2 as (_ & _ & _ & Hn2).
  destruct (1 <? x'); [|injection H as <- <- <-; by eexists].
  destruct ((if MAXKEY <? x' then MAXKEY else x') <? MAXKEY) eqn:Hk;
    [|discriminate H].
  injection H as <- <- <-. eexists. do 3 f_equal.
  unfold alnum_tok. f_equal. apply tok_ext. intros i Hi.
  assert (p <= i < p')%nat as Hin.
  { split; [lia|]. unfold MAXKEY in *. destruct (32 <? x'); lia. }
  rewrite Hn, Hn2. destruct (decide (p <= i < p')%nat); [|lia].
  destruct (lowered_class _ _ (Hrel i ltac:(lia))) as (_ & _ & _ & _ & ->). done.
Qed.

(** [scan_t] from [p] on keeps the bytes before [p], and each byte is kept
    or put in lower case. *)
Lemma scan_t_frame fuel : forall s p q t sf tf,
  scan_t fuel s p q t = Ok (sf, tf) ->
  length sf = length s /\
  (forall i, (i < p)%nat -> nth i sf 0 = nth i s 0) /\
  (forall i, lowered (nth i sf 0) (nth i s 0)).
Proof.
  induction fuel as [|fuel IH]; intros s p q t sf tf H; [discriminate H|].
  rewrite scan_t_S in H.
  destruct (peek s p) as [b|] eqn:Eb; [|discriminate H]. rewrite bind_Ok in H.
  destruct (b =? 0).
  { injection H as <- <-. split_and!; try done. intros i. apply lowered_refl. }
  destruct (is_big5 b).
  { destruct (big5_branch_t s p q t) as [[p1 t1]|] eqn:Eb5; [|discriminate H].
    rewrite bind_Ok in H. apply big5_branch_t_bound in Eb5.
    apply IH in H as (Hlen & Hlt & Hrel).
    split_and!; [done| |done]. intros i Hi. apply Hlt. lia. }
  destruct (is_alnum b).
  { destruct (alnum_branch_t s p t) as [[[s1 p1] t1]|] eqn:Ea; [|discriminate H].
    rewrite bind_Ok in H. apply alnum_branch_t_frame in Ea as (Hlen1 & Hlt1 & Hn1).
    apply IH in H as (Hlen & Hlt & Hrel).
    split_and!; [congruence| |].
    - intros i Hi. rewrite Hlt by lia. rewrite Hn1.
      destruct (decide (p <= i < p1)%nat); [lia|done].
    - intros i. apply (lowered_trans _ (nth i s1 0)); [apply Hrel|].
      rewrite Hn1. destruct (decide (p <= i < p1)%nat); [by right|by left]. }
  apply IH in H as (Hlen & Hlt & Hrel).
  split_and!; [done| |done]. intros i Hi. apply Hlt. lia.
Qed.

(** The scan of a string [s2] that lies between [s] and the string [sf]
    the scan of [s] leaves: it inserts the same tokens and leaves [sf]. *)
Lemma scan_t_sim fuel : forall s p q t sf tf s2,
  scan_t fuel s p q t = Ok (sf, tf) ->
  length s2 = length s ->
  (forall i, (i < p)%nat -> nth i s2 0 = nth i sf 0) ->
  (forall i, (p <= i)%nat -> nth i s2 0 = nth i s 0 \/ nth i s2 0 = nth i sf 0) ->
  scan_t fuel s2 p q t = Ok (sf, tf).
Proof.
  induction fuel as [|fuel IH]; intros s p q t sf tf s2 H Hlen Hlow Hhigh;
    [discriminate H|].
  destruct (scan_t_frame _ _ _ _ _ _ _ H) as (Hlen0 & _ & Hrel0).
  assert (forall i, (p <= i)%nat -> lowered (nth i s2 0) (nth i s 0)) as Hrel.
  { intros i Hi. destruct (Hhigh i Hi) as [->| ->]; [apply lowered_refl|done]. }
  rewrite scan_t_S in H. rewrite scan_t_S.
  destruct (peek s p) as [b|] eqn:Eb; [|discriminate H]. rewrite bind_Ok in H.
  apply peek_nth in Eb as [Hp ->].
  rewrite (peek_le s2 p) by lia. rewrite bind_Ok.
  destruct (lowered_class _ _ (Hrel p ltac:(lia))) as (-> & -> & _ & -> & _).
  destruct (nth p s 0 =? 0).
  { injection H as <- <-. f_equal. f_equal. apply nth_ext_eq; [done|].
    intros i. destruct (decide (i < p)%nat) as [Hi|Hi]; [by apply Hlow|].
    by destruct (Hhigh i ltac:(lia)). }
  destruct (is_big5 (nth p s 0)).
  { destruct (big5_branch_t s p q t) as [[p1 t1]|] eqn:Eb5; [|discriminate H].
    rewrite bind_Ok in H.
    pose proof (big5_branch_t_bound _ _ _ _ _ _ Eb5) as Hb.
    destruct (scan_t_frame _ _ _ _ _ _ _ H) as (_ & Hkeep & _).
    assert (forall i, (p <= i < p1)%nat -> nth i s2 0 = nth i s 0) as Heq.
    { intros i Hi. destruct (Hhigh i ltac:(lia)) as [->| ->]; [done|].
      apply Hkeep. lia. }
    rewrite (big5_branch_t_sim s p q t p1 t1 s2 Eb5 Hlen Heq (Hrel p1 ltac:(lia))).
    rewrite bind_Ok. apply (IH s); [done|done| |].
    - intros i Hi. destruct (decide (i < p)%nat); [by apply Hlow|].
      rewrite Heq by lia. symmetry. by apply Hkeep.
    - intros i Hi. apply Hhigh. lia. }
  destruct (is_alnum (nth p s 0)).
  { destruct (alnum_branch_t s p t) as [[[s1 p1] t1]|] eqn:Ea; [|discriminate H].
    rewrite bind_Ok in H.
    destruct (alnum_branch_t_sim s p t s1 p1 t1 s2 Ea Hlen Hrel) as (s21 & Ea2).
    rewrite Ea2, bind_Ok.
    apply alnum_branch_t_frame in Ea as (Hlen1 & Hlt1 & Hn1).
    apply alnum_branch_t_frame in Ea2 as (Hlen21 & _ & Hn21).
    destruct (scan_t_frame _ _ _ _ _ _ _ H) as (_ & Hkeep & _).
    apply (IH s1); [done|congruence| |].
    - intros i Hi. rewrite Hn21, (Hkeep i Hi), Hn1.
      destruct (decide (p <= i < p1)%nat) as [Hin|Hout].
      + by destruct (lowered_class _ _ (Hrel i ltac:(lia))) as (_ & _ & _ & _ & ->).
      + rewrite Hlow by lia. rewrite (Hkeep i Hi), Hn1.
        by destruct (decide (p <= i < p1)%nat).
    - intros i Hi. rewrite Hn21, Hn1.
      destruct (decide (p <= i < p1)%nat); [lia|]. apply Hhigh. lia. }
  destruct (scan_t_frame _ _ _ _ _ _ _ H) as (_ & Hkeep & _).
  assert (nth p s2 0 = nth p s 0) as Hpp.
  { destruct (Hhigh p ltac:(lia)) as [->| ->]; [done|]. apply Hkeep. lia. }
  apply (IH s); [done|done| |].
  - intros i Hi. destruct (decide (i < p)%nat); [by apply Hlow|].
    replace i with p by lia. rewrite Hpp. symmetry. apply Hkeep. lia.
  - intros i Hi. apply Hhigh. lia.
Qed.

Lemma c_str_elems mem : Forall (fun b => b <> 0) (c_str mem).
Proof.
  induction mem as [|b mem IH]; simpl; [apply Forall_nil_2|].
  destruct (Z.eqb_spec b 0); [apply Forall_nil_2|by apply Forall_cons_2].
Qed.

Lemma lower_nonzero b : b <> 0 -> lower b <> 0.
Proof. intros Hb. destruct (lower_range b) as [->|[? ->]]; lia. Qed.

(** Tokenizing the text a first run left gives the same table and leaves
    the text as it is. *)
Lemma tokenize_again q mem sf t :
  tokenize q mem = Ok (sf, t) -> tokenize q sf = Ok (sf, t).
Proof.
  unfold tokenize. intros H.
  destruct (scan_t_frame _ _ _ _ _ _ _ H) as (Hlen & _ & Hrel).
  assert (c_str sf = sf) as ->.
  { apply c_str_nonzero, Forall_lookup. intros i b Hi.
    pose proof (Hrel i) as Hr. rewrite !nth_lookup, Hi in Hr. simpl in Hr.
    assert (i < length (c_str mem))%nat as Hlt
      by (rewrite <- Hlen; by apply lookup_lt_Some in Hi).
    apply lookup_lt_is_Some in Hlt as [b0 Hb0]. rewrite Hb0 in Hr. simpl in Hr.
    pose proof (c_str_elems mem) as Hnz. rewrite Forall_lookup in Hnz.
    specialize (Hnz i b0 Hb0). simpl in Hnz.
    destruct Hr as [->| ->]; [done|by apply lower_nonzero]. }
  rewrite Hlen. apply (scan_t_sim _ (c_str mem)); [done|done| |].
  - intros i Hi. lia.
  - intros i _. by right.
Qed.

Lemma parse_pair_buffer P mem g r :
  parse_pair P mem g = Ok r ->
  exists t, tokenize (query g) mem = Ok (buffer r, t).
Proof.
  unfold parse_pair.
  destruct (extract_words_tokens mem g) as (k' & ->).
  destruct (tokenize (query g) mem) as [[s t]|f]; simpl; [|done].
  destruct (tree_trav _ _ _) as [[out g2]|]; simpl; [|done].
  intros [= <-]. by exists t.
Qed.

Lemma parse_word_buffer P mem g r :
  parse_word P mem g = Ok r ->
  exists t, tokenize (query g) mem = Ok (buffer r, t).
Proof.
  unfold parse_word.
  destruct (extract_words_tokens mem g) as (k' & ->).
  destruct (tokenize (query g) mem) as [[s t]|f]; simpl; [|done].
  destruct (tree_trav _ _ _) as [[out g2]|]; simpl; [|done].
  intros [= <-]. by exists t.
Qed.

(** X12.  A driver changes its input in place (upper-case letters of
    alphanumeric runs become lower-case).  If it returns, running it again
    on the same buffer, as the first run left it and from the globals the
    first run left, returns too, makes the same invocations of [cb] in the
    same order, and leaves the buffer as it is. *)
Theorem second_run_on_same_buffer (P : platform) (mem seed : list Z)
    (g : globals) :
  (forall r1, parse_delim P mem seed g = Ok r1 ->
     exists r2, parse_delim P (buffer r1) seed (after r1) = Ok r2 /\
                calls r2 = calls r1 /\ buffer r2 = buffer r1) /\
  (forall r1, parse_pair P mem g = Ok r1 ->
     exists r2, parse_pair P (buffer r1) (after r1) = Ok r2 /\
                calls r2 = calls r1 /\ buffer r2 = buffer r1) /\
  (forall r1, parse_word P mem g = Ok r1 ->
     exists r2, parse_word P (buffer r1) (after r1) = Ok r2 /\
                calls r2 = calls r1 /\ buffer r2 = buffer r1).
Proof.
  split_and!; intros r1 H1.
  - destruct (parse_delim_inv P mem seed g r1 H1)
      as (d & t & Ht & Hs & He & Hq & _).
    apply tokenize_again in Ht.
    pose proof (parse_delim_refines P (buffer r1) seed (after r1)) as H2.
    rewrite Hq, Ht in H2. simpl in H2. rewrite Hs in H2. simpl in H2.
    destruct (refines_ok_r _ _ _ _ H2 He) as (r2 & Hr2 & Hc & _).
    exists r2. split_and!; [done|done|].
    destruct (parse_delim_inv _ _ _ _ _ Hr2) as (_ & t2 & Ht2 & _).
    rewrite Hq, Ht in Ht2. by injection Ht2 as <- _.
  - destruct (parse_pair_buffer P mem g r1 H1) as (t & Ht).
    destruct (refines_ok _ _ _ _ (parse_pair_refines P mem g) H1)
      as (out & Hout & <- & Hq).
    rewrite Ht in Hout. simpl in Hout. apply tokenize_again in Ht.
    pose proof (parse_pair_refines P (buffer r1) (after r1)) as H2.
    rewrite Hq, Ht in H2. simpl in H2.
    destruct (refines_ok_r _ _ _ _ H2 Hout) as (r2 & Hr2 & Hc & _).
    exists r2. split_and!; [done|done|].
    destruct (parse_pair_buffer _ _ _ _ Hr2) as (t2 & Ht2).
    rewrite Hq, Ht in Ht2. by injection Ht2 as <- _.
  - destruct (parse_word_buffer P mem g r1 H1) as (t & Ht).
    destruct (refines_ok _ _ _ _ (parse_word_refines P mem g) H1)
      as (out & Hout & <- & Hq).
    rewrite Ht in Hout. simpl in Hout. apply tokenize_again in Ht.
    pose proof (parse_word_refines P (buffer r1) (after r1)) as H2.
    rewrite Hq, Ht in H2. simpl in H2.
    destruct (refines_ok_r _ _ _ _ H2 Hout) as (r2 & Hr2 & Hc & _).
    exists r2. split_and!; [done|done|].
    destruct (parse_word_buffer _ _ _ _ Hr2) as (t2 & Ht2).
    rewrite Hq, Ht in Ht2. by injection Ht2 as <- _.
Qed.

Lemma second_run_witness :
  exists r1 r2,
    parse_delim gcc_like sample_text [1; 2; 3; 4] initial_globals = Ok r1 /\
    buffer r1
    = [0x68; 0x69; 0x20; 0x68; 0x69; 0x20; 0xa4; 0x40; 0xa4; 0x41; 0xa4; 0x42] /\
    parse_delim gcc_like (buffer r1) [1; 2; 3; 4] (after r1) = Ok r2 /\
    calls r2 = calls r1 /\ buffer r2 = buffer r1.
Proof.
  destruct (second_run_on_same_buffer gcc_like sample_text [1; 2; 3; 4]
              initial_globals) as (Hd & _ & _).
  destruct (parse_delim gcc_like sample_text [1; 2; 3; 4] initial_globals)
    as [r1|f] eqn:E; [|vm_compute in E; discriminate E].
  destruct (Hd r1 eq_refl) as (r2 & H2 & Hc & Hb).
  exists r1, r2. split; [reflexivity|]. split.
  - destruct (parse_delim_inv _ _ _ _ _ E) as (_ & t & Ht & _).
    apply (f_equal (fun m => fst <$> m)) in Ht.
    change (Ok [0x68; 0x69; 0x20; 0x68; 0x69; 0x20;
                0xa4; 0x40; 0xa4; 0x41; 0xa4; 0x42] = Ok (buffer r1)) in Ht.
    by injection Ht as <-.
  - split; [exact H2|]. split; [exact Hc|exact Hb].
Defined.

(** ** The shape of the tokens *)

Lemma tree_add_Forall (Q : entry -> Prop) t e :
  Q e -> Forall Q t -> Forall Q (tree_add t e).
Proof.
  intros He. induction 1 as [|e' t He' Ht IH]; simpl.
  - by apply Forall_cons_2.
  - destruct (wordcmp e e'); repeat apply Forall_cons_2; done.
Qed.

Lemma tree_incr_Forall (Q : list Z -> Prop) t k :
  Forall (fun e => Q (word e)) t -> Forall (fun e => Q (word e)) (tree_incr t k).
Proof.
  induction 1 as [|e' t He' Ht IH]; simpl; [done|].
  destruct (wordcmp e' k); by apply Forall_cons_2.
Qed.

(** [addentry] keeps a property of the tokens of the table that the new
    token has. *)
Lemma addentry_Forall (Q : list Z -> Prop) x t :
  Q x -> Forall (fun e => Q (word e)) t ->
  Forall (fun e => Q (word e)) (addentry x t).
Proof.
  intros Hx Ht. unfold addentry.
  destruct (tree_srch t _); [by apply tree_incr_Forall|].
  by apply (tree_add_Forall (fun e => Q (word e))).
Qed.

Lemma text_nth s i : text s -> (i < length s)%nat -> 0 < nth i s 0 < 256.
Proof.
  intros Hs Hi. apply lookup_lt_is_Some in Hi as [b Hb].
  rewrite nth_lookup, Hb. simpl. unfold text in Hs.
  rewrite Forall_lookup in Hs. by apply (Hs i).
Qed.

Lemma strncpy_bytes_take n : forall l,
  (n <= length l)%nat -> Forall (fun b => b <> 0) (take n l) ->
  strncpy_bytes l n = take n l.
Proof.
  induction n as [|n IH]; intros l Hn Hl; [done|].
  destruct l as [|b l]; simpl in Hn; [lia|]. simpl in *.
  apply Forall_cons_1 in Hl as [Hb Hl].
  destruct (Z.eqb_spec b 0); [done|]. rewrite IH; [done|lia|done].
Qed.

(** The token copied from [n] bytes of the text at [q]. *)
Lemma tok_take s q n :
  text s -> (q + n <= length s)%nat ->
  c_str (strncpy_bytes (drop q s) n) = take n (drop q s).
Proof.
  intros Hs Hn.
  assert (Forall (fun b => b <> 0) (take n (drop q s))) as Hnz.
  { apply Forall_take, Forall_drop. eapply Forall_impl; [exact Hs|].
    simpl. lia. }
  rewrite strncpy_bytes_take; [by apply c_str_nonzero| |done].
  rewrite length_drop. lia.
Qed.

Lemma text_take_drop s q n : text s -> text (take n (drop q s)).
Proof. intros Hs. by apply Forall_take, Forall_drop. Qed.

Lemma bigram_tok_shape s q :
  text s -> (q + 4 <= length s)%nat -> 0xa3 < nth q s 0 ->
  cjk_token (bigram_tok s q).
Proof.
  intros Hs Hq Hlead. unfold bigram_tok. rewrite tok_take by done.
  split_and!.
  - rewrite length_take, length_drop. lia.
  - by apply text_take_drop.
  - rewrite <- (Nat.add_0_r q) in Hlead. rewrite <- nth_drop_0 in Hlead.
    destruct (drop q s) as [|x l] eqn:E; [|done].
    apply (f_equal length) in E. rewrite length_drop in E. simpl in E. lia.
Qed.

Lemma single_tok_shape s q :
  text s -> (q + 2 <= length s)%nat -> 0xa3 < nth q s 0 ->
  cjk_token (single_tok s q).
Proof.
  intros Hs Hq Hlead. unfold single_tok.
  assert (strncpy_bytes (drop q s) 2 = take 2 (drop q s)) as ->.
  { apply strncpy_bytes_take; [rewrite length_drop; lia|].
    apply Forall_take, Forall_drop. eapply Forall_impl; [exact Hs|].
    simpl. lia. }
  pose proof (text_take_drop s q 2 Hs) as Ht.
  rewrite <- (Nat.add_0_r q) in Hlead. rewrite <- nth_drop_0 in Hlead.
  destruct (drop q s) as [|x [|y l]] eqn:E;
    try (apply (f_equal length) in E; rewrite length_drop in E; simpl in E; lia).
  simpl in *. unfold text in Ht.
  apply Forall_cons_1 in Ht as [Hx Ht]. apply Forall_cons_1 in Ht as [Hy _].
  destruct (Z.eqb_spec x 0); [lia|]. destruct (Z.eqb_spec y 0); [lia|].
  split_and!; [done| |done].
  unfold byte_string. repeat apply Forall_cons_2; try done; try lia.
Qed.

Lemma is_big5word_lead b : is_big5word b = true -> 0xa3 < b.
Proof. unfold is_big5word. by intros H%Z.ltb_lt. Qed.

(** The loop of lines 155-158, entered at an ideograph: the tokens it
    inserts are well formed, and it stops two bytes after an ideograph. *)
Lemma bigram_loop_t_shape fuel : forall s p t p1 t1,
  text s -> 0xa3 < nth p s 0 ->
  Forall (fun e => token (word e)) t ->
  bigram_loop_t fuel s p t = Ok (p1, t1) ->
  Forall (fun e => token (word e)) t1 /\ 0xa3 < nth (p1 - 2) s 0.
Proof.
  induction fuel as [|fuel IH]; intros s p t p1 t1 Hs Hlead Ht H;
    [discriminate H|].
  rewrite bigram_loop_t_S in H.
  destruct (peek s (p + 2)) as [b|] eqn:Eb; [|discriminate H].
  rewrite bind_Ok in H. apply peek_nth in Eb as [Hp ->].
  destruct (is_big5word (nth (p + 2) s 0)) eqn:Hw.
  - pose proof (bigram_loop_t_bound _ _ _ _ _ _ H) as Hb.
    apply (IH s (p + 2)%nat) in H; [done|done|by apply is_big5word_lead|].
    apply addentry_Forall; [|done]. left.
    replace (p + 2 - 2)%nat with p by lia. apply bigram_tok_shape; [done|lia|done].
  - injection H as <- <-. split; [done|].
    by replace (p + 2 - 2)%nat with p by lia.
Qed.

(** Lines 147-178: the tokens the branch for a lead byte inserts are well
    formed. *)
Lemma big5_branch_t_shape s p q t p1 t1 :
  text s -> Forall (fun e => token (word e)) t ->
  big5_branch_t s p q t = Ok (p1, t1) ->
  Forall (fun e => token (word e)) t1.
Proof.
  intros Hs Ht H. unfold big5_branch_t in H.
  destruct (peek s (p + 2)) as [b|] eqn:Eb; [|discriminate H].
  rewrite bind_Ok in H. apply peek_nth in Eb as [Hp ->].
  replace (p + 2 - 2)%nat with p in H by lia.
  destruct (peek s p) as [b2|] eqn:Eb2; [|by destruct (is_big5word _)].
  apply peek_nth in Eb2 as [_ ->].
  destruct (is_big5word (nth (p + 2) s 0)) eqn:Hw.
  - rewrite bind_Ok in H.
    destruct (bigram_loop_t (length s) s (p + 2) _) as [[p' t']|] eqn:El;
      [|discriminate H].
    rewrite bind_Ok in H.
    pose proof (bigram_loop_t_bound _ _ _ _ _ _ El) as Hb.
    apply bigram_loop_t_shape in El as [Ht' Hlast];
      [|done|by apply is_big5word_lead|].
    2:{ destruct (is_big5word (nth p s 0)) eqn:Hw0; [|done].
        apply addentry_Forall; [|done]. left.
        apply bigram_tok_shape; [done|lia|by apply is_big5word_lead]. }
    assert (Forall (fun e => token (word e))
              (addentry (single_tok s (p' - 2)) t')) as Hsingle.
    { apply addentry_Forall; [|done]. left.
      apply single_tok_shape; [done|lia|done]. }
    destruct (q =? 0); [by injection H as <- <-|].
    destruct (peek s (p' - 4)) as [b4|]; [|discriminate H].
    rewrite bind_Ok in H. by destruct (is_big5word b4); injection H as <- <-.
  - rewrite bind_Ok in H.
    destruct (is_big5word (nth p s 0)) eqn:Hw0; injection H as <- <-; [|done].
    apply addentry_Forall; [|done]. left.
    apply single_tok_shape; [done|lia|by apply is_big5word_lead].
Qed.

(** The bytes the loop of lines 182-186 steps over, after the first, are
    alphanumeric. *)
Lemma alnum_loop_alnum fuel : forall s p x s1 p1 x1,
  alnum_loop fuel s p x = Ok (s1, p1, x1) ->
  (p1 <= length s)%nat /\
  forall i, (p < i < p1)%nat -> is_alnum (nth i s 0) = true.
Proof.
  induction fuel as [|fuel IH]; intros s p x s1 p1 x1 H; [discriminate H|].
  rewrite alnum_loop_S in H.
  destruct (peek s p) as [b|] eqn:Eb; [|discriminate H]. rewrite bind_Ok in H.
  apply peek_nth in Eb as [Hp ->].
  destruct (x =? INT_MAX); [discriminate H|].
  set (s' := if (0x40 <? nth p s 0) && (nth p s 0 <? 0x5b)
             then <[p:=nth p s 0 + 32]> s else s) in H.
  assert (length s' = length s) as Hlen' by apply lower_step_length.
  assert (forall i, i <> p -> nth i s' 0 = nth i s 0) as Hn'.
  { intros i Hi. unfold s'. rewrite lower_step_nth. by destruct (decide (i = p)). }
  destruct (peek s' (S p)) as [b'|] eqn:Eb'; [|discriminate H].
  rewrite bind_Ok in H. apply peek_nth in Eb' as [Hp' ->].
  destruct (is_alnum (nth (S p) s' 0)) eqn:Ha.
  - apply IH in H as [Hle Hin]. split; [lia|].
    intros i Hi. destruct (decide (i = S p)) as [->|Hne].
    + by rewrite <- Hn' by lia.
    + rewrite <- Hn' by lia. apply Hin. lia.
  - injection H as <- <- <-. split; [lia|]. intros i Hi. lia.
Qed.

Lemma lower_alnum b : is_alnum b = true -> is_alnum (lower b) = true /\ lower (lower b) = lower b.
Proof.
  intros Hb. destruct (lowered_class (lower b) b (or_intror eq_refl))
    as (_ & _ & _ & -> & _).
  split; [done|apply lower_lower].
Qed.

Lemma lower_text b : 0 < b < 256 -> 0 < lower b < 256.
Proof. intros Hb. destruct (lower_range b) as [->|[? ->]]; lia. Qed.

(** Lines 179-194, entered at an alphanumeric byte: the token, if one is
    inserted, is well formed, and the string is still a text. *)
Lemma alnum_branch_t_shape s p t s1 p1 t1 :
  text s -> is_alnum (nth p s 0) = true ->
  Forall (fun e => token (word e)) t ->
  alnum_branch_t s p t = Ok (s1, p1, t1) ->
  text s1 /\ Forall (fun e => token (word e)) t1.
Proof.
  intros Hs Hp Ht H. unfold alnum_branch_t in H.
  destruct (alnum_loop (length s) s p 0) as [[[s' p'] x']|] eqn:El;
    [|discriminate H].
  rewrite bind_Ok in H.
  destruct (alnum_loop_alnum _ _ _ _ _ _ _ El) as [Hle Hal].
  apply alnum_loop_frame in El as (Hlen & Hlt & Hx & Hn).
  assert (text s') as Hs'.
  { unfold text. apply Forall_lookup. intros i b Hi.
    pose proof (Hn i) as Hni. rewrite (nth_lookup s'), Hi in Hni. simpl in Hni.
    assert (i < length s)%nat as Hil
      by (rewrite <- Hlen; by apply lookup_lt_Some in Hi).
    pose proof (text_nth s i Hs Hil) as Hb.
    destruct (decide (p <= i < p')%nat); subst b; [by apply lower_text|done]. }
  destruct (1 <? x') eqn:H1; [|by injection H as <- <- <-].
  destruct ((if MAXKEY <? x' then MAXKEY else x') <? MAXKEY) eqn:Hk;
    [|discriminate H].
  injection H as <- <- <-. split; [done|].
  apply addentry_Forall; [|done]. right.
  set (n := Z.to_nat (if MAXKEY <? x' then MAXKEY else x')).
  assert (2 <= n <= 31 /\ p + n <= p')%nat as [Hn2 Hnp].
  { unfold n, MAXKEY in *. apply Z.ltb_lt in H1.
    destruct (32 <? x'); [discriminate Hk|]. apply Z.ltb_lt in Hk. lia. }
  unfold alnum_tok. rewrite tok_take; [|done|lia].
  split; [rewrite length_take, length_drop; lia|].
  apply Forall_lookup. intros i b Hi.
  pose proof (lookup_lt_Some _ _ _ Hi) as Hil.
  rewrite length_take, length_drop in Hil.
  rewrite lookup_take_lt, lookup_drop in Hi by lia.
  pose proof (Hn (p + i)%nat) as Hni. rewrite (nth_lookup s'), Hi in Hni.
  simpl in Hni. destruct (decide (p <= p + i < p')%nat); [|lia]. subst b.
  apply lower_alnum. destruct (decide (i = 0)%nat) as [->|Hi0].
  - by rewrite Nat.add_0_r.
  - apply Hal. lia.
Qed.

(** Every token in the table is well formed, throughout the scan. *)
Lemma scan_t_shape fuel : forall s p q t sf tf,
  text s -> Forall (fun e => token (word e)) t ->
  scan_t fuel s p q t = Ok (sf, tf) ->
  Forall (fun e => token (word e)) tf.
Proof.
  induction fuel as [|fuel IH]; intros s p q t sf tf Hs Ht H; [discriminate H|].
  rewrite scan_t_S in H.
  destruct (peek s p) as [b|] eqn:Eb; [|discriminate H]. rewrite bind_Ok in H.
  apply peek_nth in Eb as [Hp ->].
  destruct (nth p s 0 =? 0); [by injection H as <- <-|].
  destruct (is_big5 (nth p s 0)).
  { destruct (big5_branch_t s p q t) as [[p1 t1]|] eqn:Eb5; [|discriminate H].
    rewrite bind_Ok in H. apply big5_branch_t_shape in Eb5; [|done..].
    by apply IH in H. }
  destruct (is_alnum (nth p s 0)) eqn:Ha.
  { destruct (alnum_branch_t s p t) as [[[s1 p1] t1]|] eqn:Ea; [|discriminate H].
    rewrite bind_Ok in H. apply alnum_branch_t_shape in Ea as [Hs1 Ht1]; [|done..].
    by apply IH in H. }
  by apply IH in H.
Qed.

Lemma c_str_text mem :
  Forall (fun b => 0 <= b < 256) mem -> text (c_str mem).
Proof.
  induction 1 as [|b mem Hb _ IH]; simpl; [apply Forall_nil_2|].
  destruct (Z.eqb_spec b 0); [apply Forall_nil_2|].
  apply Forall_cons_2; [lia|done].
Qed.

Lemma tokenize_shape q mem sf t :
  Forall (fun b => 0 <= b < 256) mem ->
  tokenize q mem = Ok (sf, t) -> Forall (fun e => token (word e)) t.
Proof.
  intros Hmem H. unfold tokenize in H.
  apply scan_t_shape in H; [done|by apply c_str_text|apply Forall_nil_2].
Qed.

Lemma extract_words_table mem g s g' :
  extract_words mem g = Ok (s, g') ->
  tokenize (query g) mem = Ok (s, wordtree g').
Proof.
  destruct (extract_words_tokens mem g) as (k' & ->).
  destruct (tokenize (query g) mem) as [[s0 t0]|]; simpl; [|done].
  by intros [= <- <-].
Qed.

Lemma token_byte_string w : token w -> byte_string w.
Proof.
  intros [(_ & Hw & _)|[_ Hw]]; [done|].
  unfold byte_string. eapply Forall_impl; [exact Hw|].
  intros b [Hb%is_alnum_range _]. simpl in *. lia.
Qed.

Lemma cjk_token_entry P e : cjk_token (word e) -> cjk_entry P e.
Proof.
  intros (Hlen & Hw & Hlead). split_and!; [|done..].
  unfold big5_entry, is_big5_char, uint_of_char.
  destruct (plain_char_signed P); simpl.
  - destruct (Z.leb_spec 128 (hd 0 (word e))); apply Z.ltb_lt; lia.
  - apply Z.ltb_lt. lia.
Qed.

Lemma ascii_token_entry P e : ascii_token (word e) -> big5_entry P e = false.
Proof.
  intros [Hlen Hw]. unfold big5_entry, is_big5_char, uint_of_char.
  destruct (word e) as [|b w]; simpl in *; [lia|].
  apply Forall_cons_1 in Hw as [[Hb%is_alnum_range _] _].
  destruct (plain_char_signed P); simpl.
  - destruct (Z.leb_spec 128 b); [lia|]. apply Z.ltb_ge. lia.
  - apply Z.ltb_ge. lia.
Qed.

(** X13.  Whenever [extract_words] returns on a text of bytes, every token
    of the table it leaves is well formed: four bytes, none NUL, starting
    with an ideograph lead; or 2 to 31 alphanumeric bytes in lower case.
    No token is empty, none holds a NUL, none is longer than 31 bytes, and
    none starts with a symbol lead byte 0xa1 .. 0xa3. *)
Theorem tokens_well_formed (mem : list Z) (g : globals) (s : list Z)
    (g' : globals) :
  Forall (fun b => 0 <= b < 256) mem ->
  extract_words mem g = Ok (s, g') ->
  Forall (fun e => token (word e)) (wordtree g').
Proof.
  intros Hmem H. apply extract_words_table in H.
  by apply (tokenize_shape (query g) mem s).
Qed.

Lemma tokens_well_formed_witness :
  exists s g',
    extract_words sample_text initial_globals = Ok (s, g') /\
    Forall (fun e => token (word e)) (wordtree g').
Proof.
  destruct (extract_words sample_text initial_globals) as [[s g']|f] eqn:E;
    [|vm_compute in E; discriminate E].
  exists s, g'. split; [reflexivity|].
  apply (tokens_well_formed sample_text initial_globals s g'); [|exact E].
  unfold sample_text. repeat (apply Forall_cons_2; [lia|]). apply Forall_nil_2.
Defined.

(** ** How many tokens, and when the emitters return *)

Lemma tree_add_length t e : length (tree_add t e) = S (length t).
Proof.
  induction t as [|e' t IH]; simpl; [done|].
  destruct (wordcmp e e'); simpl; by rewrite ?IH.
Qed.

Lemma tree_incr_length t k : length (tree_incr t k) = length t.
Proof.
  induction t as [|e' t IH]; simpl; [done|].
  destruct (wordcmp e' k); simpl; by rewrite ?IH.
Qed.

Lemma addentry_length x t : (length (addentry x t) <= S (length t))%nat.
Proof.
  unfold addentry. destruct (tree_srch t _).
  - rewrite tree_incr_length. lia.
  - by rewrite tree_add_length.
Qed.

Lemma bigram_loop_t_count fuel : forall s p t p1 t1,
  bigram_loop_t fuel s p t = Ok (p1, t1) ->
  (2 * length t1 + p + 2 <= 2 * length t + p1)%nat.
Proof.
  induction fuel as [|fuel IH]; intros s p t p1 t1 H; [discriminate H|].
  rewrite bigram_loop_t_S in H.
  destruct (peek s (p + 2)) as [b|]; [|discriminate H]. rewrite bind_Ok in H.
  destruct (is_big5word b).
  - apply IH in H.
    pose proof (addentry_length (bigram_tok s (p + 2 - 2)) t). lia.
  - injection H as <- <-. lia.
Qed.

Lemma big5_branch_t_count s p q t p1 t1 :
  big5_branch_t s p q t = Ok (p1, t1) ->
  (2 * length t1 + p <= 2 * length t + p1)%nat.
Proof.
  unfold big5_branch_t. intros H.
  destruct (peek s (p + 2)) as [b|]; [|discriminate H]. rewrite bind_Ok in H.
  destruct (peek s (p + 2 - 2)) as [b2|]; [|by destruct (is_big5word b)].
  rewrite !bind_Ok in H.
  assert (forall x, exists n, length (addentry x t) = n /\ (n <= S (length t))%nat)
    as Hadd by (intros x; eexists; split; [done|apply addentry_length]).
  destruct (is_big5word b).
  - destruct (bigram_loop_t (length s) s (p + 2) _) as [[p' t']|] eqn:El;
      [|discriminate H].
    rewrite bind_Ok in H. apply bigram_loop_t_count in El.
    assert (exists n0,
              (2 * length t' + (p + 2) + 2 <= 2 * n0 + p')%nat /\
              (n0 <= S (length t))%nat) as (n0 & El' & Hfirst).
    { eexists. split; [exact El|]. destruct (is_big5word b2); [|lia].
      apply addentry_length. }
    clear El.
    assert (exists n1, length (addentry (single_tok s (p' - 2)) t') = n1 /\
                       (n1 <= S (length t'))%nat) as (n1 & Hn1 & Hlast)
      by (eexists; split; [done|apply addentry_length]).
    destruct (q =? 0); [injection H as <- <-; rewrite Hn1; lia|].
    destruct (peek s (p' - 4)) as [b4|]; [|discriminate H].
    rewrite bind_Ok in H.
    destruct (is_big5word b4); injection H as <- <-; rewrite ?Hn1; lia.
  - destruct (Hadd (single_tok s (p + 2 - 2))) as (n & Hn & Hle).
    destruct (is_big5word b2); injection H as <- <-; rewrite ?Hn; lia.
Qed.

Lemma alnum_branch_t_count s p t s1 p1 t1 :
  alnum_branch_t s p t = Ok (s1, p1, t1) ->
  (2 * length t1 + p <= 2 * length t + p1)%nat.
Proof.
  unfold alnum_branch_t. intros H.
  destruct (alnum_loop (length s) s p 0) as [[[s' p'] x']|] eqn:El;
    [|discriminate H].
  rewrite bind_Ok in H. apply alnum_loop_frame in El as (_ & Hlt & Hx & _).
  destruct (1 <? x') eqn:H1.
  - destruct (_ <? MAXKEY); [|discriminate H]. injection H as <- <- <-.
    apply Z.ltb_lt in H1.
    pose proof (addentry_length
                  (alnum_tok s' p
                     (Z.to_nat (if MAXKEY <? x' then MAXKEY else x'))) t).
    lia.
  - injection H as <- <- <-. lia.
Qed.

(** Each token costs at least two bytes of text. *)
Lemma scan_t_count fuel : forall s p q t sf tf,
  scan_t fuel s p q t = Ok (sf, tf) ->
  (2 * length tf + p <= 2 * length t + length s)%nat.
Proof.
  induction fuel as [|fuel IH]; intros s p q t sf tf H; [discriminate H|].
  rewrite scan_t_S in H.
  destruct (peek s p) as [b|] eqn:Eb; [|discriminate H]. rewrite bind_Ok in H.
  apply peek_nth in Eb as [Hp _].
  destruct (b =? 0); [injection H as <- <-; lia|].
  destruct (is_big5 b).
  { destruct (big5_branch_t s p q t) as [[p1 t1]|] eqn:Eb5; [|discriminate H].
    rewrite bind_Ok in H. apply big5_branch_t_count in Eb5.
    apply IH in H. lia. }
  destruct (is_alnum b).
  { destruct (alnum_branch_t s p t) as [[[s1 p1] t1]|] eqn:Ea; [|discriminate H].
    rewrite bind_Ok in H.
    pose proof (alnum_branch_t_frame _ _ _ _ _ _ Ea) as (Hlen & _ & _).
    apply alnum_branch_t_count in Ea. apply IH in H. lia. }
  apply IH in H. lia.
Qed.

Lemma tokenize_count q mem sf t :
  tokenize q mem = Ok (sf, t) -> (2 * length t <= length (c_str mem))%nat.
Proof. unfold tokenize. intros H%scan_t_count. simpl in H. lia. Qed.

(** The delimited emitter over well-formed tokens returns as long as three
    bytes per remaining entry fit. *)
Lemma trav_d_fits P d t : forall a,
  length d = 4%nat -> Forall (fun e => token (word e)) t ->
  (forall l, d_last a = Some l -> byte_string (word l)) ->
  Z.of_nat (length (d_blob a)) + 3 * Z.of_nat (length t) <= MAXVAL ->
  4 + 3 * Z.of_nat (length t) <= MAXVAL ->
  exists o a', trav_d P d t a = Ok (o, a').
Proof.
  induction t as [|e t IH]; intros a Hd Ht Hl Hblob Hall; [by eexists _, _|].
  apply Forall_cons_1 in Ht as [He Ht]. simpl length in *.
  change (trav_d P d (e :: t) a)
    with ('(o1, a1) ← cb_delim_d P d e a;
          '(o2, a2) ← trav_d P d t a1; Ok (o1 ++ o2, a2)).
  assert (exists o1 a1,
            cb_delim_d P d e a = Ok (o1, a1) /\
            (forall l, d_last a1 = Some l -> byte_string (word l)) /\
            Z.of_nat (length (d_blob a1)) + 3 * Z.of_nat (length t) <= MAXVAL)
    as (o1 & a1 & -> & Hl1 & Hblob1).
  { destruct He as [He|He].
    - pose proof (cjk_token_entry P e He) as Hce.
      assert (length (d ++ triple e) = 7%nat) as H7
        by (rewrite length_app, (triple_length P), Hd; done).
      assert (byte_string (word e)) as Hbe by (by destruct He as (_ & ? & _)).
      rewrite (cb_delim_d_cjk P d e a Hce Hl).
      destruct (d_last a) as [l|].
      + destruct (bool_decide (lead2 e = lead2 l)).
        * destruct (Z.leb_spec (Z.of_nat (length (d_blob a)) + 3) MAXVAL); [|lia].
          eexists _, _. split; [done|]. simpl. split; [by intros ? [= <-]|].
          rewrite length_app, (triple_length P) by done. lia.
        * eexists _, _. split; [done|]. simpl. split; [by intros ? [= <-]|].
          rewrite H7. lia.
      + eexists _, _. split; [done|]. simpl. split; [by intros ? [= <-]|].
        rewrite H7. lia.
    - rewrite (cb_delim_d_ascii P d e a (ascii_token_entry P e He)).
      eexists _, _. split; [done|]. simpl. split; [done|].
      rewrite length_app, Hd. simpl. lia. }
  rewrite bind_Ok.
  destruct (IH a1 Hd Ht Hl1 Hblob1 ltac:(lia)) as (o2 & a2 & ->).
  rewrite bind_Ok. by eexists _, _.
Qed.

Lemma pair_calls_token P e :
  token (word e) -> exists c, pair_calls P e = Ok [c].
Proof.
  intros [He|He].
  - destruct (cjk_entry_word P e (cjk_token_entry P e He))
      as (w0 & w1 & w2 & w3 & Hw & H0 & H1 & Hb).
    unfold pair_calls. rewrite Hw. simpl. rewrite Hb. simpl. by eexists.
  - unfold pair_calls. rewrite peek_0, bind_Ok.
    pose proof (ascii_token_entry P e He) as Hb. unfold big5_entry in Hb.
    rewrite Hb. by eexists.
Qed.

Lemma trav_calls_pair_tokens P t :
  Forall (fun e => token (word e)) t ->
  exists out, trav_calls (pair_calls P) t = Ok out /\ length out = length t.
Proof.
  induction 1 as [|e t He _ (out & IH & Hlen)]; [by exists []|].
  destruct (pair_calls_token P e He) as (c & Hc).
  simpl. rewrite Hc, bind_Ok, IH, bind_Ok. exists ([c] ++ out).
  split; [done|]. simpl. by rewrite Hlen.
Qed.

(** ** The drivers on the tables the tokenizer builds *)

(** X14.  Every token costs at least two bytes of text: the table
    [extract_words] leaves has at most half as many entries as the text has
    bytes. *)
Theorem token_count_bound (mem : list Z) (g : globals) (s : list Z)
    (g' : globals) :
  extract_words mem g = Ok (s, g') ->
  (2 * length (wordtree g') <= length (c_str mem))%nat.
Proof.
  intros H%extract_words_table. by apply tokenize_count in H.
Qed.

Lemma token_count_bound_witness :
  exists s g',
    extract_words sample_text initial_globals = Ok (s, g') /\
    (2 * length (wordtree g') <= length (c_str sample_text))%nat.
Proof.
  destruct (extract_words sample_text initial_globals) as [[s g']|f] eqn:E;
    [|vm_compute in E; discriminate E].
  exists s, g'. split; [reflexivity|].
  exact (token_count_bound sample_text initial_globals s g' E).
Defined.

Lemma sample_text_bytes : Forall (fun b => 0 <= b < 256) sample_text.
Proof.
  unfold sample_text. repeat (apply Forall_cons_2; [lia|]). apply Forall_nil_2.
Qed.

(** X15.  The pair driver does not fail after the tokenizer: when
    [extract_words] returns on a text of bytes, [parse_pair] returns too.
    It makes one invocation of [cb] for each entry of the table, hands back
    the buffer as the tokenizer left it, and leaves the table empty. *)
Theorem parse_pair_returns (P : platform) (mem : list Z) (g : globals)
    (s : list Z) (g1 : globals) :
  Forall (fun b => 0 <= b < 256) mem ->
  extract_words mem g = Ok (s, g1) ->
  exists r, parse_pair P mem g = Ok r /\ buffer r = s /\
            length (calls r) = length (wordtree g1) /\
            wordtree (after r) = [].
Proof.
  intros Hmem H.
  pose proof (extract_words_table _ _ _ _ H) as Ht.
  pose proof (tokenize_shape _ _ _ _ Hmem Ht) as Hshape.
  destruct (trav_calls_pair_tokens P _ Hshape) as (out & Hout & Hlen).
  destruct (refines_ok_r _ _ _ _
              (trav_calls_refines _ _ (cb_pair_refines P) (wordtree g1) g1) Hout)
    as ([out' g2] & Hwalk & Ho & _).
  simpl in Ho. subst out'.
  unfold parse_pair. rewrite H, bind_Ok, Hwalk, bind_Ok.
  eexists. split; [done|]. simpl. by rewrite Hlen.
Qed.

Lemma parse_pair_returns_witness :
  exists s g1 r,
    extract_words sample_text initial_globals = Ok (s, g1) /\
    parse_pair gcc_like sample_text initial_globals = Ok r /\ buffer r = s /\
    length (calls r) = length (wordtree g1) /\ wordtree (after r) = [].
Proof.
  destruct (extract_words sample_text initial_globals) as [[s g1]|f] eqn:E;
    [|vm_compute in E; discriminate E].
  destruct (parse_pair_returns gcc_like sample_text initial_globals s g1
              sample_text_bytes E) as (r & Hr).
  exists s, g1, r. split; [reflexivity|exact Hr].
Defined.

Lemma seed_bytes_take seed d :
  seed_bytes seed = Ok d -> d = take 4 seed /\ length d = 4%nat.
Proof.
  destruct seed as [|d0 [|d1 [|d2 [|d3 ?]]]]; simpl; try done.
  by intros [= <-].
Qed.

Lemma seed_bytes_ok seed :
  (4 <= length seed)%nat -> seed_bytes seed = Ok (take 4 seed).
Proof.
  destruct seed as [|d0 [|d1 [|d2 [|d3 ?]]]]; simpl; try lia. done.
Qed.

(** X16.  The delimited driver on a short text: when [extract_words]
    returns on a text of at most 21843 bytes and the seed has its four
    bytes, [parse_delim] returns.  No group of such a text outgrows [val]:
    a table of [n] entries needs at most [4 + 3 n] bytes of it, and [n] is
    at most half the length of the text. *)
Theorem parse_delim_returns (P : platform) (mem seed : list Z) (g : globals)
    (s : list Z) (g1 : globals) :
  Forall (fun b => 0 <= b < 256) mem ->
  Z.of_nat (length (c_str mem)) <= 21843 ->
  (4 <= length seed)%nat ->
  extract_words mem g = Ok (s, g1) ->
  exists r, parse_delim P mem seed g = Ok r /\ buffer r = s /\
            wordtree (after r) = [].
Proof.
  intros Hmem Hlen Hseed H.
  pose proof (extract_words_table _ _ _ _ H) as Ht.
  pose proof (tokenize_shape _ _ _ _ Hmem Ht) as Hshape.
  pose proof (tokenize_count _ _ _ _ Ht) as Hcount.
  unfold parse_delim. rewrite H, bind_Ok.
  pose proof (memcpy_delim_seed seed g1) as Hm.
  rewrite (seed_bytes_ok seed Hseed) in Hm.
  destruct (memcpy_delim seed g1) as [g2|]; simpl in Hm; [|done].
  destruct Hm as [Hd Hg2]. rewrite bind_Ok.
  assert (wordtree g2 = wordtree g1) as -> by (by rewrite Hg2).
  assert (length (take 4 seed) = 4%nat) as Hd4 by (rewrite length_take; lia).
  unfold MAXVAL in *.
  destruct (trav_d_fits P (take 4 seed) (wordtree g1) closed Hd4 Hshape)
    as (o & a' & Htrav); [done|simpl; unfold MAXVAL; lia|unfold MAXVAL; lia|].
  assert (emit_delim P (take 4 seed) (wordtree g1) = Ok (o ++ final_flush_d a'))
    as Hemit by (unfold emit_delim; by rewrite Htrav).
  destruct (refines_ok_r _ _ _ _
              (walk_delim_refines P _ (wordtree g1) g2 Hd) Hemit)
    as ([out g3] & Hwalk & _).
  rewrite Hwalk, bind_Ok. eexists. split; [done|]. done.
Qed.

Lemma parse_delim_returns_witness :
  exists s g1 r,
    extract_words sample_text initial_globals = Ok (s, g1) /\
    parse_delim gcc_like sample_text [1; 2; 3; 4] initial_globals = Ok r /\
    buffer r = s /\ wordtree (after r) = [].
Proof.
  destruct (extract_words sample_text initial_globals) as [[s g1]|f] eqn:E;
    [|vm_compute in E; discriminate E].
  destruct (parse_delim_returns gcc_like sample_text [1; 2; 3; 4]
              initial_globals s g1 sample_text_bytes) as (r & Hr);
    [vm_compute; discriminate|simpl; lia|exact E|].
  exists s, g1, r. split; [reflexivity|exact Hr].
Defined.

(** X17.  What [extract_words] leaves alone: a call that returns has
    changed none of [val], [delim], [valp], [query] and [last]; the buffer
    has the length it had, and each of its bytes is the byte that was
    there, or that byte in lower case. *)
Theorem extract_words_frame (mem : list Z) (g : globals) (s : list Z)
    (g' : globals) :
  extract_words mem g = Ok (s, g') ->
  (val g' = val g /\ delim g' = delim g /\ valp g' = valp g /\
   query g' = query g /\ last g' = last g) /\
  length s = length (c_str mem) /\
  forall i, lowered (nth i s 0) (nth i (c_str mem) 0).
Proof.
  intros H. pose proof (extract_words_table _ _ _ _ H) as Ht.
  destruct (extract_words_tokens mem g) as (k' & E). rewrite E, Ht in H.
  injection H as <-. split; [done|].
  unfold tokenize in Ht. apply scan_t_frame in Ht as (Hlen & _ & Hlow).
  done.
Qed.

Lemma extract_words_frame_witness :
  exists s g',
    extract_words sample_text initial_globals = Ok (s, g') /\
    (val g' = val initial_globals /\ delim g' = delim initial_globals /\
     valp g' = valp initial_globals /\ query g' = query initial_globals /\
     last g' = last initial_globals) /\
    length s = length (c_str sample_text) /\
    forall i, lowered (nth i s 0) (nth i (c_str sample_text) 0).
Proof.
  destruct (extract_words sample_text initial_globals) as [[s g']|f] eqn:E;
    [|vm_compute in E; discriminate E].
  exists s, g'. split; [reflexivity|].
  exact (extract_words_frame sample_text initial_globals s g' E).
Defined.

(** ** The format of the delimited records *)

(** What the open group holds in [val]: the delimiter and at least one item
    of three bytes, within the array. *)
Lemma delim_record_of d k blob body n :
  length d = 4%nat -> blob = d ++ body -> (0 < n)%nat ->
  length body = (3 * n)%nat -> 4 + 3 * Z.of_nat n <= MAXVAL ->
  delim_record d (record_of k blob).
Proof.
  intros Hd -> Hn Hbody Hfit. exists body, n. simpl.
  rewrite length_app, Hd, Hbody. split_and!; [done|done|done|lia|lia].
Qed.

Lemma push_inv b blob blob' :
  push b blob = Ok blob' ->
  blob' = blob ++ [b] /\ Z.of_nat (length blob') <= MAXVAL.
Proof.
  unfold push. destruct (Z.ltb_spec (Z.of_nat (length blob)) MAXVAL); [|done].
  intros [= <-]. rewrite length_app. simpl. split; [done|lia].
Qed.

Lemma append_group_d_inv e blob blob' :
  append_group_d e blob = Ok blob' ->
  exists x y z, blob' = blob ++ [x; y; z] /\ Z.of_nat (length blob') <= MAXVAL.
Proof.
  unfold append_group_d. intros H.
  destruct (peek (word e) 2) as [w2|]; [|discriminate H]. rewrite bind_Ok in H.
  destruct (peek (word e) 3) as [w3|]; [|discriminate H]. rewrite bind_Ok in H.
  destruct (push w2 blob) as [b1|] eqn:E1; [|discriminate H]. rewrite bind_Ok in H.
  destruct (push w3 b1) as [b2|] eqn:E2; [|discriminate H]. rewrite bind_Ok in H.
  apply push_inv in E1 as [-> _]. apply push_inv in E2 as [-> _].
  apply push_inv in H as [-> Hlen].
  exists w2, w3, (freq_cap e). by rewrite <- !app_assoc in *.
Qed.

Lemma open_group_d_inv d e k blob :
  open_group_d d e = Ok (k, blob) -> exists x y z, blob = d ++ [x; y; z].
Proof.
  unfold open_group_d. intros H.
  destruct (peek (word e) 0) as [w0|]; [|discriminate H]. rewrite bind_Ok in H.
  destruct (peek (word e) 1) as [w1|]; [|discriminate H]. rewrite bind_Ok in H.
  destruct (peek (word e) 2) as [w2|]; [|discriminate H]. rewrite bind_Ok in H.
  destruct (peek (word e) 3) as [w3|]; [|discriminate H]. rewrite bind_Ok in H.
  injection H as <- <-. by eexists _, _, _.
Qed.

(** One visit of [cb_delim], on any entry: what it hands to [cb] is a
    record, and what it leaves open is the beginning of one. *)
Lemma cb_delim_d_format P d e a o a' :
  length d = 4%nat ->
  (is_Some (d_last a) ->
   exists body n, d_blob a = d ++ body /\ (0 < n)%nat /\
                  length body = (3 * n)%nat /\ 4 + 3 * Z.of_nat n <= MAXVAL) ->
  cb_delim_d P d e a = Ok (o, a') ->
  Forall (delim_record d) o /\
  (is_Some (d_last a') ->
   exists body n, d_blob a' = d ++ body /\ (0 < n)%nat /\
                  length body = (3 * n)%nat /\ 4 + 3 * Z.of_nat n <= MAXVAL).
Proof.
  intros Hd Ha H. unfold cb_delim_d in H. rewrite peek_0, bind_Ok in H.
  assert (forall x y z, exists body n,
            d ++ [x; y; z] = d ++ body /\ (0 < n)%nat /\
            length body = (3 * n)%nat /\ 4 + 3 * Z.of_nat n <= MAXVAL) as Hone.
  { intros x y z. exists [x; y; z], 1%nat. unfold MAXVAL. simpl.
    split_and!; [done|lia|done|lia]. }
  destruct (is_big5_char P (hd 0 (word e))).
  - destruct (d_last a) as [l|] eqn:Hl.
    + destruct (same_lead e l) as [b|]; [|discriminate H].
      rewrite bind_Ok in H.
      destruct (Ha ltac:(done)) as (body & n & Hblob & Hn & Hbody & Hfit).
      destruct b.
      * destruct (append_group_d e (d_blob a)) as [blob|] eqn:Eg;
          [|discriminate H].
        simpl in H. injection H as <- <-. split; [apply Forall_nil_2|].
        intros _. simpl.
        apply append_group_d_inv in Eg as (x & y & z & -> & Hlen).
        exists (body ++ [x; y; z]), (S n).
        rewrite Hblob, !length_app, Hd, Hbody in Hlen. simpl in Hlen.
        rewrite Hblob, <- app_assoc, length_app, Hbody. simpl.
        split_and!; [done|lia|lia|lia].
      * destruct (open_group_d d e) as [[k blob]|] eqn:Eg; [|discriminate H].
        simpl in H. injection H as <- <-.
        apply open_group_d_inv in Eg as (x & y & z & ->).
        split; [|intros _; apply Hone].
        apply Forall_cons_2; [|apply Forall_nil_2].
        by apply (delim_record_of d _ _ body n).
    + destruct (open_group_d d e) as [[k blob]|] eqn:Eg; [|discriminate H].
      simpl in H. injection H as <- <-.
      apply open_group_d_inv in Eg as (x & y & z & ->).
      split; [apply Forall_nil_2|]. intros _. apply Hone.
  - injection H as <- <-. destruct (Hone 0x20 0x20 (freq_cap e))
      as (body & n & Hblob & Hn & Hbody & Hfit).
    split; [|intros _; by exists body, n].
    apply Forall_cons_2; [|apply Forall_nil_2].
    by apply (delim_record_of d _ _ body n).
Qed.

Lemma trav_d_format P d t : forall a o a',
  length d = 4%nat ->
  (is_Some (d_last a) ->
   exists body n, d_blob a = d ++ body /\ (0 < n)%nat /\
                  length body = (3 * n)%nat /\ 4 + 3 * Z.of_nat n <= MAXVAL) ->
  trav_d P d t a = Ok (o, a') ->
  Forall (delim_record d) o /\
  (is_Some (d_last a') ->
   exists body n, d_blob a' = d ++ body /\ (0 < n)%nat /\
                  length body = (3 * n)%nat /\ 4 + 3 * Z.of_nat n <= MAXVAL).
Proof.
  induction t as [|e t IH]; intros a o a' Hd Ha H.
  - injection H as <- <-. split; [apply Forall_nil_2|done].
  - change (trav_d P d (e :: t) a)
      with ('(o1, a1) ← cb_delim_d P d e a;
            '(o2, a2) ← trav_d P d t a1; Ok (o1 ++ o2, a2)) in H.
    destruct (cb_delim_d P d e a) as [[o1 a1]|] eqn:E1; [|discriminate H].
    rewrite bind_Ok in H.
    destruct (trav_d P d t a1) as [[o2 a2]|] eqn:E2; [|discriminate H].
    injection H as <- <-.
    destruct (cb_delim_d_format P d e a o1 a1 Hd Ha E1) as [Ho1 Ha1].
    destruct (IH a1 o2 a2 Hd Ha1 E2) as [Ho2 Ha2].
    split; [by apply Forall_app_2|done].
Qed.

Lemma emit_delim_format P d t out :
  length d = 4%nat -> emit_delim P d t = Ok out -> Forall (delim_record d) out.
Proof.
  intros Hd H. unfold emit_delim in H.
  destruct (trav_d P d t closed) as [[o a]|] eqn:E; [|discriminate H].
  injection H as <-.
  destruct (trav_d_format P d t closed o a Hd) as [Ho Ha];
    [by intros [? Hs]|done|].
  apply Forall_app_2; [done|]. unfold final_flush_d.
  destruct (d_last a) as [l|]; [|apply Forall_nil_2].
  destruct (Ha ltac:(done)) as (body & n & Hblob & Hn & Hbody & Hfit).
  apply Forall_cons_2; [|apply Forall_nil_2].
  by apply (delim_record_of d _ _ body n).
Qed.

(** X18.  The records of the delimited driver.  Whatever the text, every
    invocation of [cb] that a returning [parse_delim] makes has as value
    the four seed bytes followed by one or more items of three bytes, and
    as third argument the number of bytes of that value, which is at most
    [MAXVAL]. *)
Theorem delimited_records_format (P : platform) (mem seed : list Z)
    (g : globals) (r : result) :
  parse_delim P mem seed g = Ok r ->
  Forall (delim_record (take 4 seed)) (calls r).
Proof.
  intros H. apply parse_delim_inv in H as (d & t & _ & Hseed & Hemit & _).
  apply seed_bytes_take in Hseed as [-> Hd].
  by apply (emit_delim_format P _ t).
Qed.

Lemma delimited_records_format_witness :
  exists r,
    parse_delim gcc_like sample_text [1; 2; 3; 4] initial_globals = Ok r /\
    Forall (delim_record (take 4 [1; 2; 3; 4])) (calls r).
Proof.
  destruct (parse_delim gcc_like sample_text [1; 2; 3; 4] initial_globals)
    as [r|f] eqn:E; [|vm_compute in E; discriminate E].
  exists r. split; [reflexivity|].
  exact (delimited_records_format gcc_like sample_text [1; 2; 3; 4]
           initial_globals r E).
Defined.

(** ** Texts on which the tokenizer returns *)

Lemma sound_bind {A B} (Q : A -> Prop) (R : B -> Prop) (m : outcome A) k :
  sound Q m -> (forall a, m = Ok a -> Q a -> sound R (k a)) -> sound R (m ≫= k).
Proof. destruct m; simpl; auto. Qed.

Lemma sound_impl {A} (Q R : A -> Prop) (m : outcome A) :
  sound Q m -> (forall a, m = Ok a -> Q a -> R a) -> sound R m.
Proof. destruct m; simpl; auto. Qed.

Lemma nth_nonzero_lt (s : list Z) i : nth i s 0 <> 0 -> (i < length s)%nat.
Proof.
  intros H. destruct (decide (i < length s)%nat) as [|Hge]; [done|].
  rewrite nth_overflow in H by lia. done.
Qed.

Lemma drop_nth_cons (s : list Z) p :
  (p < length s)%nat -> drop p s = nth p s 0 :: drop (S p) s.
Proof.
  intros Hp. apply lookup_lt_is_Some in Hp as [b Hb].
  rewrite nth_lookup, Hb. simpl. by apply drop_S.
Qed.

Lemma paired_single_step s p :
  paired (drop p s) -> (p < length s)%nat -> is_big5 (nth p s 0) = false ->
  paired (drop (S p) s).
Proof.
  intros H Hp Hb. rewrite (drop_nth_cons s p Hp) in H.
  inversion H as [|b s' Hb' Hs' E|l b s' Hl Hs' E]; [done|]. congruence.
Qed.

Lemma paired_double_step s p :
  paired (drop p s) -> (p < length s)%nat -> is_big5 (nth p s 0) = true ->
  (p + 2 <= length s)%nat /\ paired (drop (p + 2) s).
Proof.
  intros H Hp Hb. rewrite (drop_nth_cons s p Hp) in H.
  inversion H as [|b s' Hb' Hs' E|l b s' Hl Hs' [E1 E2]]; [congruence|].
  assert (S p < length s)%nat as Hp'.
  { apply (f_equal length) in E2. rewrite length_drop in E2. simpl in E2. lia. }
  rewrite (drop_nth_cons s (S p) Hp') in E2. injection E2 as _ ->.
  replace (p + 2)%nat with (S (S p)) by lia. split; [lia|done].
Qed.

Lemma is_big5word_big5 b : is_big5word b = true -> is_big5 b = true.
Proof.
  unfold is_big5word, is_big5. intros H%Z.ltb_lt. apply Z.ltb_lt. lia.
Qed.

Lemma is_alnum_not_big5 b : is_alnum b = true -> is_big5 b = false.
Proof.
  intros H%is_alnum_range. unfold is_big5. apply Z.ltb_ge. lia.
Qed.

Lemma short_from_mono p p' s : (p <= p')%nat -> short_from p s -> short_from p' s.
Proof. intros Hp H i Hi. apply H. lia. Qed.

(** The loop of lines 155-158 on a text with complete characters. *)
Lemma bigram_loop_t_sound fuel : forall s p t,
  (p < length s)%nat -> is_big5 (nth p s 0) = true -> paired (drop p s) ->
  sound (fun r => paired (drop r.1 s)) (bigram_loop_t fuel s p t).
Proof.
  induction fuel as [|fuel IH]; intros s p t Hp Hb Hpd; [done|].
  rewrite bigram_loop_t_S.
  destruct (paired_double_step s p Hpd Hp Hb) as [Hle Hpd2].
  rewrite (peek_le s (p + 2) Hle), bind_Ok.
  destruct (is_big5word (nth (p + 2) s 0)) eqn:Hw; [|done].
  apply IH; [|by apply is_big5word_big5|done].
  apply nth_nonzero_lt. by apply is_big5word_nonzero.
Qed.

(** Lines 147-176 at a lead byte. *)
Lemma big5_branch_t_sound s p q t :
  (p < length s)%nat -> is_big5 (nth p s 0) = true -> paired (drop p s) ->
  sound (fun r => paired (drop r.1 s)) (big5_branch_t s p q t).
Proof.
  intros Hp Hb Hpd. unfold big5_branch_t.
  destruct (paired_double_step s p Hpd Hp Hb) as [Hle Hpd2].
  rewrite (peek_le s (p + 2) Hle), bind_Ok.
  rewrite (peek_le s (p + 2 - 2)) by lia. rewrite !bind_Ok.
  destruct (is_big5word (nth (p + 2) s 0)) eqn:Hw.
  - eapply sound_bind.
    + apply bigram_loop_t_sound; [|by apply is_big5word_big5|done].
      apply nth_nonzero_lt. by apply is_big5word_nonzero.
    + intros [p' t'] Hl Hp'. apply bigram_loop_t_bound in Hl. simpl in *.
      destruct (q =? 0); [exact Hp'|].
      rewrite (peek_le s (p' - 4)) by lia. rewrite bind_Ok.
      destruct (is_big5word (nth (p' - 4) s 0)); exact Hp'.
  - destruct (is_big5word (nth (p + 2 - 2) s 0)); exact Hpd2.
Qed.

(** The loop of lines 182-186 on a run that ends before [xlen] reaches 32. *)
Lemma alnum_loop_sound fuel : forall s p x j,
  (p < length s)%nat -> 0 <= x -> x + Z.of_nat j < 32 ->
  is_alnum (nth p s 0) = true -> is_alnum (nth (p + j) s 0) = false ->
  paired (drop p s) -> short_from p s ->
  sound (fun r => r.2 < 32 /\ paired (drop r.1.2 r.1.1) /\
                  short_from r.1.2 r.1.1)
    (alnum_loop fuel s p x).
Proof.
  induction fuel as [|fuel IH]; intros s p x j Hp Hx Hj Ha Hend Hpd Hsh; [done|].
  rewrite alnum_loop_S, (peek_le s p) by lia. rewrite bind_Ok.
  destruct (Z.eqb_spec x INT_MAX) as [Hmax|_]; [unfold INT_MAX in Hmax; lia|].
  assert (j <> 0)%nat as Hj0.
  { intros ->. rewrite Nat.add_0_r in Hend. congruence. }
  set (s' := if (0x40 <? nth p s 0) && (nth p s 0 <? 0x5b)
             then <[p:=nth p s 0 + 32]> s else s).
  assert (length s' = length s) as Hlen by apply lower_step_length.
  assert (forall i, i <> p -> nth i s' 0 = nth i s 0) as Hnth.
  { intros i Hi. unfold s'. rewrite lower_step_nth. by destruct (decide (i = p)). }
  assert (drop (S p) s' = drop (S p) s) as Hdrop.
  { apply nth_ext_eq; [by rewrite !length_drop, Hlen|].
    intros i. rewrite !nth_drop_0. apply Hnth. lia. }
  assert (paired (drop (S p) s')) as Hpd'.
  { rewrite Hdrop. apply paired_single_step; [done..|].
    by apply is_alnum_not_big5. }
  assert (short_from (S p) s') as Hsh'.
  { intros i Hi. destruct (Hsh i ltac:(lia)) as (k & Hk & Hk').
    exists k. split; [done|]. rewrite Hnth by lia. done. }
  rewrite (peek_le s' (S p)) by lia. rewrite bind_Ok.
  destruct (is_alnum (nth (S p) s' 0)) eqn:Hb.
  - apply (IH s' (S p) (x + 1) (j - 1)%nat); [|lia|lia|done| |done|done].
    + rewrite Hlen. rewrite Hnth in Hb by lia.
      apply nth_nonzero_lt. by apply is_alnum_nonzero.
    + replace (S p + (j - 1))%nat with (p + j)%nat by lia.
      rewrite Hnth by lia. done.
  - simpl. split; [lia|done].
Qed.

(** Lines 179-194 at an alphanumeric byte. *)
Lemma alnum_branch_t_sound s p t :
  (p < length s)%nat -> is_alnum (nth p s 0) = true ->
  paired (drop p s) -> short_from p s ->
  sound (fun r => paired (drop r.1.2 r.1.1) /\ short_from r.1.2 r.1.1)
    (alnum_branch_t s p t).
Proof.
  intros Hp Ha Hpd Hsh. unfold alnum_branch_t.
  destruct (Hsh p ltac:(lia)) as (k & Hk & Hend).
  eapply sound_bind.
  - apply (alnum_loop_sound (length s) s p 0 (k - p)); [done|lia|lia|done| |done..].
    by replace (p + (k - p))%nat with k by lia.
  - intros [[s' p'] x'] _ (Hx & Hpd' & Hsh'). simpl in *.
    destruct (1 <? x'); [|done].
    destruct (Z.ltb_spec MAXKEY x') as [Hgt|_]; [unfold MAXKEY in Hgt; lia|].
    destruct (Z.ltb_spec x' MAXKEY) as [_|Hge]; [done|].
    unfold MAXKEY in Hge. lia.
Qed.

Lemma scan_t_sound fuel : forall s p q t,
  (p <= length s)%nat -> paired (drop p s) -> short_from p s ->
  sound (fun _ => True) (scan_t fuel s p q t).
Proof.
  induction fuel as [|fuel IH]; intros s p q t Hp Hpd Hsh; [done|].
  rewrite scan_t_S, (peek_le s p Hp), bind_Ok.
  destruct (Z.eqb_spec (nth p s 0) 0) as [|Hb]; [done|].
  apply nth_nonzero_lt in Hb.
  destruct (is_big5 (nth p s 0)) eqn:Hb5.
  { eapply sound_bind; [by apply big5_branch_t_sound|].
    intros [p1 t1] Hr Hpd1. apply big5_branch_t_bound in Hr. simpl in *.
    apply IH; [lia|done|]. apply (short_from_mono p); [lia|done]. }
  destruct (is_alnum (nth p s 0)) eqn:Ha.
  { eapply sound_bind; [by apply alnum_branch_t_sound|].
    intros [[s1 p1] t1] Hr [Hpd1 Hsh1]. simpl in *.
    pose proof (alnum_branch_t_fuel s p t Hb) as Hf. rewrite Hr in Hf.
    simpl in Hf. apply IH; [lia|done|done]. }
  apply IH; [lia| |].
  - by apply paired_single_step.
  - apply (short_from_mono p); [lia|done].
Qed.

Lemma short_text_short_words s : (length s < 32)%nat -> short_words s.
Proof.
  intros Hs i _. exists (i `max` length s)%nat. split; [lia|].
  by rewrite nth_overflow by lia.
Qed.

(** X19.  Texts on which the tokenizer is defined.  If every double-byte
    character of the text is complete (no lead byte stands last) and no 32
    bytes in a row are alphanumeric, [extract_words] returns: it reads no
    byte past the terminating NUL and stores nothing past [key]. *)
Theorem well_formed_text_returns (mem : list Z) (g : globals) :
  paired (c_str mem) -> short_words (c_str mem) ->
  exists s g', extract_words mem g = Ok (s, g').
Proof.
  intros Hpd Hsh.
  destruct (extract_words_tokens mem g) as (k' & ->).
  pose proof (tokenize_fuel (query g) mem) as Hfuel.
  pose proof (scan_t_sound (S (length (c_str mem))) (c_str mem) 0 (query g)
                tree_init ltac:(lia) Hpd Hsh) as Hs.
  fold (tokenize (query g) mem) in Hs.
  destruct (tokenize (query g) mem) as [[s t]|f]; simpl in *; [|congruence].
  by eexists _, _.
Qed.

Lemma well_formed_text_witness :
  exists s g', extract_words sample_text initial_globals = Ok (s, g').
Proof.
  apply (well_formed_text_returns sample_text initial_globals).
  - simpl. unfold sample_text.
    repeat first [ apply paired_nil
                 | apply paired_single; [reflexivity|]
                 | apply paired_double; [reflexivity|] ].
  - apply short_text_short_words. simpl. lia.
Defined.

(** ** Texts without words *)

Lemma scan_t_blank fuel : forall s p q t,
  blank s -> (p <= length s)%nat -> (length s < p + fuel)%nat ->
  scan_t fuel s p q t = Ok (s, t).
Proof.
  induction fuel as [|fuel IH]; intros s p q t Hs Hp Hf; [lia|].
  rewrite scan_t_S, (peek_le s p Hp), bind_Ok.
  destruct (Z.eqb_spec (nth p s 0) 0) as [|Hb]; [done|].
  apply nth_nonzero_lt in Hb.
  destruct (lookup_lt_is_Some_2 s p Hb) as [b Hl].
  rewrite nth_lookup, Hl. simpl.
  pose proof Hs as Hall. unfold blank in Hall. rewrite Forall_lookup in Hall.
  destruct (Hall p b Hl) as [-> ->]. apply IH; [done|lia|lia].
Qed.

Lemma extract_words_blank mem g :
  blank (c_str mem) ->
  exists g', extract_words mem g = Ok (c_str mem, g') /\ wordtree g' = [] /\
             delim g' = delim g.
Proof.
  intros Hs. destruct (extract_words_tokens mem g) as (k' & ->).
  unfold tokenize. rewrite scan_t_blank by (done || lia).
  by eexists.
Qed.

(** X20.  A text without words gives no invocation: when no byte of the
    text is a double-byte lead or alphanumeric (blanks, punctuation, the
    digit 0, the empty text), each of the three drivers returns without
    calling [cb], and hands back the buffer unchanged. *)
Theorem blank_text_no_calls (P : platform) (mem seed : list Z) (g : globals) :
  blank (c_str mem) -> (4 <= length seed)%nat ->
  (exists r, parse_delim P mem seed g = Ok r /\ calls r = [] /\
             buffer r = c_str mem) /\
  (exists r, parse_pair P mem g = Ok r /\ calls r = [] /\
             buffer r = c_str mem) /\
  (exists r, parse_word P mem g = Ok r /\ calls r = [] /\
             buffer r = c_str mem).
Proof.
  intros Hs Hseed.
  destruct (extract_words_blank mem g Hs) as (g' & E & Ht & _).
  split_and!.
  - unfold parse_delim. rewrite E, bind_Ok.
    destruct seed as [|d0 [|d1 [|d2 [|d3 seed]]]]; simpl in Hseed; try lia.
    unfold memcpy_delim. rewrite bind_Ok. simpl. rewrite Ht. simpl.
    by eexists.
  - unfold parse_pair. rewrite E, bind_Ok, Ht. simpl. by eexists.
  - unfold parse_word. rewrite E, bind_Ok, Ht. simpl. by eexists.
Qed.

Lemma blank_text_witness :
  (exists r, parse_delim gcc_like [0x20; 0x30; 0x2e] [1; 2; 3; 4] initial_globals
             = Ok r /\ calls r = [] /\ buffer r = c_str [0x20; 0x30; 0x2e]) /\
  (exists r, parse_pair gcc_like [0x20; 0x30; 0x2e] initial_globals = Ok r /\
             calls r = [] /\ buffer r = c_str [0x20; 0x30; 0x2e]) /\
  (exists r, parse_word gcc_like [0x20; 0x30; 0x2e] initial_globals = Ok r /\
             calls r = [] /\ buffer r = c_str [0x20; 0x30; 0x2e]).
Proof.
  apply (blank_text_no_calls gcc_like [0x20; 0x30; 0x2e] [1; 2; 3; 4]
           initial_globals).
  - simpl. repeat (apply Forall_cons_2; [split; reflexivity|]). apply Forall_nil_2.
  - simpl. lia.
Defined.

(** ** The tokenizer on a text, piece by piece *)

(** Lines 147-176 on a run of double-byte characters. *)
Lemma big5_branch_t_chars pre lead cs post q t :
  piece_ok (Chars lead cs) post ->
  big5_branch_t (pre ++ chars (lead ++ cs) ++ post) (length pre) q t
  = Ok ((length pre + 2 * length (lead ++ cs))%nat,
        insert_all (piece_tokens q (Chars lead cs)) t).
Proof.
  intros (Hlead & Hcs & Hlen & Hend).
  destruct cs as [|c1 [|c2 cs]].
  - destruct Hlead as [->|(sy & -> & Hsy)]; [simpl in Hlen; lia|].
    by rewrite (big5_branch_t_symbol pre sy post).
  - apply Forall_cons_1 in Hcs as [Hc1 _].
    destruct Hlead as [->|(sy & -> & Hsy)].
    + by rewrite (big5_branch_t_single pre c1 post).
    + by rewrite (big5_branch_t_symbol_single pre sy c1 post).
  - apply big5_branch_t_run; [done|done|simpl; lia|done].
Qed.

Lemma chars_head lead cs :
  piece_ok (Chars lead cs) [] \/ True ->
  (lead = [] \/ exists c, lead = [c] /\ symbol c) -> Forall ideograph cs ->
  (0 < length (lead ++ cs))%nat ->
  exists c rest, chars (lead ++ cs) = c :: rest /\ 0xa0 < c.
Proof.
  intros _ Hlead Hcs Hlen. destruct Hlead as [->|(sy & -> & Hsy)].
  - destruct cs as [|c1 cs]; [simpl in Hlen; lia|].
    apply Forall_cons_1 in Hcs as [[H1 _] _].
    exists c1.1, (c1.2 :: chars cs). split; [done|lia].
  - exists sy.1, (sy.2 :: chars cs). split; [done|]. by destruct Hsy as [[? _] _].
Qed.

(** The loop of [extract_words] from the beginning of a piece on: one
    iteration per piece. *)
Lemma scan_t_pieces q us : forall fuel pre t,
  pieces_ok us -> (length us < fuel)%nat ->
  scan_t fuel (pre ++ flat_map piece_bytes us) (length pre) q t
  = Ok (pre ++ flat_map piece_left us,
        insert_all (flat_map (piece_tokens q) us) t).
Proof.
  induction us as [|u us IH]; intros fuel pre t Hok Hfuel;
    (destruct fuel as [|fuel]; [simpl in Hfuel; lia|]).
  - simpl. rewrite app_nil_r. apply scan_t_end.
  - destruct Hok as [Hu Hus]. simpl in Hfuel.
    change (flat_map piece_bytes (u :: us))
      with (piece_bytes u ++ flat_map piece_bytes us).
    change (flat_map piece_left (u :: us))
      with (piece_left u ++ flat_map piece_left us).
    change (flat_map (piece_tokens q) (u :: us))
      with (piece_tokens q u ++ flat_map (piece_tokens q) us).
    rewrite insert_all_app. set (post := flat_map piece_bytes us) in *.
    rewrite scan_t_S, peek_app_r0.
    destruct u as [b|c run|lead cs].
    + destruct Hu as (Hb0 & Hb5 & Hba). simpl piece_bytes. simpl piece_left.
      rewrite peek_0, bind_Ok. simpl hd.
      destruct (Z.eqb_spec b 0) as [|_]; [done|]. rewrite Hb5, Hba.
      replace (S (length pre)) with (length (pre ++ [b]))
        by (rewrite length_app; simpl; lia).
      rewrite (app_assoc pre [b]), (app_assoc pre [b]).
      apply IH; [done|lia].
    + destruct Hu as (Hrun & Hlen & Hend). simpl piece_bytes.
      rewrite peek_0, bind_Ok. simpl hd.
      pose proof Hrun as Hrun'. apply Forall_cons_1 in Hrun' as [Hc _].
      destruct (alnum_head c Hc) as [-> ->]. rewrite Hc.
      rewrite (alnum_branch_t_run pre c run post t Hrun Hend)
        by (unfold INT_MAX; lia).
      assert (length (pre ++ map lower (c :: run))
              = (length pre + S (length run))%nat) as Hl
        by (rewrite length_app; simpl; rewrite length_map; lia).
      destruct run as [|c' run].
      * simpl. replace (length pre + 1)%nat with (length (pre ++ [lower c]))
          by (rewrite length_app; simpl; lia).
        rewrite !(cons_middle (lower c) pre), (app_assoc pre [lower c] post),
          (app_assoc pre [lower c] (flat_map piece_left us)).
        apply IH; [done|lia].
      * destruct (Nat.leb_spec (length (c' :: run)) 30) as [_|?]; [|lia].
        change (length (c' :: run) =? 0)%nat with false. cbv iota.
        rewrite bind_Ok. cbv beta iota. rewrite <- Hl.
        unfold piece_left, piece_tokens.
        rewrite (app_assoc pre (map lower (c :: c' :: run))),
          (app_assoc pre (map lower (c :: c' :: run))).
        apply IH; [done|lia].
    + destruct Hu as (Hlead & Hcs & Hlen & Hend). simpl piece_bytes.
      destruct (chars_head lead cs (or_intror I) Hlead Hcs Hlen)
        as (c & rest & Hc & Hc0).
      rewrite Hc. rewrite peek_0, bind_Ok. simpl hd.
      destruct (Z.eqb_spec c 0) as [?|_]; [lia|].
      unfold is_big5 at 1. destruct (Z.ltb_spec 0xa0 c) as [_|?]; [|lia].
      rewrite <- Hc.
      rewrite (big5_branch_t_chars pre lead cs post q t) by done.
      rewrite bind_Ok. cbv beta iota.
      replace (length pre + 2 * length (lead ++ cs))%nat
        with (length (pre ++ chars (lead ++ cs)))
        by (rewrite length_app, chars_length; lia).
      unfold piece_left, piece_bytes.
      rewrite (app_assoc pre (chars (lead ++ cs))),
        (app_assoc pre (chars (lead ++ cs))).
      apply IH; [done|lia].
Qed.

Lemma piece_bytes_nonzero u post :
  piece_ok u post -> Forall (fun b => b <> 0) (piece_bytes u).
Proof.
  destruct u as [b|c run|lead cs]; simpl.
  - intros (Hb & _). by apply Forall_cons_2.
  - intros (Hrun & _). eapply Forall_impl; [exact Hrun|].
    intros b Hb. by apply is_alnum_nonzero.
  - intros (Hlead & Hcs & _). apply chars_nonzero, Forall_app_2.
    + destruct Hlead as [->|(sy & -> & [Hl Ht])]; [apply Forall_nil_2|].
      apply Forall_cons_2; [|apply Forall_nil_2]. split; [lia|done].
    + eapply Forall_impl; [exact Hcs|]. intros c [Hl Ht]. split; [lia|done].
Qed.

Lemma pieces_nonzero us :
  pieces_ok us -> Forall (fun b => b <> 0) (flat_map piece_bytes us).
Proof.
  induction us as [|u us IH]; intros Hok; [apply Forall_nil_2|].
  destruct Hok as [Hu Hus]. simpl. apply Forall_app_2; [|by apply IH].
  by apply (piece_bytes_nonzero u (flat_map piece_bytes us)).
Qed.

Lemma pieces_length us :
  pieces_ok us -> (length us <= length (flat_map piece_bytes us))%nat.
Proof.
  induction us as [|u us IH]; intros Hok; [done|].
  destruct Hok as [Hu Hus]. simpl. rewrite length_app.
  specialize (IH Hus).
  assert (0 < length (piece_bytes u))%nat; [|lia].
  destruct u as [b|c run|lead cs]; simpl; [lia|lia|].
  destruct Hu as (_ & _ & Hlen & _). rewrite chars_length. lia.
Qed.

(** X21.  The tokenizer on a whole text.  Read a text as a sequence of
    pieces: bytes that start nothing, maximal runs of at most 31
    alphanumeric bytes, and maximal runs of double-byte characters made of
    at most one symbol and the ideographs after it.  Then [extract_words]
    returns; it leaves each alphanumeric run in lower case and every other
    byte as it was; and the table it builds is the one obtained by
    inserting, piece after piece: nothing for a lone byte or symbol, the
    run in lower case for an alphanumeric run of two bytes or more, the
    unigram for a single ideograph, and for two or more ideographs their
    bigrams followed, when [query] is 0, by the unigram of the last. *)
Theorem extract_words_pieces (us : list piece) (g : globals) :
  pieces_ok us ->
  exists k',
    extract_words (flat_map piece_bytes us) g
    = Ok (flat_map piece_left us,
          with_tok k'
            (insert_all (flat_map (piece_tokens (query g)) us) []) g).
Proof.
  intros Hok.
  destruct (extract_words_tokens (flat_map piece_bytes us) g) as (k' & ->).
  exists k'. unfold tokenize.
  rewrite (c_str_nonzero _ (pieces_nonzero us Hok)).
  assert (scan_t (S (length (flat_map piece_bytes us)))
            (flat_map piece_bytes us) 0 (query g) tree_init
          = Ok (flat_map piece_left us,
                insert_all (flat_map (piece_tokens (query g)) us) tree_init))
    as H.
  { apply (scan_t_pieces (query g) us _ [] tree_init Hok).
    pose proof (pieces_length us Hok). lia. }
  cbv zeta. by rewrite H.
Qed.

Lemma extract_words_pieces_witness :
  exists k',
    extract_words
      [0x48; 0x69; 0x20; 0xa1; 0x40; 0xa4; 0x40; 0xa4; 0x41; 0x2e]
      (set_query 1 initial_globals)
    = Ok ([0x68; 0x69; 0x20; 0xa1; 0x40; 0xa4; 0x40; 0xa4; 0x41; 0x2e],
          with_tok k'
            (insert_all [ [0x68; 0x69]; [0xa4; 0x40; 0xa4; 0x41] ] [])
            (set_query 1 initial_globals)).
Proof.
  apply (extract_words_pieces
           [ Word 0x48 [0x69]; Other 0x20;
             Chars [(0xa1, 0x40)] [(0xa4, 0x40); (0xa4, 0x41)]; Other 0x2e ]
           (set_query 1 initial_globals)).
  simpl. split_and!; try done.
  - repeat (apply Forall_cons_2; [reflexivity|]). apply Forall_nil_2.
  - lia.
  - intros b [= <-]. reflexivity.
  - right. exists (0xa1, 0x40). split; [reflexivity|]. split; simpl; lia.
  - repeat (apply Forall_cons_2; [split; simpl; lia|]). apply Forall_nil_2.
  - lia.
  - intros b [= <-]. lia.
Defined.

(** ** All the invocations of the delimited emitter *)

Lemma record_group P k d grp :
  length d = 4%nat -> Forall (cjk_entry P) grp ->
  record_of k (d ++ flat_map triple grp) = group_call k d grp.
Proof.
  intros Hd Hgrp. unfold record_of, group_call. f_equal.
  rewrite length_app, (flat_map_triple_length P), Hd by done. lia.
Qed.

Lemma groups_from_head t : forall grp k,
  exists rest gs, groups_from grp k t = (grp ++ rest) :: gs.
Proof.
  induction t as [|e t IH]; intros grp k; simpl.
  - exists [], []. by rewrite app_nil_r.
  - destruct (bool_decide (lead2 e = k)).
    + destruct (IH (grp ++ [e]) k) as (rest & gs & ->).
      exists (e :: rest), gs. by rewrite <- app_assoc.
    + exists [], (groups_from [e] (lead2 e) t). by rewrite app_nil_r.
Qed.

Lemma bind_Ok_inv {A B} (m : outcome A) (k : A -> outcome B) b :
  m ≫= k = Ok b -> exists a, m = Ok a /\ k a = Ok b.
Proof. destruct m as [a|]; [|done]. intros H. by exists a. Qed.

Lemma group_lead_snoc grp e :
  grp <> [] -> group_lead (grp ++ [e]) = group_lead grp.
Proof. by destruct grp. Qed.

(** The traversal from an open group on: the group is handed over when the
    first two bytes change, or by the final flush. *)
Lemma trav_d_groups P d t : forall grp l,
  length d = 4%nat -> Forall (cjk_entry P) t ->
  Forall (cjk_entry P) grp -> cjk_entry P l ->
  grp <> [] -> group_lead grp = lead2 l ->
  Forall (fun grp => 4 + 3 * Z.of_nat (length grp) <= MAXVAL)
         (groups_from grp (lead2 l) t) ->
  ('(o, a) ← trav_d P d t {| d_last := Some l; d_key := lead2 l;
                             d_blob := d ++ flat_map triple grp |};
   Ok (o ++ final_flush_d a))
  = Ok (map (group_invocation d) (groups_from grp (lead2 l) t)).
Proof.
  induction t as [|e t IH]; intros grp l Hd Ht Hgrp Hl Hne Hlead Hfit.
  - simpl. unfold group_invocation. rewrite Hlead.
    by rewrite final_flush_d_open, (record_group P).
  - apply Forall_cons_1 in Ht as [He Ht].
    change (trav_d P d (e :: t) ?a)
      with ('(o1, a1) ← cb_delim_d P d e a;
            '(o2, a2) ← trav_d P d t a1; Ok (o1 ++ o2, a2)).
    rewrite (cb_delim_d_cjk P d e) by
      (try done; intros ? [= <-]; by destruct Hl as (_ & _ & ?)).
    cbn [d_last d_key d_blob]. simpl groups_from in *.
    destruct (bool_decide (lead2 e = lead2 l)) eqn:Hsame.
    + apply bool_decide_eq_true_1 in Hsame.
      destruct (groups_from_head t (grp ++ [e]) (lead2 l))
        as (rest & gs & Hhead).
      pose proof Hfit as Hfit'. rewrite Hhead in Hfit'.
      apply Forall_cons_1 in Hfit' as [Hfit' _].
      rewrite !length_app in Hfit'. simpl in Hfit'.
      rewrite length_app, (flat_map_triple_length P), Hd by done.
      destruct (Z.leb_spec (Z.of_nat (4 + 3 * length grp) + 3) MAXVAL) as [_|?];
        [|lia].
      rewrite bind_Ok.
      assert ((d ++ flat_map triple grp) ++ triple e
              = d ++ flat_map triple (grp ++ [e])) as ->.
      { rewrite flat_map_app. simpl. by rewrite app_nil_r, app_assoc. }
      rewrite <- Hsame in *.
      pose proof (IH (grp ++ [e]) e Hd Ht
                    ltac:(apply Forall_app_2; [done|by apply Forall_cons_2])
                    He ltac:(by destruct grp)
                    ltac:(by rewrite group_lead_snoc) Hfit) as IH'.
      apply bind_Ok_inv in IH' as ([o2 a2] & -> & IH').
      by rewrite !bind_Ok.
    + apply Forall_cons_1 in Hfit as [Hfit1 Hfit].
      rewrite bind_Ok.
      assert (d ++ triple e = d ++ flat_map triple [e]) as ->
        by (simpl; by rewrite app_nil_r).
      pose proof (IH [e] e Hd Ht ltac:(by apply Forall_cons_2) He
                    ltac:(done) eq_refl Hfit) as IH'.
      apply bind_Ok_inv in IH' as ([o2 a2] & -> & IH').
      rewrite !bind_Ok. injection IH' as IH'. simpl. rewrite IH'.
      rewrite (record_group P) by done.
      unfold group_invocation at 1. by rewrite <- Hlead.
Qed.

(** Entries on the second branch only: one invocation each. *)
Lemma trav_d_ascii_calls P d t : forall a,
  length d = 4%nat -> Forall (fun e => big5_entry P e = false) t ->
  exists a', trav_d P d t a = Ok (map (ascii_call d) t, a') /\
             d_last a' = d_last a.
Proof.
  induction t as [|e t IH]; intros a Hd Ht.
  - by exists a.
  - apply Forall_cons_1 in Ht as [He Ht].
    change (trav_d P d (e :: t) a)
      with ('(o1, a1) ← cb_delim_d P d e a;
            '(o2, a2) ← trav_d P d t a1; Ok (o1 ++ o2, a2)).
    rewrite cb_delim_d_ascii, bind_Ok by done.
    destruct (IH {| d_last := d_last a; d_key := d_key a;
                    d_blob := d ++ [0x20; 0x20; freq_cap e] |} Hd Ht)
      as (a' & -> & Hl).
    rewrite bind_Ok. exists a'. split; [|done].
    do 2 f_equal. unfold record_of, ascii_call. f_equal.
    rewrite length_app, Hd. done.
Qed.

Lemma emit_delim_calls P d ascii cjk :
  length d = 4%nat ->
  Forall (fun e => ascii_token (word e)) ascii ->
  Forall (fun e => cjk_token (word e)) cjk ->
  Forall (fun grp => 4 + 3 * Z.of_nat (length grp) <= MAXVAL) (groups cjk) ->
  emit_delim P d (ascii ++ cjk)
  = Ok (map (ascii_call d) ascii ++ map (group_invocation d) (groups cjk)).
Proof.
  intros Hd Hascii Hcjk Hfit. unfold emit_delim.
  assert (Forall (fun e => big5_entry P e = false) ascii) as Ha.
  { eapply Forall_impl; [exact Hascii|]. intros e. apply ascii_token_entry. }
  assert (Forall (cjk_entry P) cjk) as Hc.
  { eapply Forall_impl; [exact Hcjk|]. intros e. apply cjk_token_entry. }
  rewrite trav_d_app.
  destruct (trav_d_ascii_calls P d ascii closed Hd Ha) as (a1 & -> & Hl1).
  rewrite bind_Ok. simpl in Hl1.
  destruct cjk as [|e cjk].
  - simpl. unfold final_flush_d. rewrite Hl1. by rewrite !app_nil_r.
  - apply Forall_cons_1 in Hc as [He Hc].
    change (trav_d P d (e :: cjk) a1)
      with ('(o1, a) ← cb_delim_d P d e a1;
            '(o2, a2) ← trav_d P d cjk a; Ok (o1 ++ o2, a2)).
    rewrite (cb_delim_d_cjk P d e a1 He) by (rewrite Hl1; done).
    rewrite Hl1, bind_Ok.
    assert (d ++ triple e = d ++ flat_map triple [e]) as ->
      by (simpl; by rewrite app_nil_r).
    pose proof (trav_d_groups P d cjk [e] e Hd Hc
                  ltac:(by apply Forall_cons_2) He ltac:(done) eq_refl Hfit)
      as H.
    apply bind_Ok_inv in H as ([o2 a2] & -> & H).
    rewrite !bind_Ok. injection H as H. simpl. by rewrite <- app_assoc, H.
Qed.

(** X22.  All the invocations of the delimited driver's traversal.  For a
    table whose ASCII entries come first (as they do in the comparator's
    order) and whose groups fit [val], [cb] receives one record for each
    ASCII entry, then one record for each group of consecutive CJK entries
    with the same first two bytes: key those two bytes, value the delimiter
    followed by one triple per entry of the group. *)
Theorem delimited_calls (P : platform) (g : globals) (ascii cjk : tree) :
  Forall (fun e => ascii_token (word e)) ascii ->
  Forall (fun e => cjk_token (word e)) cjk ->
  Forall (fun grp => 4 + 3 * Z.of_nat (length grp) <= MAXVAL) (groups cjk) ->
  fst <$> walk_delim P (ascii ++ cjk) g
  = Ok (map (ascii_call (delim_bytes g)) ascii
        ++ map (group_invocation (delim_bytes g)) (groups cjk)).
Proof.
  intros Hascii Hcjk Hfit. rewrite walk_delim_calls.
  by apply emit_delim_calls.
Qed.

Lemma delimited_calls_witness :
  fst <$> walk_delim gcc_like (sample_pre ++ sample_group ++ sample_post)
            initial_globals
  = Ok (map (ascii_call (delim_bytes initial_globals)) sample_pre
        ++ map (group_invocation (delim_bytes initial_globals))
             (groups (sample_group ++ sample_post))).
Proof.
  apply (delimited_calls gcc_like initial_globals sample_pre
           (sample_group ++ sample_post)).
  - unfold sample_pre. apply Forall_cons_2; [|apply Forall_nil_2].
    split; [simpl; lia|].
    repeat (apply Forall_cons_2; [split; reflexivity|]). apply Forall_nil_2.
  - unfold sample_group, sample_post. simpl app.
    repeat (apply Forall_cons_2;
              [split_and!;
               [reflexivity
               |repeat (apply Forall_cons_2; [lia|]); apply Forall_nil_2
               |simpl; lia]|]).
    apply Forall_nil_2.
  - repeat (apply Forall_cons_2; [simpl; unfold MAXVAL; lia|]). apply Forall_nil_2.
Defined.
